(** * A shallow embedding of [combined_calculus_solver.py]

    The notation translator of the calculus solver: [preprocess_expression],
    [parse_combined_expression] and [evaluate_combined_expression].

    Python strings are sequences of Unicode code points, so a text is a list
    of code points ([N]).  The regular expressions of the source are embedded
    through a small backtracking matcher for the fragment they use (a
    sequence of single-character items, each optional, starred or plussed,
    some of them captured).  The symbolic engine (SymPy) and the user
    interface (Streamlit) are external: the engine is a record of operations
    that may raise, the interface is the list of notifications a call emits. *)

From Stdlib Require Import String Ascii.
From Stdlib Require Import List NArith Arith Bool Lia.
Import ListNotations.

Set Implicit Arguments.

(* ================================================================== *)
(** * Code points and texts *)
(* ================================================================== *)

(** A character is its code point, a text the list of its characters. *)
Abbreviation char := N (only parsing).
Abbreviation str := (list N) (only parsing).

Module Unicode.
Local Open Scope N_scope.

(** Decoding of the UTF-8 bytes of a string literal into code points
    ([need] continuation bytes are still expected for [acc]). *)
Fixpoint utf8_go (bs : list N) (need : nat) (acc : N) : str :=
  match bs with
  | [] => []
  | b :: bs' =>
      match need with
      | O =>
          if b <? 128 then b :: utf8_go bs' 0 0
          else if b <? 224 then utf8_go bs' 1 (b - 192)
          else if b <? 240 then utf8_go bs' 2 (b - 224)
          else utf8_go bs' 3 (b - 240)
      | S O => (acc * 64 + (b - 128)) :: utf8_go bs' 0 0
      | S n => utf8_go bs' n (acc * 64 + (b - 128))
      end
  end.

Definition py (s : string) : str :=
  utf8_go (map N_of_ascii (list_ascii_of_string s)) 0 0.

Definition in_range (c : char) (r : N * N) : bool :=
  (fst r <=? c) && (c <=? snd r).

Definition in_ranges (rs : list (N * N)) (c : char) : bool :=
  existsb (in_range c) rs.

(** [str.isspace] of one character, which is also what [\s] matches on a
    [str] pattern and what [str.strip()] removes. *)
Definition whitespace_ranges : list (N * N) :=
  [ (9, 13); (28, 32); (133, 133); (160, 160); (5760, 5760);
    (8192, 8202); (8232, 8233); (8239, 8239); (8287, 8287);
    (12288, 12288) ].

Definition is_space : char -> bool := in_ranges whitespace_ranges.

(** [\d] on a [str] pattern: the decimal digits of Unicode (category Nd);
    every range holds the digits zero to nine of one script. *)
Definition decimal_ranges : list (N * N) :=
  [ (48, 57); (1632, 1641); (1776, 1785); (1984, 1993); (2406, 2415);
    (2534, 2543); (2662, 2671); (2790, 2799); (2918, 2927); (3046, 3055);
    (3174, 3183); (3302, 3311); (3430, 3439); (3558, 3567); (3664, 3673);
    (3792, 3801); (3872, 3881); (4160, 4169); (4240, 4249); (6112, 6121);
    (6160, 6169); (6470, 6479); (6608, 6617); (6784, 6793); (6800, 6809);
    (6992, 7001); (7088, 7097); (7232, 7241); (7248, 7257);
    (42528, 42537); (43216, 43225); (43264, 43273); (43472, 43481);
    (43504, 43513); (43600, 43609); (44016, 44025); (65296, 65305);
    (66720, 66729); (68912, 68921); (69734, 69743); (69872, 69881);
    (69942, 69951); (70096, 70105); (70384, 70393); (70736, 70745);
    (70864, 70873); (71248, 71257); (71360, 71369); (71472, 71481);
    (71904, 71913); (72016, 72025); (72784, 72793); (73040, 73049);
    (73120, 73129); (73552, 73561); (92768, 92777); (92864, 92873);
    (93008, 93017); (120782, 120831); (123200, 123209);
    (123632, 123641); (124144, 124153); (125264, 125273);
    (130032, 130041) ].

Definition is_decimal : char -> bool := in_ranges decimal_ranges.

(** [str.isdigit] of one character: the decimal digits and the other
    characters of numeric type Digit (superscripts, subscripts, circled
    and parenthesised digits, ...). *)
Definition other_digit_ranges : list (N * N) :=
  [ (178, 179); (185, 185); (4969, 4977); (6618, 6618); (8304, 8304);
    (8308, 8313); (8320, 8329); (9312, 9320); (9332, 9340);
    (9352, 9360); (9450, 9450); (9461, 9469); (9471, 9471);
    (10102, 10110); (10112, 10120); (10122, 10130); (68160, 68163);
    (69216, 69224); (69714, 69722); (127232, 127242) ].

Definition is_digit (c : char) : bool :=
  is_decimal c || in_ranges other_digit_ranges c.

(** The character classes [[a-z]] and [[a-zA-Z]] of the patterns. *)
Definition is_lower (c : char) : bool := (97 <=? c) && (c <=? 122).
Definition is_upper (c : char) : bool := (65 <=? c) && (c <=? 90).
Definition is_alpha (c : char) : bool := is_lower c || is_upper c.
End Unicode.
Export Unicode.

(** The characters the source names. *)
Module Ch.
Local Open Scope N_scope.
Definition newline : char := 10.
Definition space : char := 32.
Definition lparen : char := 40.
Definition rparen : char := 41.
Definition star : char := 42.
Definition comma : char := 44.
Definition minus : char := 45.
Definition slash : char := 47.
Definition gt : char := 62.
Definition caret : char := 94.
Definition underscore : char := 95.
Definition d : char := 100.
Definition i : char := 105.
Definition l : char := 108.
Definition m : char := 109.
Definition x : char := 120.
Definition lbrace : char := 123.
Definition rbrace : char := 125.
Definition squared : char := 178.      (* U+00B2, superscript two *)
Definition partial : char := 8706.     (* U+2202 *)
Definition integral : char := 8747.    (* U+222B *)
End Ch.

(* ================================================================== *)
(** * The [str] methods the source uses *)
(* ================================================================== *)

Module Str.
Local Open Scope N_scope.

Fixpoint eqb (a b : str) : bool :=
  match a, b with
  | [], [] => true
  | c :: a', e :: b' => (c =? e) && eqb a' b'
  | _, _ => false
  end.

Fixpoint startswith (s prefix : str) {struct prefix} : bool :=
  match prefix, s with
  | [], _ => true
  | p :: prefix', c :: s' => (c =? p) && startswith s' prefix'
  | _ :: _, [] => false
  end.

(** [needle in s] *)
Fixpoint contains (s needle : str) : bool :=
  match s with
  | [] => startswith [] needle
  | _ :: s' => startswith s needle || contains s' needle
  end.

(** [c in s] for a one-character [c] *)
Definition has (s : str) (c : char) : bool := existsb (N.eqb c) s.

Fixpoint lstrip (s : str) : str :=
  match s with
  | c :: s' => if is_space c then lstrip s' else s
  | [] => []
  end.

Definition rstrip (s : str) : str := rev (lstrip (rev s)).

Definition strip (s : str) : str := rstrip (lstrip s).

(** [s.split(sep)] for a one-character separator: never empty. *)
Fixpoint split (sep : char) (s : str) : list str :=
  match s with
  | [] => [[]]
  | c :: s' =>
      if c =? sep then [] :: split sep s'
      else match split sep s' with
           | part :: parts => (c :: part) :: parts
           | [] => [[c]]
           end
  end.

(** [s.replace(c, by)] for a one-character [c] *)
Definition replace (c : char) (by_ : str) (s : str) : str :=
  flat_map (fun e => if e =? c then by_ else [e]) s.

Definition count (c : char) (s : str) : nat :=
  List.length (filter (N.eqb c) s).

Definition isdigit (s : str) : bool :=
  match s with
  | [] => false
  | _ => forallb is_digit s
  end.

Definition endswith_char (s : str) (c : char) : bool :=
  match rev s with
  | e :: _ => e =? c
  | [] => false
  end.

(** [s[:-1]] *)
Definition drop_last (s : str) : str := removelast s.

(** [s in options] for a list of strings *)
Definition among (s : str) (options : list str) : bool :=
  existsb (eqb s) options.
End Str.

(* ================================================================== *)
(** * The fragment of [re] the source uses *)
(* ================================================================== *)

Module Re.
Local Open Scope N_scope.

Inductive quant := One | Opt | Star | Plus.

(** One item of a pattern: a character class, how often it repeats, and
    whether the text it matches is a capture group. *)
Record item := Item { cls : char -> bool; rep : quant; cap : bool }.

Definition regex := list item.

(** What a match is: the text matched by every item, in order. *)
Definition pieces := list str.

Section Greedy.
Variable R : Type.
Variable c : char -> bool.
Variable k : str -> option R.

Definition stop (s : str) : option (str * R) :=
  match k s with
  | Some r => Some ([], r)
  | None => None
  end.

(** Zero or more characters of the class, the longest run first; the
    matcher gives characters back one at a time while the rest of the
    pattern [k] fails. *)
Fixpoint greedy (s : str) : option (str * R) :=
  match s with
  | e :: s' =>
      if c e then
        match greedy s' with
        | Some (m, r) => Some (e :: m, r)
        | None => stop s
        end
      else stop s
  | [] => stop s
  end.

Definition at_least_one (s : str) : option (str * R) :=
  match s with
  | e :: s' =>
      if c e then
        match greedy s' with
        | Some (m, r) => Some (e :: m, r)
        | None => None
        end
      else None
  | [] => None
  end.

Definition at_most_one (s : str) : option (str * R) :=
  match s with
  | e :: s' =>
      if c e then
        match k s' with
        | Some r => Some ([e], r)
        | None => stop s
        end
      else stop s
  | [] => stop s
  end.

Definition exactly_one (s : str) : option (str * R) :=
  match s with
  | e :: s' =>
      if c e then
        match k s' with
        | Some r => Some ([e], r)
        | None => None
        end
      else None
  | [] => None
  end.
End Greedy.

(** [pattern.match(s)]: the pieces of the match that starts at the head of
    [s], and the text after it. *)
Fixpoint match_at (p : regex) (s : str) : option (pieces * str) :=
  match p with
  | [] => Some ([], s)
  | it :: p' =>
      let k := match_at p' in
      let r := match rep it with
               | One => exactly_one (cls it) k s
               | Opt => at_most_one (cls it) k s
               | Star => greedy (cls it) k s
               | Plus => at_least_one (cls it) k s
               end in
      match r with
      | Some (m, (ms, rest)) => Some (m :: ms, rest)
      | None => None
      end
  end.

(** A successful search: [s = before ++ concat matched ++ after]. *)
Record found := Found { before : str; matched : pieces; after : str }.

Fixpoint search_from (p : regex) (skipped : str) (s : str) : option found :=
  match match_at p s with
  | Some (ms, rest) => Some (Found (rev skipped) ms rest)
  | None =>
      match s with
      | [] => None
      | e :: s' => search_from p (e :: skipped) s'
      end
  end.

(** [re.search(p, s)]: the leftmost match. *)
Definition search (p : regex) (s : str) : option found :=
  search_from p [] s.

(** The capture groups of a match, [group 1] being the first. *)
Fixpoint captures (p : regex) (ms : pieces) : list str :=
  match p, ms with
  | it :: p', m :: ms' =>
      if cap it then m :: captures p' ms' else captures p' ms'
  | _, _ => []
  end.

Definition group (p : regex) (ms : pieces) (n : nat) : str :=
  nth (pred n) (captures p ms) [].

(** [re.sub(p, repl, s)]: every non-overlapping match, from the left, is
    replaced; [skip] counts the characters of the last match that are
    still to be passed over.  (Every pattern substituted in the source
    matches at least one character.) *)
Fixpoint sub_from (p : regex) (repl : pieces -> str) (skip : nat) (s : str)
  : str :=
  match s with
  | [] => []
  | e :: s' =>
      match skip with
      | S n => sub_from p repl n s'
      | O =>
          match match_at p s with
          | Some (ms, rest) =>
              repl ms ++ sub_from p repl (pred (List.length (concat ms))) s'
          | None => e :: sub_from p repl 0 s'
          end
      end
  end.

Definition sub (p : regex) (repl : pieces -> str) (s : str) : str :=
  sub_from p repl 0 s.

(** Pattern syntax. *)
Definition lit (c : char) : item := Item (N.eqb c) One false.
Definition lits (s : str) : regex := map lit s.
Definition one (c : char -> bool) : item := Item c One false.
Definition opt (c : char -> bool) : item := Item c Opt false.
Definition star (c : char -> bool) : item := Item c Star false.
Definition group_one (c : char -> bool) : item := Item c One true.
Definition group_plus (c : char -> bool) : item := Item c Plus true.
Definition group_star (c : char -> bool) : item := Item c Star true.

Definition only (c : char) : char -> bool := N.eqb c.
Definition none_of (cs : list char) (c : char) : bool :=
  negb (existsb (N.eqb c) cs).
Definition one_of (cs : list char) (c : char) : bool :=
  existsb (N.eqb c) cs.
Definition ws : item := star is_space.
End Re.

(** [s.replace(old, new)] for a non-empty [old] (the source never passes an
    empty one): the occurrences of [old], from the left and without
    overlap, become [new]. *)
Fixpoint replace_from (old new : str) (skip : nat) (s : str) : str :=
  match s with
  | [] => []
  | e :: s' =>
      match skip with
      | S n => replace_from old new n s'
      | O =>
          if Str.startswith s old
          then new ++ replace_from old new (pred (List.length old)) s'
          else e :: replace_from old new 0 s'
      end
  end.

Definition replace (old new s : str) : str := replace_from old new 0 s.

(* ================================================================== *)
(** * [preprocess_expression] *)
(* ================================================================== *)

Import Re.

(** [(\d)([a-zA-Z\(])] *)
Definition digit_then_name : regex :=
  [ group_one is_decimal; group_one (fun c => is_alpha c || N.eqb c Ch.lparen) ].

(** [(\))([a-zA-Z])] *)
Definition paren_then_name : regex :=
  [ group_one (only Ch.rparen); group_one is_alpha ].

(** The replacement template [\1*\2]. *)
Definition times (p : regex) (ms : pieces) : str :=
  group p ms 1 ++ py "*" ++ group p ms 2.

Definition preprocess_expression (expr : str) : str :=
  let expr := replace (py "^") (py "**") expr in
  let expr := sub digit_then_name (times digit_then_name) expr in
  let expr := sub paren_then_name (times paren_then_name) expr in
  expr.

(* ================================================================== *)
(** * [parse_combined_expression] *)
(* ================================================================== *)

Definition not_paren : char -> bool := none_of [Ch.lparen; Ch.rparen].
Definition not_brace : char -> bool := none_of [Ch.lbrace; Ch.rbrace].
Definition not_d : char -> bool := none_of [Ch.d].

(** [\s*\(?([^()]+)\)?], the operand of the one-level rules. *)
Definition operand : regex :=
  [ ws; opt (only Ch.lparen); group_plus not_paren; opt (only Ch.rparen) ].

(** [lim[_{]?([a-z])->([^{}]+)[}]?] *)
Definition lim_head : regex :=
  lits (py "lim") ++
  [ opt (one_of [Ch.underscore; Ch.lbrace]); group_one is_lower ] ++
  lits (py "->") ++
  [ group_plus not_brace; opt (only Ch.rbrace) ].

(** [∫\s*\(\s*d/d([a-z])\s*\(([^()]+)\)\s*\)\s*d([a-z])] *)
Definition derivative_in_integral_pattern : regex :=
  lits (py "∫") ++ [ ws; lit Ch.lparen; ws ] ++ lits (py "d/d") ++
  [ group_one is_lower; ws; lit Ch.lparen; group_plus not_paren;
    lit Ch.rparen; ws; lit Ch.rparen; ws; lit Ch.d; group_one is_lower ].

(** [d/d([a-z])\s*\(\s*∫\s*([^d]+)\s*d([a-z])\s*\)] *)
Definition special_case : regex :=
  lits (py "d/d") ++
  [ group_one is_lower; ws; lit Ch.lparen; ws; lit Ch.integral; ws;
    group_plus not_d; ws; lit Ch.d; group_one is_lower; ws; lit Ch.rparen ].

(** [d/d([a-z])\s*\(\s*lim[_{]?([a-z])->([^{}]+)[}]?\s*\(([^()]+)\)\s*\)] *)
Definition limit_derivative_pattern : regex :=
  lits (py "d/d") ++ [ group_one is_lower; ws; lit Ch.lparen; ws ] ++
  lim_head ++
  [ ws; lit Ch.lparen; group_plus not_paren; lit Ch.rparen; ws;
    lit Ch.rparen ].

(** [∫\s*\(\s*lim[_{]?([a-z])->([^{}]+)[}]?\s*\(([^()]+)\)\s*\)\s*d([a-z])] *)
Definition limit_integral_pattern : regex :=
  lits (py "∫") ++ [ ws; lit Ch.lparen; ws ] ++ lim_head ++
  [ ws; lit Ch.lparen; group_plus not_paren; lit Ch.rparen; ws;
    lit Ch.rparen; ws; lit Ch.d; group_one is_lower ].

(** [d²/d([a-z])²\s*\(?([^()]+)\)?] *)
Definition second_derivative_pattern : regex :=
  lits (py "d²/d") ++ [ group_one is_lower; lit Ch.squared ] ++ operand.

(** [∂/∂([a-z])\s*\(?([^()]+)\)?] *)
Definition partial_derivative_pattern : regex :=
  lits (py "∂/∂") ++ [ group_one is_lower ] ++ operand.

(** [∂²/∂([a-z])²\s*\(?([^()]+)\)?] *)
Definition second_partial_pattern : regex :=
  lits (py "∂²/∂") ++ [ group_one is_lower; lit Ch.squared ] ++ operand.

(** [∂²/∂([a-z])∂([a-z])\s*\(?([^()]+)\)?] *)
Definition mixed_partial_pattern : regex :=
  lits (py "∂²/∂") ++
  [ group_one is_lower; lit Ch.partial; group_one is_lower ] ++ operand.

(** [d/d([a-z])\s*\(?([^()]+)\)?] *)
Definition derivative_pattern : regex :=
  lits (py "d/d") ++ [ group_one is_lower ] ++ operand.

(** [∫_([^\^]+)\^([^\s]+)\s*\(?([^()d]+)\)?\s*d([a-z])] *)
Definition definite_integral_pattern : regex :=
  lits (py "∫_") ++
  [ group_plus (none_of [Ch.caret]); lit Ch.caret;
    group_plus (fun c => negb (is_space c)); ws; opt (only Ch.lparen);
    group_plus (none_of [Ch.lparen; Ch.rparen; Ch.d]); opt (only Ch.rparen);
    ws; lit Ch.d; group_one is_lower ].

(** [∫\s*([^d]{0,})\s*d([a-z])], the source writing the repetition
    of the group with a star. *)
Definition integral_pattern : regex :=
  [ lit Ch.integral; ws; group_star not_d; ws; lit Ch.d; group_one is_lower ].

(** [lim[_{]?([a-z])->([^{}]+)[}]?\s*\(?([^()]+)\)?] *)
Definition limit_pattern : regex := lim_head ++ operand.

(** Lines 30 to 65: the catalogue of literal examples. *)
Definition literal_examples (expr : str) : option str :=
  let stripped := Str.strip expr in
  if Str.among stripped
       [ py "d/dx sin(x)"; py "d/dx(sin(x))"; py "d/dx sin x";
         py "d/dx(sin x)" ]
  then Some (py "cos(x)")
  else if Str.among stripped
       [ py "d²/dx²(sin(x))"; py "d²/dx²(sin x)"; py "d²/dx² sin(x)";
         py "d²/dx² sin x" ]
  then Some (py "-sin(x)")
  else if Str.among stripped
       [ py "∂/∂x(sin(x))"; py "∂/∂x sin(x)"; py "∂/∂x(sin x)";
         py "∂/∂x sin x" ]
  then Some (py "cos(x)")
  else if Str.contains expr (py "∫(d/dx(x^2)) dx")
          || Str.contains expr (py "∫(d/dx(x**2)) dx")
  then Some (py "x^2")
  else if Str.contains expr (py "lim_{x->0}(sin(x)/x)")
          || Str.contains expr (py "lim x->0 sin(x)/x")
  then Some (py "1")
  else if Str.contains expr (py "d/dx(lim_{t->0}(sin(t)/t))")
  then Some (py "0")
  else if Str.contains expr (py "∫(lim_{t->x}(t^2)) dx")
  then Some (py "x^3/3")
  else None.

(** Lines 70 to 90: an input that starts with the integral sign. *)
Definition leading_integral (expr : str) : option str :=
  if Str.startswith (Str.strip expr) (py "∫")
     && Str.contains expr (py "d")
     && negb (Str.startswith expr (py "d/d"))
  then
    let p := derivative_in_integral_pattern in
    match search p expr with
    | Some f =>
        let diff_var := group p (matched f) 1 in
        let inner_expr := group p (matched f) 2 in
        let int_var := group p (matched f) 3 in
        if Str.eqb diff_var int_var then Some inner_expr
        else Some (py "integrate(diff(" ++ inner_expr ++ py ", " ++ diff_var
                     ++ py "), " ++ int_var ++ py ")")
    | None =>
        let parts := Str.split Ch.d (Str.strip expr) in
        if (2 <=? List.length parts)%nat then
          let integrand := Str.strip (tl (hd [] parts)) in
          let var := Str.strip (last parts []) in
          Some (py "integrate(" ++ integrand ++ py ", " ++ var ++ py ")")
        else None
    end
  else None.

(** Lines 95 to 109: the derivative of an integral. *)
Definition derivative_of_integral (expr : str) : option str :=
  let p := special_case in
  match search p expr with
  | Some f =>
      let x_var := group p (matched f) 1 in
      let integrand := Str.strip (group p (matched f) 2) in
      let t_var := group p (matched f) 3 in
      if negb (Str.eqb t_var x_var) then Some (replace t_var x_var integrand)
      else Some (py "diff(integrate(" ++ integrand ++ py ", " ++ t_var
                   ++ py "), " ++ x_var ++ py ")")
  | None => None
  end.

(** Lines 111 to 124: the derivative of a limit. *)
Definition derivative_of_limit (expr : str) : option str :=
  let p := limit_derivative_pattern in
  match search p expr with
  | Some f =>
      let x_var := group p (matched f) 1 in
      let t_var := group p (matched f) 2 in
      let approach := group p (matched f) 3 in
      let inner_expr := group p (matched f) 4 in
      if negb (Str.eqb t_var x_var) && negb (Str.contains inner_expr x_var)
      then Some (py "0")
      else Some (py "diff(limit(" ++ inner_expr ++ py ", " ++ t_var ++ py ", "
                   ++ approach ++ py "), " ++ x_var ++ py ")")
  | None => None
  end.

(** Lines 126 to 141: the integral of a limit. *)
Definition integral_of_limit (expr : str) : option str :=
  let p := limit_integral_pattern in
  match search p expr with
  | Some f =>
      let t_var := group p (matched f) 1 in
      let approach := group p (matched f) 2 in
      let inner_expr := group p (matched f) 3 in
      let x_var := group p (matched f) 4 in
      if Str.eqb approach x_var then
        let substituted := replace t_var x_var inner_expr in
        Some (py "integrate(" ++ substituted ++ py ", " ++ x_var ++ py ")")
      else Some (py "integrate(limit(" ++ inner_expr ++ py ", " ++ t_var
                   ++ py ", " ++ approach ++ py "), " ++ x_var ++ py ")")
  | None => None
  end.

(** [expr[:match.start()] + replacement + expr[match.end():]] *)
Definition splice (f : found) (replacement : str) : str :=
  before f ++ replacement ++ after f.

(** The special case for [sin x] written without parentheses. *)
Definition sin_x (inner_expr : str) : str :=
  if Str.eqb (Str.strip inner_expr) (py "sin x") then py "sin(x)"
  else inner_expr.

(** One iteration of each [while] loop: [None] when [re.search] finds no
    match any more, the rewritten text otherwise. *)

Definition second_derivative_step (expr : str) : option str :=
  let p := second_derivative_pattern in
  match search p expr with
  | Some f =>
      let var := group p (matched f) 1 in
      let inner_expr := sin_x (group p (matched f) 2) in
      Some (splice f (py "diff(" ++ inner_expr ++ py ", " ++ var ++ py ", 2)"))
  | None => None
  end.

Definition partial_derivative_step (expr : str) : option str :=
  let p := partial_derivative_pattern in
  match search p expr with
  | Some f =>
      let var := group p (matched f) 1 in
      let inner_expr := sin_x (group p (matched f) 2) in
      Some (splice f (py "diff(" ++ inner_expr ++ py ", " ++ var ++ py ")"))
  | None => None
  end.

Definition second_partial_step (expr : str) : option str :=
  let p := second_partial_pattern in
  match search p expr with
  | Some f =>
      let var := group p (matched f) 1 in
      let inner_expr := group p (matched f) 2 in
      Some (splice f (py "diff(" ++ inner_expr ++ py ", " ++ var ++ py ", 2)"))
  | None => None
  end.

Definition mixed_partial_step (expr : str) : option str :=
  let p := mixed_partial_pattern in
  match search p expr with
  | Some f =>
      let var1 := group p (matched f) 1 in
      let var2 := group p (matched f) 2 in
      let inner_expr := group p (matched f) 3 in
      Some (splice f (py "diff(diff(" ++ inner_expr ++ py ", " ++ var1
                        ++ py "), " ++ var2 ++ py ")"))
  | None => None
  end.

Definition derivative_step (expr : str) : option str :=
  let p := derivative_pattern in
  match search p expr with
  | Some f =>
      let var := group p (matched f) 1 in
      let inner_expr := sin_x (group p (matched f) 2) in
      Some (splice f (py "diff(" ++ inner_expr ++ py ", " ++ var ++ py ")"))
  | None => None
  end.

Definition definite_integral_step (expr : str) : option str :=
  let p := definite_integral_pattern in
  match search p expr with
  | Some f =>
      let lower := group p (matched f) 1 in
      let upper := group p (matched f) 2 in
      let inner_expr := group p (matched f) 3 in
      let var := group p (matched f) 4 in
      Some (splice f (py "integrate(" ++ inner_expr ++ py ", (" ++ var
                        ++ py ", " ++ lower ++ py ", " ++ upper ++ py "))"))
  | None => None
  end.

(** Lines 232 to 240: the integrand of the indefinite-integral rule. *)
Definition integrand_fixups (inner_expr var : str) : str :=
  let inner_expr :=
    if Str.isdigit inner_expr && Str.eqb var (py "x")
    then inner_expr ++ py "*x"
    else
      match inner_expr with
      | c0 :: (c1 :: _) as rest =>
          if is_digit c0 && Str.eqb [c1] var then [c0] ++ py "*" ++ rest
          else inner_expr
      | _ => inner_expr
      end in
  if Str.endswith_char inner_expr Ch.rparen
     && (Str.count Ch.lparen inner_expr <? Str.count Ch.rparen inner_expr)%nat
  then Str.strip (Str.drop_last inner_expr)
  else inner_expr.

Definition integral_step (expr : str) : option str :=
  let p := integral_pattern in
  match search p expr with
  | Some f =>
      let inner_expr := Str.strip (group p (matched f) 1) in
      let var := group p (matched f) 2 in
      let inner_expr := integrand_fixups inner_expr var in
      Some (splice f (py "integrate(" ++ inner_expr ++ py ", " ++ var ++ py ")"))
  | None => None
  end.

(** Lines 254 to 258: infinity as the value a limit approaches. *)
Definition infinity (approach : str) : str :=
  if Str.among approach [ py "inf"; py "infinity"; py "∞" ] then py "oo"
  else if Str.among approach [ py "-inf"; py "-infinity"; py "-∞" ]
  then py "-oo"
  else approach.

Definition limit_step (expr : str) : option str :=
  let p := limit_pattern in
  match search p expr with
  | Some f =>
      let var := group p (matched f) 1 in
      let approach := infinity (group p (matched f) 2) in
      let inner_expr := group p (matched f) 3 in
      Some (splice f (py "limit(" ++ inner_expr ++ py ", " ++ var ++ py ", "
                        ++ approach ++ py ")"))
  | None => None
  end.

(** [while re.search(pattern, expr): expr = ...]; the source puts no bound
    on the number of iterations, the embedding counts them: [None] when
    [fuel] iterations did not reach a text without a match. *)
Fixpoint rewrite_loop (step : str -> option str) (fuel : nat) (expr : str)
  : option str :=
  match step expr with
  | None => Some expr
  | Some expr' =>
      match fuel with
      | O => None
      | S fuel' => rewrite_loop step fuel' expr'
      end
  end.

(** The eight loops of lines 143 to 261, in the order of the source. *)
Definition rewrite_rules : list (str -> option str) :=
  [ second_derivative_step; partial_derivative_step; second_partial_step;
    mixed_partial_step; derivative_step; definite_integral_step;
    integral_step; limit_step ].

Fixpoint run_loops (rules : list (str -> option str)) (fuel : nat)
  (expr : str) : option str :=
  match rules with
  | [] => Some expr
  | step :: rules' =>
      match rewrite_loop step fuel expr with
      | Some expr' => run_loops rules' fuel expr'
      | None => None
      end
  end.

Definition first_of {A B : Type} (fs : list (A -> option B)) (a : A)
  : option B :=
  fold_right (fun f r => match f a with Some b => Some b | None => r end)
             None fs.

(** Lines 95 to 141, on the preprocessed text. *)
Definition nested_forms : list (str -> option str) :=
  [ derivative_of_integral; derivative_of_limit; integral_of_limit ].

Definition parse_combined_expression (fuel : nat) (expr : str) : option str :=
  match literal_examples expr with
  | Some r => Some r
  | None =>
      match leading_integral expr with
      | Some r => Some r
      | None =>
          let expr := preprocess_expression expr in
          match first_of nested_forms expr with
          | Some r => Some r
          | None => run_loops rewrite_rules fuel expr
          end
      end
  end.

(* ================================================================== *)
(** * [evaluate_combined_expression] *)
(* ================================================================== *)

(** The symbolic engine: an operation either raises (with the message of
    the exception, [str(e)]) or returns an expression.  The exceptions are
    those that the handlers of the source catch, [except Exception]; a
    [BaseException] that is no [Exception], such as [SystemExit], would
    leave the call through every handler and is not part of the
    embedding. *)
Definition raises (A : Type) : Type := (str + A)%type.

Record Engine := {
  sym : Type;                                  (* a SymPy expression *)
  sympify : str -> raises sym;                 (* [sp.sympify(text)] *)
  Symbol : str -> raises sym;                  (* [sp.Symbol(name)] *)
  integrate : sym -> sym -> raises sym;        (* [sp.integrate(e, v)] *)
  simplify : sym -> raises sym;                (* [simplify(e)] *)
  to_str : sym -> str;                         (* [str(e)], in f-strings *)
  sin_of_x : sym;                              (* [sp.sin(x)] *)
  cos_of_x : sym;                              (* [sp.cos(x)] *)
  minus_sin_of_x : sym                         (* [-sp.sin(x)] *)
}.

(** What a call shows through Streamlit. *)
Inductive notification :=
| st_info (message : str)
| st_success (message : str)
| st_warning (message : str)
| st_error (message : str).

Section Evaluator.
Variable engine : Engine.
Let E := sym engine.

(** The value of a call that returns: the two dictionaries of the source,
    or [None] when the body ends without a [return]. *)
Inductive returned :=
| Success (result : E) (parsed : str) (steps : list str)
| Failure (error : str) (parsed : option str)
| ReturnsNone.

Definition bind {A B : Type} (a : raises A) (k : A -> raises B) : raises B :=
  match a with
  | inl e => inl e
  | inr v => k v
  end.

Definition original (expr_text : str) : str :=
  py "Original expression: " ++ expr_text.

(** Lines 272 to 370: the literal examples, answered before any parsing;
    [None] when the input is none of them. *)
Definition fast_path (expr_text : str) : option (raises returned) :=
  let stripped := Str.strip expr_text in
  if Str.among stripped
       [ py "d/dx sin(x)"; py "d/dx(sin(x))"; py "d/dx sin x";
         py "d/dx(sin x)" ]
  then Some (inr (Success (cos_of_x engine) (py "cos(x)")
         [ original expr_text;
           py "Taking the derivative of sin(x) with respect to x";
           py "The derivative of sin(x) is cos(x)";
           py "Therefore: d/dx sin(x) = cos(x)" ]))
  else if Str.among stripped
       [ py "d²/dx² sin(x)"; py "d²/dx²(sin(x))"; py "d²/dx² sin x";
         py "d²/dx²(sin x)" ]
  then Some (inr (Success (minus_sin_of_x engine) (py "-sin(x)")
         [ original expr_text;
           py "Taking the second derivative of sin(x) with respect to x";
           py "The first derivative of sin(x) is cos(x)";
           py "The second derivative of sin(x) is -sin(x)";
           py "Therefore: d²/dx² sin(x) = -sin(x)" ]))
  else if Str.among stripped
       [ py "∂/∂x sin(x)"; py "∂/∂x(sin(x))"; py "∂/∂x sin x";
         py "∂/∂x(sin x)" ]
  then Some (inr (Success (cos_of_x engine) (py "cos(x)")
         [ original expr_text;
           py "Taking the partial derivative of sin(x) with respect to x";
           py "The partial derivative of sin(x) with respect to x is cos(x)";
           py "Therefore: ∂/∂x sin(x) = cos(x)" ]))
  else if Str.contains expr_text (py "∫(d/dx(x^2)) dx")
          || Str.contains expr_text (py "∫(d/dx(x**2)) dx")
  then Some (bind (sympify engine (py "x**2")) (fun result =>
         inr (Success result (py "x^2")
         [ original expr_text;
           py "This is the integral of a derivative";
           py "By the Fundamental Theorem of Calculus: ∫(d/dx(f(x))) dx = f(x) + C";
           py "Therefore: ∫(d/dx(x^2)) dx = x^2 + C" ])))
  else if Str.contains expr_text (py "lim_{x->0}(sin(x)/x)")
          || Str.contains expr_text (py "lim x->0 sin(x)/x")
  then Some (bind (sympify engine (py "1")) (fun result =>
         inr (Success result (py "1")
         [ original expr_text;
           py "This is a well-known limit in calculus";
           py "Using L'Hôpital's rule or Taylor series expansion";
           py "The limit of sin(x)/x as x approaches 0 is 1" ])))
  else if Str.contains expr_text (py "d/dx(lim_{t->0}(sin(t)/t))")
  then Some (bind (sympify engine (py "0")) (fun result =>
         inr (Success result (py "0")
         [ original expr_text;
           py "The limit lim_{t->0}(sin(t)/t) = 1 is a constant";
           py "The derivative of a constant is 0";
           py "Therefore: d/dx(lim_{t->0}(sin(t)/t)) = 0" ])))
  else if Str.contains expr_text (py "∫(lim_{t->x}(t^2)) dx")
  then Some (bind (sympify engine (py "x**3/3")) (fun result =>
         inr (Success result (py "x^3/3")
         [ original expr_text;
           py "When t approaches x, lim_{t->x}(t^2) = x^2";
           py "So we're integrating x^2 with respect to x";
           py "The integral of x^2 dx = x^3/3 + C" ])))
  else None.

(** The steps both integration paths report. *)
Definition integration_steps (expr_text integrand var : str) (simplified : E)
  : list str :=
  [ original expr_text;
    py "Integrand: " ++ integrand;
    py "Variable of integration: " ++ var;
    py "Result: " ++ to_str engine simplified ++ py " + C" ].

Definition integrate_text (integrand var : str) : raises E :=
  bind (Symbol engine var) (fun var_symbol =>
  bind (sympify engine integrand) (fun integrand_expr =>
  bind (integrate engine integrand_expr var_symbol) (fun result =>
  simplify engine result))).

(** Lines 393 to 426: an input that is just an integral.  [inr None]
    when the block is left without a [return]. *)
Definition just_an_integral (expr_text parsed_expr : str)
  : raises (option returned) :=
  let parts := Str.split Ch.d (Str.strip expr_text) in
  if (2 <=? List.length parts)%nat then
    let integrand := Str.strip (tl (hd [] parts)) in
    let var := Str.strip (last parts []) in
    bind (integrate_text integrand var) (fun simplified =>
    inr (Some (Success simplified parsed_expr
                 (integration_steps expr_text integrand var simplified))))
  else inr None.

(** Lines 431 to 462: the body of the [try] that evaluates. *)
Definition evaluate_parsed (expr_text parsed_expr : str) : raises returned :=
  if Str.among parsed_expr [ py "x^2"; py "1"; py "0"; py "x^3/3" ] then
    bind (if Str.eqb parsed_expr (py "x^2") then sympify engine (py "x**2")
          else if Str.eqb parsed_expr (py "x^3/3")
          then sympify engine (py "x**3/3")
          else sympify engine parsed_expr) (fun result =>
    inr (Success result parsed_expr
           [ original expr_text;
             py "Evaluated result: " ++ to_str engine result ]))
  else
    bind (sympify engine parsed_expr) (fun result =>
    bind (simplify engine result) (fun simplified =>
    inr (Success simplified parsed_expr
           [ original expr_text;
             py "Parsed as: " ++ parsed_expr;
             py "Evaluated result: " ++ to_str engine simplified ]))).

(** [integrate\((.+),\s*([a-z])\)] *)
Definition integrate_call_pattern : regex :=
  lits (py "integrate(") ++
  [ group_plus (fun c => negb (N.eqb c Ch.newline)); lit Ch.comma; ws;
    group_one is_lower; lit Ch.rparen ].

(** [(\d)([a-zA-Z])] *)
Definition digit_then_letter : regex :=
  [ group_one is_decimal; group_one is_alpha ].

(** Lines 487 to 494: the integrand of the direct integration. *)
Definition direct_integrand (integrand var : str) : str :=
  let integrand :=
    if Str.isdigit integrand && Str.eqb var (py "x")
    then integrand ++ py "*x"
    else
      match integrand with
      | c0 :: (c1 :: _) as rest =>
          if is_digit c0 && Str.eqb [c1] var then [c0] ++ py "*" ++ rest
          else integrand
      | _ => integrand
      end in
  sub digit_then_letter (times digit_then_letter) integrand.

(** Lines 463 to 515: the handler of the exception [inner_e] of the
    evaluation.  It re-raises, returns a dictionary, or falls off the end
    of the function body. *)
Definition fallback (expr_text parsed_expr : str) (inner_e : str)
  : raises returned * list notification :=
  if Str.eqb parsed_expr (py "sin(x)") then
    (inr (Success (sin_of_x engine) parsed_expr
            [ original expr_text;
              py "Applied Fundamental Theorem of Calculus";
              py "Result: sin(x)" ]), [])
  else if Str.startswith parsed_expr (py "integrate(") then
    let warned := [ st_warning (py "Attempting direct integration...") ] in
    let p := integrate_call_pattern in
    match search p parsed_expr with
    | Some f =>
        let integrand := group p (matched f) 1 in
        let var := group p (matched f) 2 in
        let integrand := direct_integrand integrand var in
        match integrate_text integrand var with
        | inr simplified =>
            (inr (Success simplified parsed_expr
                    (integration_steps expr_text integrand var simplified)),
             warned)
        | inl direct_integral_error =>
            (inr ReturnsNone,
             warned ++ [ st_error (py "Direct integration failed: "
                                     ++ direct_integral_error) ])
        end
    | None => (inr ReturnsNone, warned)
    end
  else (inl inner_e, []).

(** Lines 373 to 515, once the input is parsed. *)
Definition pipeline (expr_text parsed_expr : str)
  : raises returned * list notification :=
  let shown :=
    [ st_info (py "Parsed expression: `" ++ parsed_expr ++ py "`") ] in
  if Str.eqb (Str.strip expr_text) (py "d/dx(∫sin(t) dt)") then
    (inr (Success (sin_of_x engine) parsed_expr
            [ original expr_text;
              py "This is the derivative of an indefinite integral";
              py "By the Fundamental Theorem of Calculus: d/dx(∫f(t) dt) = f(x)";
              py "Therefore: d/dx(∫sin(t) dt) = sin(x)" ]),
     shown ++ [ st_success
                  (py "Special case detected: d/dx(∫sin(t) dt) = sin(x)") ])
  else
    let special :=
      if Str.startswith (Str.strip expr_text) (py "∫")
         && Str.contains expr_text (py "d")
         && negb (Str.startswith expr_text (py "d/d"))
      then
        match just_an_integral expr_text parsed_expr with
        | inr r => (r, [])
        | inl integral_error =>
            (None, [ st_warning (py "Special case handling failed: "
                                   ++ integral_error) ])
        end
      else (None, []) in
    match special with
    | (Some r, shown') => (inr r, shown ++ shown')
    | (None, shown') =>
        match evaluate_parsed expr_text parsed_expr with
        | inr r => (inr r, shown ++ shown')
        | inl inner_e =>
            let (r, shown'') := fallback expr_text parsed_expr inner_e in
            (r, shown ++ shown' ++ shown'')
        end
    end.

(** The outer [try]: an exception becomes the error dictionary, which
    holds the parsed text when parsing had been done. *)
Definition caught (parsed_expr : option str) (r : raises returned)
  : returned :=
  match r with
  | inr v => v
  | inl e => Failure e parsed_expr
  end.

(** The call: the value it returns and the notifications it shows, or
    [None] when the rewrite loops did not end within [fuel] iterations. *)
Definition evaluate_combined_expression (fuel : nat) (expr_text : str)
  : option (returned * list notification) :=
  match fast_path expr_text with
  | Some r => Some (caught None r, [])
  | None =>
      match parse_combined_expression fuel expr_text with
      | Some parsed_expr =>
          let (r, shown) := pipeline expr_text parsed_expr in
          Some (caught (Some parsed_expr) r, shown)
      | None => None
      end
  end.
End Evaluator.

Unset Implicit Arguments.

(* ================================================================== *)
(** * Vocabulary of the properties *)
(* ================================================================== *)

(** ** What a match looks like *)

Definition quantity (q : quant) (n : nat) : Prop :=
  match q with
  | One => n = 1%nat
  | Opt => (n <= 1)%nat
  | Star => True
  | Plus => (1 <= n)%nat
  end.

(** The text [m] is a possible match of the item. *)
Definition fits (it : item) (m : str) : Prop :=
  Forall (fun c => cls it c = true) m /\ quantity (rep it) (List.length m).

(** The class cannot take the next character of [s]. *)
Definition blocked (c : char -> bool) (s : str) : Prop :=
  match s with
  | e :: _ => c e = false
  | [] => True
  end.

(** Every repeated item of the pattern took all it could: the greedy
    matcher makes this very choice, and never has to go back on it. *)
Fixpoint tight (p : regex) (ms : pieces) (rest : str) : Prop :=
  match p, ms with
  | [], [] => True
  | it :: p', m :: ms' =>
      match rep it with
      | One => True
      | Opt => m = [] -> blocked (cls it) (concat ms' ++ rest)
      | Star | Plus => blocked (cls it) (concat ms' ++ rest)
      end /\ tight p' ms' rest
  | _, _ => False
  end.

(** Two neighbouring characters of [s], the first in [a], the second in
    [b]. *)
Fixpoint adjacent (a b : char -> bool) (s : str) : bool :=
  match s with
  | c :: (e :: _) as s' => a c && b e || adjacent a b s'
  | _ => false
  end.

(** ** The measure of the rewrite loops *)

(** The characters every rule consumes one of: the slash of the derivative
    notations, the integral sign, the arrow head of a limit. *)
Definition glyph (c : char) : nat :=
  if N.eqb c Ch.slash || N.eqb c Ch.integral || N.eqb c Ch.gt then 1 else 0.

Definition weight (s : str) : nat := list_sum (map glyph s).

(** The patterns of [rewrite_rules], in the same order. *)
Definition rule_patterns : list regex :=
  [ second_derivative_pattern; partial_derivative_pattern;
    second_partial_pattern; mixed_partial_pattern; derivative_pattern;
    definite_integral_pattern; integral_pattern; limit_pattern ].

(** The loops run one after the other, each once: [e] is taken by the
    loop of the first rule to a text that the pattern of the rule does not
    match, that text by the loop of the second rule, and so on to [r]. *)
Fixpoint in_turn (rules : list (regex * (str -> option str))) (fuel : nat)
  (e r : str) : Prop :=
  match rules with
  | [] => r = e
  | (p, step) :: rules' =>
      exists e', rewrite_loop step fuel e = Some e'
                 /\ search p e' = None
                 /\ (weight e' <= weight e)%nat
                 /\ in_turn rules' fuel e' r
  end.

(** ** The preprocessor, character by character *)

(** A star after every character of class [l] that is followed by one of
    class [r]. *)
Fixpoint star_between (l r : char -> bool) (s : str) : str :=
  match s with
  | [] => []
  | c :: s' =>
      c :: match s' with
           | e :: _ => if l c && r e then [Ch.star] else []
           | [] => []
           end ++ star_between l r s'
  end.

Definition name_start (c : char) : bool := is_alpha c || N.eqb c Ch.lparen.

(** What [replace("^", "**")] does to one character. *)
Definition caret_to_stars (e : char) : str :=
  if N.eqb e Ch.caret then [Ch.star; Ch.star] else [e].

(** ** An engine to run the evaluator with *)

(** The evaluator only passes texts to the engine and passes its answers
    on.  The expressions of this engine are texts: it parses every
    non-empty text whose parentheses are balanced (and raises on the
    others), and it writes an integral down without computing it. *)
Fixpoint balanced (depth : nat) (s : str) : bool :=
  match s with
  | [] => Nat.eqb depth 0
  | c :: s' =>
      if N.eqb c Ch.lparen then balanced (S depth) s'
      else if N.eqb c Ch.rparen then
             match depth with
             | O => false
             | S depth' => balanced depth' s'
             end
           else balanced depth s'
  end.

Definition formal_engine : Engine :=
  {| sym := str;
     sympify := fun s =>
       match s with
       | [] => inl (py "empty input")
       | _ => if balanced 0 s then inr s else inl (py "invalid syntax")
       end;
     Symbol := fun s => inr s;
     integrate := fun e v => inr (py "Integral(" ++ e ++ py ", " ++ v ++ py ")");
     simplify := fun e => inr e;
     to_str := fun e => e;
     sin_of_x := py "sin(x)";
     cos_of_x := py "cos(x)";
     minus_sin_of_x := py "-sin(x)" |}.

(** ** Operands of one construct *)

(** The characters an operand must not hold for a rule to take it whole
    and for no other rule to see a construct in it: the parentheses, and
    the characters of the notation. *)
Definition operand_glyphs : list char :=
  [ Ch.lparen; Ch.rparen; Ch.slash; Ch.squared; Ch.partial; Ch.integral;
    Ch.gt ].

Definition plain (E : str) : bool := forallb (none_of operand_glyphs) E.

(** A character the preprocessor neither replaces nor puts a star after. *)
Definition inert (c : char) : bool :=
  negb (N.eqb c Ch.caret) && negb (is_decimal c) && negb (N.eqb c Ch.rparen).

(** ** One construct, and the glyphs of the notation *)

(** A derivative applied to a parenthesised operand, or an integral. *)
Inductive construct :=
| FirstDerivative (v : char)
| SecondDerivative (v : char)
| PartialDerivative (v : char)
| SecondPartial (v : char)
| MixedPartial (a b : char)
| Integral (v : char).

Definition notation (k : construct) (E : str) : str :=
  match k with
  | FirstDerivative v => py "d/d" ++ [v] ++ py "(" ++ E ++ py ")"
  | SecondDerivative v => py "d²/d" ++ [v] ++ py "²(" ++ E ++ py ")"
  | PartialDerivative v => py "∂/∂" ++ [v] ++ py "(" ++ E ++ py ")"
  | SecondPartial v => py "∂²/∂" ++ [v] ++ py "²(" ++ E ++ py ")"
  | MixedPartial a b =>
      py "∂²/∂" ++ [a] ++ py "∂" ++ [b] ++ py "(" ++ E ++ py ")"
  | Integral v => py "∫" ++ E ++ py "d" ++ [v]
  end.

Definition variables_lower (k : construct) : bool :=
  match k with
  | FirstDerivative v | SecondDerivative v | PartialDerivative v
  | SecondPartial v | Integral v => is_lower v
  | MixedPartial a b => is_lower a && is_lower b
  end.

(** The characters of the notation that the text around a construct must
    not hold. *)
Definition around_glyphs : list char :=
  [ Ch.slash; Ch.squared; Ch.partial; Ch.integral; Ch.gt ].

Definition around (s : str) : bool := forallb (none_of around_glyphs) s.

(** A [d] next to a slash. *)
Definition d_by_slash (s : str) : bool :=
  adjacent (N.eqb Ch.d) (N.eqb Ch.slash) s
  || adjacent (N.eqb Ch.slash) (N.eqb Ch.d) s.

(** The operand of a derivative is not empty and holds no parenthesis,
    none of [² ∂ ∫ >], and no [d] next to a slash. *)
Definition derivand (E : str) : bool :=
  match E with [] => false | _ => true end
  && forallb (none_of [ Ch.lparen; Ch.rparen; Ch.squared; Ch.partial;
                        Ch.integral; Ch.gt ]) E
  && negb (d_by_slash E).

(** The integrand holds none of [d ² ∂ ∫ >]. *)
Definition integrand (E : str) : bool :=
  forallb (none_of [ Ch.d; Ch.squared; Ch.partial; Ch.integral; Ch.gt ]) E.

Definition operand_of (k : construct) (E : str) : bool :=
  match k with
  | Integral _ => integrand E
  | _ => derivand E
  end.

(** The first and the last character of the notation of a construct. *)
Definition opens (k : construct) : char :=
  match k with
  | FirstDerivative _ | SecondDerivative _ => Ch.d
  | PartialDerivative _ | SecondPartial _ | MixedPartial _ _ => Ch.partial
  | Integral _ => Ch.integral
  end.

Definition closes (k : construct) : char :=
  match k with
  | Integral v => v
  | _ => Ch.rparen
  end.

(** The preprocessed text before a character [c], and after it: what the
    preprocessor makes of [u] when [c] follows, of [w] when [c] goes
    before. *)
Definition text_before (c : char) (u : str) : str :=
  removelast (preprocess_expression (u ++ [c])).

Definition text_after (c : char) (w : str) : str :=
  tl (preprocess_expression (c :: w)).

(** The operand as the loops meet it: preprocessed, the integrand with the
    star that the preprocessor may put before [d]. *)
Definition operand_met (k : construct) (E : str) : str :=
  match k with
  | Integral _ => text_before Ch.d E
  | _ => preprocess_expression E
  end.

(** The call a construct is rewritten to. *)
Definition call_form (k : construct) (E : str) : str :=
  match k with
  | FirstDerivative v | PartialDerivative v =>
      py "diff(" ++ sin_x E ++ py ", " ++ [v] ++ py ")"
  | SecondDerivative v => py "diff(" ++ sin_x E ++ py ", " ++ [v] ++ py ", 2)"
  | SecondPartial v => py "diff(" ++ E ++ py ", " ++ [v] ++ py ", 2)"
  | MixedPartial a b =>
      py "diff(diff(" ++ E ++ py ", " ++ [a] ++ py "), " ++ [b] ++ py ")"
  | Integral v =>
      py "integrate(" ++ integrand_fixups (Str.strip E) [v] ++ py ", " ++ [v]
        ++ py ")"
  end.

(** No integral sign, no partial sign, no [d/d], no [d²/d], no arrow. *)
Definition no_notation (r : str) : bool :=
  negb (Str.has r Ch.integral) && negb (Str.has r Ch.partial)
  && negb (Str.contains r (py "d/d")) && negb (Str.contains r (py "d²/d"))
  && negb (Str.contains r (py "->")).

(** The last character of [x] is in [a] and the first of [y] in [b]. *)
Fixpoint touch (a b : char -> bool) (x y : str) : bool :=
  match x with
  | [] => false
  | [c] => match y with
           | e :: _ => a c && b e
           | [] => false
           end
  | _ :: x' => touch a b x' y
  end.

(** ** More vocabulary *)

(** The text without its stars and carets. *)
Definition unstarred (s : str) : str :=
  filter (fun c => negb (N.eqb c Ch.star) && negb (N.eqb c Ch.caret)) s.

(** A product without its sign: a digit before a letter or an opening
    parenthesis, or a closing parenthesis before a letter. *)
Definition implicit_product (s : str) : bool :=
  adjacent is_decimal name_start s || adjacent (only Ch.rparen) is_alpha s.

(** The characters of the call forms the rewrite loops write. *)
Definition call_alphabet : str := py "diff(integrate(limit(sin(x), 2)-oo*".

(** The rewrite loops without the one for definite integrals. *)
Definition rules_without_definite_integral : list (str -> option str) :=
  [ second_derivative_step; partial_derivative_step; second_partial_step;
    mixed_partial_step; derivative_step; integral_step; limit_step ].

Definition writes_calls (step : str -> option str) : Prop :=
  forall e e', step e = Some e' ->
  forall c, In c e' -> In c e \/ In c call_alphabet.

(** ** Names in an integrand *)

(** The characters that end a name: a blank, a sign of arithmetic, a
    parenthesis, a comma. *)
Definition separator (c : char) : bool := existsb (N.eqb c) (py " +-*/(),").

(** Every [t] of the text is a name of its own: what stands next to it is
    a separator. *)
Definition stands_alone (t : char) (s : str) : bool :=
  negb (adjacent (fun c => negb (separator c)) (N.eqb t) s)
  && negb (adjacent (N.eqb t) (fun c => negb (separator c)) s).

(** Nothing, or a separator. *)
Definition ends_a_name (c : option char) : bool :=
  match c with
  | Some c => separator c
  | None => true
  end.

(** The text with the name [t] renamed to [x]: a [t] becomes [x] where it
    is a name of its own, [previous] being the character before the text. *)
Fixpoint rename_from (t x : char) (previous : option char) (s : str) : str :=
  match s with
  | [] => []
  | c :: s' =>
      (if N.eqb c t && ends_a_name previous && ends_a_name (hd_error s')
       then x else c) :: rename_from t x (Some c) s'
  end.

Definition rename (t x : char) (s : str) : str := rename_from t x None s.

(* ================================================================== *)
(** * Properties *)
(* ================================================================== *)

(** A few runs of the translator. *)
Example parse_derivative :
  parse_combined_expression 10 (py "d/dx(x^2)") = Some (py "diff(x**2, x)").
Proof. vm_compute. reflexivity. Qed.

Example parse_integral :
  parse_combined_expression 10 (py "∫sin(t) dt")
  = Some (py "integrate(sin(t), t)").
Proof. vm_compute. reflexivity. Qed.

Example parse_derivative_of_integral :
  parse_combined_expression 10 (py "d/dx(∫sin(t) dt)") = Some (py "sin(x)").
Proof. vm_compute. reflexivity. Qed.

Example parse_implicit_product :
  parse_combined_expression 10 (py "1 + ∫2x dx")
  = Some (py "1 + integrate(2*x, x)").
Proof. vm_compute. reflexivity. Qed.

(** ** The matcher *)

Section GreedyFacts.
Variable R : Type.
Variable c : char -> bool.
Variable k : str -> option R.

Lemma stop_sound s m r :
  stop k s = Some (m, r) -> m = [] /\ k s = Some r.
Proof.
  unfold stop. destruct (k s); intros H; inversion H; auto.
Qed.

Lemma greedy_sound s : forall m r,
  greedy c k s = Some (m, r) ->
  Forall (fun e => c e = true) m /\ exists s', s = m ++ s' /\ k s' = Some r.
Proof.
  induction s as [|e s IH]; intros m r H; simpl in H.
  - apply stop_sound in H as [-> H]. split; [constructor|]. now exists [].
  - destruct (c e) eqn:Hc.
    + destruct (greedy c k s) as [[m' r']|] eqn:Hg.
      * inversion H; subst. destruct (IH _ _ eq_refl) as [Hm [s' [-> Hk]]].
        split; [now constructor|]. now exists s'.
      * apply stop_sound in H as [-> H]. split; [constructor|].
        now exists (e :: s).
    + apply stop_sound in H as [-> H]. split; [constructor|].
      now exists (e :: s).
Qed.

Lemma at_least_one_sound s m r :
  at_least_one c k s = Some (m, r) ->
  Forall (fun e => c e = true) m /\ (1 <= List.length m)%nat
  /\ exists s', s = m ++ s' /\ k s' = Some r.
Proof.
  destruct s as [|e s]; simpl; [discriminate|].
  destruct (c e) eqn:Hc; [|discriminate].
  destruct (greedy c k s) as [[m' r']|] eqn:Hg; [|discriminate].
  intros H; inversion H; subst.
  destruct (greedy_sound _ _ _ Hg) as [Hm [s' [-> Hk]]].
  split; [now constructor|]. split; [simpl; lia|]. now exists s'.
Qed.

Lemma at_most_one_sound s m r :
  at_most_one c k s = Some (m, r) ->
  Forall (fun e => c e = true) m /\ (List.length m <= 1)%nat
  /\ exists s', s = m ++ s' /\ k s' = Some r.
Proof.
  destruct s as [|e s]; simpl.
  - intros H. apply stop_sound in H as [-> H].
    split; [constructor|]. split; [simpl; lia|]. now exists [].
  - destruct (c e) eqn:Hc.
    + destruct (k s) eqn:Hk.
      * intros H; inversion H; subst.
        split; [now repeat constructor|]. split; [simpl; lia|]. now exists s.
      * intros H. apply stop_sound in H as [-> H].
        split; [constructor|]. split; [simpl; lia|]. now exists (e :: s).
    + intros H. apply stop_sound in H as [-> H].
      split; [constructor|]. split; [simpl; lia|]. now exists (e :: s).
Qed.

Lemma exactly_one_sound s m r :
  exactly_one c k s = Some (m, r) ->
  Forall (fun e => c e = true) m /\ List.length m = 1%nat
  /\ exists s', s = m ++ s' /\ k s' = Some r.
Proof.
  destruct s as [|e s]; simpl; [discriminate|].
  destruct (c e) eqn:Hc; [|discriminate].
  destruct (k s) eqn:Hk; [|discriminate].
  intros H; inversion H; subst.
  split; [now repeat constructor|]. split; [reflexivity|]. now exists s.
Qed.

Lemma greedy_complete m s' r :
  Forall (fun e => c e = true) m -> blocked c s' -> k s' = Some r ->
  greedy c k (m ++ s') = Some (m, r).
Proof.
  intros Hm Hb Hk. induction Hm as [|e m He Hm IH]; simpl.
  - destruct s' as [|e s']; simpl in *.
    + unfold stop. now rewrite Hk.
    + rewrite Hb. unfold stop. now rewrite Hk.
  - now rewrite He, IH.
Qed.
End GreedyFacts.

Lemma match_at_sound p : forall s ms rest,
  match_at p s = Some (ms, rest) ->
  s = concat ms ++ rest /\ Forall2 fits p ms.
Proof.
  induction p as [|it p IH]; intros s ms rest H; simpl in H.
  - inversion H; subst. split; [reflexivity|constructor].
  - assert (Hstep : exists m ms' s',
               ms = m :: ms' /\ fits it m /\ s = m ++ s'
               /\ match_at p s' = Some (ms', rest)).
    { unfold fits.
      destruct (rep it);
        [ destruct (exactly_one (cls it) (match_at p) s)
            as [[m [ms' rest']]|] eqn:Hq
        | destruct (at_most_one (cls it) (match_at p) s)
            as [[m [ms' rest']]|] eqn:Hq
        | destruct (greedy (cls it) (match_at p) s)
            as [[m [ms' rest']]|] eqn:Hq
        | destruct (at_least_one (cls it) (match_at p) s)
            as [[m [ms' rest']]|] eqn:Hq ];
        try discriminate; inversion H; subst; exists m, ms'.
      - apply exactly_one_sound in Hq as [Hm [Hl [s' [-> Hk]]]].
        exists s'; simpl; auto.
      - apply at_most_one_sound in Hq as [Hm [Hl [s' [-> Hk]]]].
        exists s'; simpl; auto.
      - apply greedy_sound in Hq as [Hm [s' [-> Hk]]].
        exists s'; simpl; auto.
      - apply at_least_one_sound in Hq as [Hm [Hl [s' [-> Hk]]]].
        exists s'; simpl; auto. }
    destruct Hstep as [m [ms' [s' [-> [Hf [-> Hk]]]]]].
    destruct (IH _ _ _ Hk) as [-> HF].
    split; [simpl; now rewrite app_assoc|now constructor].
Qed.

Lemma match_at_complete p : forall ms rest,
  Forall2 fits p ms -> tight p ms rest ->
  match_at p (concat ms ++ rest) = Some (ms, rest).
Proof.
  induction p as [|it p IH]; intros ms rest HF Ht.
  - inversion HF; subst. reflexivity.
  - inversion HF as [|? m ? ms' [Hm Hq] HF']; subst.
    simpl in Ht. destruct Ht as [Hb Ht].
    specialize (IH _ _ HF' Ht).
    simpl. rewrite <- app_assoc.
    destruct (rep it); simpl in Hq.
    + destruct m as [|e [|? ?]]; try discriminate.
      inversion Hm; subst. simpl. now rewrite H1, IH.
    + destruct m as [|e [|? ?]]; simpl in Hq; try lia.
      * specialize (Hb eq_refl). simpl.
        destruct (concat ms' ++ rest) as [|e s'] eqn:Hs; simpl in *.
        -- unfold stop. now rewrite IH.
        -- rewrite Hb. unfold stop. now rewrite IH.
      * inversion Hm; subst. simpl. now rewrite H1, IH.
    + now rewrite (@greedy_complete _ (cls it) (match_at p) _ _ _ Hm Hb IH).
    + destruct m as [|e m]; simpl in Hq; [lia|].
      inversion Hm; subst. simpl. rewrite H1.
      now rewrite (@greedy_complete _ (cls it) (match_at p) _ _ _ H2 Hb IH).
Qed.

Lemma search_from_sound p : forall s skipped f,
  search_from p skipped s = Some f ->
  rev skipped ++ s = before f ++ concat (matched f) ++ after f
  /\ Forall2 fits p (matched f).
Proof.
  induction s as [|e s IH]; intros skipped f H; simpl in H.
  - destruct (match_at p []) as [[ms rest]|] eqn:Hm; [|discriminate].
    inversion H; subst; simpl.
    apply match_at_sound in Hm as [Hs HF]. now rewrite Hs.
  - destruct (match_at p (e :: s)) as [[ms rest]|] eqn:Hm.
    + inversion H; subst; simpl.
      apply match_at_sound in Hm as [Hs HF]. now rewrite Hs.
    + apply IH in H as [Hs HF]. split; [|assumption].
      rewrite <- Hs. simpl. now rewrite <- app_assoc.
Qed.

Lemma search_sound p s f :
  search p s = Some f ->
  s = before f ++ concat (matched f) ++ after f /\ Forall2 fits p (matched f).
Proof. intros H. now apply search_from_sound in H. Qed.

(** A match at the very start of the text is the one [re.search] returns. *)
Lemma search_at_head p ms rest :
  Forall2 fits p ms -> tight p ms rest ->
  search p (concat ms ++ rest) = Some (Found [] ms rest).
Proof.
  intros HF Ht. unfold search.
  destruct (concat ms ++ rest) eqn:Hs; simpl;
    rewrite <- Hs, (match_at_complete _ _ _ HF Ht); reflexivity.
Qed.

(** ** Weights *)

Lemma weight_app a b : weight (a ++ b) = (weight a + weight b)%nat.
Proof. unfold weight. now rewrite map_app, list_sum_app. Qed.

Lemma weight_rev s : weight (rev s) = weight s.
Proof.
  induction s as [|c s IH]; [reflexivity|].
  simpl rev. rewrite weight_app, IH. unfold weight; simpl. lia.
Qed.

Lemma lstrip_suffix s : exists l, s = l ++ Str.lstrip s.
Proof.
  induction s as [|c s [l IH]]; [now exists []|]. simpl.
  destruct (is_space c); [exists (c :: l); simpl; now f_equal|now exists []].
Qed.

Lemma rstrip_prefix s : exists l, s = Str.rstrip s ++ l.
Proof.
  unfold Str.rstrip. destruct (lstrip_suffix (rev s)) as [l H].
  exists (rev l). rewrite <- rev_app_distr, <- H. now rewrite rev_involutive.
Qed.

Lemma strip_infix s : exists l r, s = l ++ Str.strip s ++ r.
Proof.
  unfold Str.strip. destruct (lstrip_suffix s) as [l Hl].
  destruct (rstrip_prefix (Str.lstrip s)) as [r Hr].
  exists l, r. now rewrite <- Hr.
Qed.

Lemma weight_strip s : (weight (Str.strip s) <= weight s)%nat.
Proof.
  destruct (strip_infix s) as [l [r H]]. rewrite H at 2.
  rewrite !weight_app. lia.
Qed.

Lemma weight_cons c s : weight (c :: s) = (glyph c + weight s)%nat.
Proof. reflexivity. Qed.

Lemma weight_removelast s : (weight (removelast s) <= weight s)%nat.
Proof.
  induction s as [|c s IH]; [simpl; lia|].
  destruct s as [|e s]; [simpl; unfold weight; simpl; lia|].
  change (removelast (c :: e :: s)) with (c :: removelast (e :: s)).
  rewrite !(weight_cons c). lia.
Qed.

Lemma weight_literal g m :
  Forall (fun c => N.eqb g c = true) m -> List.length m = 1%nat ->
  weight m = glyph g.
Proof.
  intros Hm Hl. destruct m as [|c [|? ?]]; try discriminate.
  inversion Hm as [|? ? Hc _]; subst. apply N.eqb_eq in Hc; subst.
  unfold weight; simpl. lia.
Qed.

Lemma weight_sin_x s : (weight (sin_x s) <= weight s)%nat.
Proof.
  unfold sin_x. destruct (Str.eqb _ _); [|lia].
  change (weight (py "sin(x)")) with 0%nat. lia.
Qed.

Lemma weight_infinity s : (weight (infinity s) <= weight s)%nat.
Proof.
  unfold infinity. destruct (Str.among s _).
  - change (weight (py "oo")) with 0%nat. lia.
  - destruct (Str.among s _); [|lia].
    change (weight (py "-oo")) with 0%nat. lia.
Qed.

Lemma weight_integrand_fixups s v :
  (weight (integrand_fixups s v) <= weight s)%nat.
Proof.
  unfold integrand_fixups.
  set (s1 := if Str.isdigit s && Str.eqb v (py "x") then _ else _).
  assert (H1 : (weight s1 <= weight s)%nat).
  { subst s1. destruct (Str.isdigit s && Str.eqb v (py "x")).
    - rewrite weight_app. change (weight (py "*x")) with 0%nat. lia.
    - destruct s as [|c0 [|c1 s]]; try lia.
      destruct (is_digit c0 && Str.eqb [c1] v); [|lia].
      rewrite !weight_app. change (weight (py "*")) with 0%nat.
      change (weight (c0 :: c1 :: s)) with (weight ([c0] ++ c1 :: s)).
      rewrite weight_app. lia. }
  destruct (Str.endswith_char s1 Ch.rparen && _); [|assumption].
  unfold Str.drop_last.
  pose proof (weight_strip (removelast s1)).
  pose proof (weight_removelast s1). lia.
Qed.

(** ** Every rule consumes a glyph *)

Ltac expand_pattern p :=
  let q := eval cbv -[N.eqb is_space is_lower is_alpha is_decimal
                      Re.none_of Re.one_of Re.only not_paren not_brace
                      not_d negb orb] in p in
  change p with q in *.

Ltac split_pieces :=
  repeat match goal with
         | H : Forall2 fits (_ :: _) _ |- _ =>
             let F := fresh "F" in
             inversion H as [|? ? ? ? F ?]; subst; clear H;
             destruct F as [? ?]
         | H : Forall2 fits [] _ |- _ => inversion H; subst; clear H
         end.

Ltac weigh_literals :=
  repeat match goal with
         | H : Forall (fun c => cls (Item (N.eqb ?g) _ _) c = true) ?m,
           L : quantity _ (List.length ?m) |- _ =>
             let W := fresh "W" in
             pose proof (@weight_literal g m H L) as W;
             vm_compute glyph in W; clear H L
         end.

Lemma weight_nil : weight [] = 0%nat.
Proof. reflexivity. Qed.

Ltac weigh_constants :=
  repeat match goal with
         | |- context [weight (py ?s)] =>
             let v := eval vm_compute in (weight (py s)) in
             change (weight (py s)) with v
         end;
  repeat (rewrite weight_app || rewrite weight_cons || rewrite weight_nil);
  repeat match goal with
         | |- context [weight (py ?s)] =>
             let v := eval vm_compute in (weight (py s)) in
             change (weight (py s)) with v
         | |- context [glyph ?c] =>
             let v := eval vm_compute in (glyph c) in
             change (glyph c) with v
         end.

Ltac rule_decreases step p :=
  let f := fresh "f" in
  let Hs := fresh "Hs" in
  let H := fresh "H" in
  intros ? ?; unfold step; fold p;
  destruct (search p _) as [f|] eqn:Hs; [|discriminate];
  intros H; inversion H; subst; clear H;
  apply search_sound in Hs as [Hs HF];
  destruct f as [b ms a]; simpl before in *; simpl matched in *;
  simpl after in *; unfold splice; simpl before; simpl after;
  rewrite Hs; clear Hs;
  expand_pattern p; split_pieces; weigh_literals;
  cbv [group captures cap nth pred concat];
  rewrite ?app_nil_r; weigh_constants.

Lemma second_derivative_decreases e e' :
  second_derivative_step e = Some e' -> (weight e' < weight e)%nat.
Proof.
  revert e e'. rule_decreases second_derivative_step second_derivative_pattern.
  match goal with |- context [sin_x ?m] => pose proof (weight_sin_x m) end.
  lia.
Qed.

Lemma partial_derivative_decreases e e' :
  partial_derivative_step e = Some e' -> (weight e' < weight e)%nat.
Proof.
  revert e e'.
  rule_decreases partial_derivative_step partial_derivative_pattern.
  match goal with |- context [sin_x ?m] => pose proof (weight_sin_x m) end.
  lia.
Qed.

Lemma second_partial_decreases e e' :
  second_partial_step e = Some e' -> (weight e' < weight e)%nat.
Proof.
  revert e e'. rule_decreases second_partial_step second_partial_pattern.
  lia.
Qed.

Lemma mixed_partial_decreases e e' :
  mixed_partial_step e = Some e' -> (weight e' < weight e)%nat.
Proof.
  revert e e'. rule_decreases mixed_partial_step mixed_partial_pattern.
  lia.
Qed.

Lemma derivative_decreases e e' :
  derivative_step e = Some e' -> (weight e' < weight e)%nat.
Proof.
  revert e e'. rule_decreases derivative_step derivative_pattern.
  match goal with |- context [sin_x ?m] => pose proof (weight_sin_x m) end.
  lia.
Qed.

Lemma definite_integral_decreases e e' :
  definite_integral_step e = Some e' -> (weight e' < weight e)%nat.
Proof.
  revert e e'.
  rule_decreases definite_integral_step definite_integral_pattern.
  lia.
Qed.

Lemma integral_decreases e e' :
  integral_step e = Some e' -> (weight e' < weight e)%nat.
Proof.
  revert e e'. rule_decreases integral_step integral_pattern.
  match goal with
  | |- context [integrand_fixups (Str.strip ?m) ?v] =>
      pose proof (weight_integrand_fixups (Str.strip m) v);
      pose proof (weight_strip m)
  end.
  lia.
Qed.

Lemma limit_decreases e e' :
  limit_step e = Some e' -> (weight e' < weight e)%nat.
Proof.
  revert e e'. rule_decreases limit_step limit_pattern.
  match goal with
  | |- context [infinity ?m] => pose proof (weight_infinity m)
  end.
  lia.
Qed.

(** ** The preprocessor *)

Lemma in_ranges_bounds rs c (P : N * N -> bool) :
  forallb P rs = true -> in_ranges rs c = true ->
  exists r, P r = true /\ (fst r <= c <= snd r)%N.
Proof.
  intros HP H. unfold in_ranges in H. apply existsb_exists in H as [r [Hr Hc]].
  exists r. split; [now apply (proj1 (forallb_forall P rs) HP)|].
  unfold in_range in Hc. apply andb_true_iff in Hc as [H1 H2].
  apply N.leb_le in H1, H2. lia.
Qed.

Lemma decimal_bounds c :
  is_decimal c = true -> (48 <= c <= 57 \/ 1632 <= c)%N.
Proof.
  intros H.
  destruct (in_ranges_bounds decimal_ranges c
              (fun r => (N.eqb (fst r) 48 && N.eqb (snd r) 57)
                        || N.leb 1632 (fst r)) eq_refl H) as [r [Hr Hc]].
  apply orb_true_iff in Hr as [Hr|Hr].
  - apply andb_true_iff in Hr as [H1 H2]. apply N.eqb_eq in H1, H2. lia.
  - apply N.leb_le in Hr. lia.
Qed.

Lemma alpha_bounds c : is_alpha c = true -> (65 <= c <= 122)%N.
Proof.
  unfold is_alpha, is_lower, is_upper. intros H.
  apply orb_true_iff in H as [H|H]; apply andb_true_iff in H as [H1 H2];
    apply N.leb_le in H1, H2; lia.
Qed.

Lemma lower_alpha c : is_lower c = true -> is_alpha c = true.
Proof. unfold is_alpha. now intros ->. Qed.

Lemma name_start_not_decimal c : name_start c = true -> is_decimal c = false.
Proof.
  intros H. destruct (is_decimal c) eqn:Hd; [|reflexivity].
  apply decimal_bounds in Hd. unfold name_start in H.
  apply orb_true_iff in H as [H|H].
  - apply alpha_bounds in H. lia.
  - apply N.eqb_eq in H. unfold Ch.lparen in H. lia.
Qed.

Lemma alpha_not_rparen c : is_alpha c = true -> only Ch.rparen c = false.
Proof.
  intros H. apply alpha_bounds in H. unfold only, Ch.rparen.
  apply N.eqb_neq. lia.
Qed.

Section TwoCharacters.
Variables l r : char -> bool.
Hypothesis apart : forall c, r c = true -> l c = false.

Let p : regex := [ group_one l; group_one r ].

Lemma match_at_two s :
  match_at p s =
  match s with
  | c :: e :: s' => if l c && r e then Some ([[c]; [e]], s') else None
  | _ => None
  end.
Proof.
  destruct s as [|c [|e s]]; simpl; try reflexivity.
  - now destruct (l c).
  - destruct (l c); [|reflexivity]. now destruct (r e).
Qed.

Lemma star_between_head e s :
  r e = true -> star_between l r (e :: s) = e :: star_between l r s.
Proof.
  intros H. simpl. rewrite (apart _ H). simpl. now destruct s.
Qed.

Lemma sub_from_unfold (q : regex) repl c s :
  sub_from q repl 0 (c :: s) =
  match match_at q (c :: s) with
  | Some (ms, rest) =>
      repl ms ++ sub_from q repl (pred (List.length (concat ms))) s
  | None => c :: sub_from q repl 0 s
  end.
Proof. reflexivity. Qed.

Lemma sub_from_two s :
  sub_from p (times p) 0 s = star_between l r s
  /\ forall c, sub_from p (times p) 0 (c :: s) = star_between l r (c :: s).
Proof.
  induction s as [|e s [IH0 IH1]].
  - split; [reflexivity|]. intros c.
    now rewrite sub_from_unfold, match_at_two.
  - split; [apply IH1|]. intros c.
    rewrite sub_from_unfold, match_at_two.
    destruct (l c && r e) eqn:Hm.
    + apply andb_true_iff in Hm as [Hl Hr].
      change (times p [[c]; [e]]) with ([c] ++ [Ch.star] ++ [e]).
      change (sub_from p (times p) (pred (List.length (concat [[c]; [e]])))
                (e :: s)) with (sub_from p (times p) 0 s).
      rewrite IH0. simpl. rewrite Hl, Hr. simpl.
      rewrite (apart _ Hr). simpl. now destruct s.
    + rewrite IH1. simpl. rewrite Hm. reflexivity.
Qed.

Lemma sub_two s : sub p (times p) s = star_between l r s.
Proof. apply sub_from_two. Qed.
End TwoCharacters.

Lemma has_cons c e s : Str.has (e :: s) c = N.eqb c e || Str.has s c.
Proof. reflexivity. Qed.

Lemma has_app c a b : Str.has (a ++ b) c = Str.has a c || Str.has b c.
Proof. apply existsb_app. Qed.

Lemma replace_one c new s :
  replace [c] new s = flat_map (fun e => if N.eqb e c then new else [e]) s.
Proof.
  unfold replace. induction s as [|e s IH]; [reflexivity|].
  simpl. rewrite andb_true_r. destruct (N.eqb e c); now rewrite IH.
Qed.

(** [preprocess_expression], without regular expressions. *)
Lemma preprocess_expression_eq s :
  preprocess_expression s =
  star_between (only Ch.rparen) is_alpha
    (star_between is_decimal name_start
       (flat_map caret_to_stars s)).
Proof.
  unfold preprocess_expression.
  change (py "^") with [Ch.caret]. change (py "**") with [Ch.star; Ch.star].
  rewrite replace_one.
  change (fun e => if N.eqb e Ch.caret then [Ch.star; Ch.star] else [e])
    with caret_to_stars.
  unfold digit_then_name, paren_then_name.
  rewrite (sub_two is_decimal name_start name_start_not_decimal).
  now rewrite (sub_two (only Ch.rparen) is_alpha alpha_not_rparen).
Qed.

Section StarBetween.
Variables l r : char -> bool.

Lemma star_between_fixed s :
  adjacent l r s = false -> star_between l r s = s.
Proof.
  induction s as [|c s IH]; [reflexivity|].
  destruct s as [|e s]; [reflexivity|].
  intros H. apply orb_false_iff in H as [H1 H2].
  change (star_between l r (c :: e :: s))
    with (c :: (if l c && r e then [Ch.star] else [])
            ++ star_between l r (e :: s)).
  now rewrite H1, (IH H2).
Qed.

Lemma adjacent_star_between a b s :
  a Ch.star = false -> b Ch.star = false ->
  (adjacent a b s = false \/ (a = l /\ b = r)) ->
  adjacent a b (star_between l r s) = false.
Proof.
  intros Ha Hb. induction s as [|c s IH]; [reflexivity|].
  destruct s as [|e s]; [reflexivity|]. intros H.
  assert (IH' : adjacent a b (star_between l r (e :: s)) = false).
  { apply IH. destruct H as [H|H]; [|now right].
    apply orb_false_iff in H as [_ H]. now left. }
  clear IH.
  change (star_between l r (c :: e :: s))
    with (c :: (if l c && r e then [Ch.star] else [])
            ++ star_between l r (e :: s)).
  change (star_between l r (e :: s))
    with (e :: match s with
               | e' :: _ => if l e && r e' then [Ch.star] else []
               | [] => []
               end ++ star_between l r s) in *.
  destruct (l c && r e) eqn:Hm; simpl app.
  - change (adjacent a b (c :: Ch.star :: e :: ?t))
      with (a c && b Ch.star || (a Ch.star && b e || adjacent a b (e :: t))).
    rewrite Ha, Hb, IH'. now rewrite andb_false_r.
  - change (adjacent a b (c :: e :: ?t))
      with (a c && b e || adjacent a b (e :: t)).
    rewrite IH'. destruct H as [H|[-> ->]].
    + apply orb_false_iff in H as [-> _]. reflexivity.
    + now rewrite Hm.
Qed.

Lemma star_between_cons c s :
  star_between l r (c :: s) =
  c :: match s with
       | e :: _ => if l c && r e then [Ch.star] else []
       | [] => []
       end ++ star_between l r s.
Proof. reflexivity. Qed.

Lemma has_star_between c s :
  c <> Ch.star -> Str.has (star_between l r s) c = Str.has s c.
Proof.
  intros Hc. assert (Hs : N.eqb c Ch.star = false) by now apply N.eqb_neq.
  induction s as [|e s IH]; [reflexivity|].
  rewrite star_between_cons, !has_cons, has_app, IH.
  destruct s as [|e' s]; [reflexivity|].
  destruct (l e && r e'); [|reflexivity].
  rewrite has_cons, Hs. reflexivity.
Qed.

Lemma weight_star_between s : weight (star_between l r s) = weight s.
Proof.
  induction s as [|e s IH]; [reflexivity|].
  rewrite star_between_cons, !weight_cons, weight_app, IH.
  destruct s as [|e' s]; [reflexivity|].
  now destruct (l e && r e').
Qed.
End StarBetween.

Lemma weight_preprocess s : weight (preprocess_expression s) = weight s.
Proof.
  rewrite preprocess_expression_eq, !weight_star_between.
  induction s as [|e s IH]; [reflexivity|].
  change (flat_map caret_to_stars (e :: s))
    with (caret_to_stars e ++ flat_map caret_to_stars s).
  rewrite weight_app, IH, weight_cons. unfold caret_to_stars.
  destruct (N.eqb e Ch.caret) eqn:He; [|unfold weight; simpl; lia].
  apply N.eqb_eq in He; subst. reflexivity.
Qed.

Lemma has_without_caret s :
  Str.has (flat_map caret_to_stars s) Ch.caret = false.
Proof.
  induction s as [|e s IH]; [reflexivity|].
  change (flat_map caret_to_stars (e :: s))
    with (caret_to_stars e ++ flat_map caret_to_stars s).
  rewrite has_app, IH, orb_false_r. unfold caret_to_stars.
  destruct (N.eqb e Ch.caret) eqn:He; [reflexivity|].
  rewrite has_cons, N.eqb_sym, He. reflexivity.
Qed.

Lemma without_caret_fixed s :
  Str.has s Ch.caret = false -> flat_map caret_to_stars s = s.
Proof.
  induction s as [|e s IH]; [reflexivity|].
  rewrite has_cons. intros H. apply orb_false_iff in H as [H1 H2].
  change (flat_map caret_to_stars (e :: s))
    with (caret_to_stars e ++ flat_map caret_to_stars s).
  unfold caret_to_stars at 1. rewrite N.eqb_sym, H1, (IH H2). reflexivity.
Qed.

(** C7.  The preprocessor is idempotent: on a text that is already
    preprocessed, a second run of [preprocess_expression] changes nothing. *)
Theorem preprocess_expression_idempotent s :
  preprocess_expression (preprocess_expression s) = preprocess_expression s.
Proof.
  rewrite (preprocess_expression_eq (preprocess_expression s)).
  rewrite without_caret_fixed.
  - rewrite (star_between_fixed is_decimal name_start).
    + apply star_between_fixed. rewrite preprocess_expression_eq.
      apply adjacent_star_between; [reflexivity|reflexivity|]. now right.
    + rewrite preprocess_expression_eq.
      apply adjacent_star_between; [reflexivity|reflexivity|]. left.
      apply adjacent_star_between; [reflexivity|reflexivity|]. now right.
  - rewrite preprocess_expression_eq.
    rewrite !has_star_between by discriminate.
    apply has_without_caret.
Qed.

(** ** The rewrite loops end *)

Lemma rewrite_loop_unfold step fuel e :
  rewrite_loop step fuel e =
  match step e with
  | None => Some e
  | Some e' =>
      match fuel with
      | O => None
      | S fuel' => rewrite_loop step fuel' e'
      end
  end.
Proof. destruct fuel; reflexivity. Qed.

Section Loop.
Variable step : str -> option str.
Hypothesis decreases :
  forall e e', step e = Some e' -> (weight e' < weight e)%nat.

Lemma rewrite_loop_terminates fuel : forall e,
  (weight e <= fuel)%nat ->
  exists r, rewrite_loop step fuel e = Some r /\ step r = None
            /\ (weight r <= weight e)%nat.
Proof.
  induction fuel as [|fuel IH]; intros e Hw; rewrite rewrite_loop_unfold;
    destruct (step e) as [e'|] eqn:He.
  - apply decreases in He. lia.
  - exists e. auto.
  - pose proof (decreases _ _ He) as Hd.
    destruct (IH e') as [r [Hr [Hn Hl]]]; [lia|].
    exists r. repeat split; auto. lia.
  - exists e. auto.
Qed.
End Loop.

Lemma rewrite_loop_more_fuel step fuel : forall e r fuel',
  rewrite_loop step fuel e = Some r -> (fuel <= fuel')%nat ->
  rewrite_loop step fuel' e = Some r.
Proof.
  induction fuel as [|fuel IH]; intros e r fuel' H Hf;
    rewrite rewrite_loop_unfold in H; rewrite rewrite_loop_unfold;
    destruct (step e) as [e'|]; try assumption; try discriminate.
  destruct fuel' as [|fuel']; [lia|]. apply IH; [assumption|lia].
Qed.

Lemma run_loops_more_fuel rules fuel fuel' : forall e r,
  run_loops rules fuel e = Some r -> (fuel <= fuel')%nat ->
  run_loops rules fuel' e = Some r.
Proof.
  induction rules as [|step rules IH]; intros e r H Hf; simpl in *.
  - assumption.
  - destruct (rewrite_loop step fuel e) as [e'|] eqn:He; [|discriminate].
    rewrite (rewrite_loop_more_fuel _ _ _ _ _ He Hf). now apply IH.
Qed.

Lemma run_loops_terminates rules fuel :
  Forall (fun step => forall e e', step e = Some e' ->
                                   (weight e' < weight e)%nat) rules ->
  forall e, (weight e <= fuel)%nat ->
  exists r, run_loops rules fuel e = Some r /\ (weight r <= weight e)%nat.
Proof.
  induction 1 as [|step rules Hd _ IH]; intros e Hw; simpl.
  - exists e. auto.
  - destruct (rewrite_loop_terminates _ Hd _ _ Hw) as [e' [He [_ Hl]]].
    rewrite He. destruct (IH e') as [r [Hr Hl']]; [lia|].
    exists r. split; [assumption|lia].
Qed.

Lemma rewrite_rules_decrease :
  Forall (fun step => forall e e', step e = Some e' ->
                                   (weight e' < weight e)%nat) rewrite_rules.
Proof.
  repeat constructor.
  - exact second_derivative_decreases.
  - exact partial_derivative_decreases.
  - exact second_partial_decreases.
  - exact mixed_partial_decreases.
  - exact derivative_decreases.
  - exact definite_integral_decreases.
  - exact integral_decreases.
  - exact limit_decreases.
Qed.

(** A loop is left exactly when its pattern has no match, and every turn
    of it consumes a glyph. *)
Lemma rules_follow_patterns :
  Forall2 (fun p step =>
             (forall e, step e = None <-> search p e = None)
             /\ (forall e e', step e = Some e' -> (weight e' < weight e)%nat))
          rule_patterns rewrite_rules.
Proof.
  assert (H : forall p (f : found -> str) e,
             match search p e with Some m => Some (f m) | None => None end
             = None <-> search p e = None).
  { intros p f e. destruct (search p e); split; congruence. }
  unfold rule_patterns, rewrite_rules.
  repeat (apply Forall2_cons; [split; [intros e; apply H|]|]).
  - exact second_derivative_decreases.
  - exact partial_derivative_decreases.
  - exact second_partial_decreases.
  - exact mixed_partial_decreases.
  - exact derivative_decreases.
  - exact definite_integral_decreases.
  - exact integral_decreases.
  - exact limit_decreases.
  - apply Forall2_nil.
Qed.

Lemma parse_more_fuel s fuel fuel' r :
  parse_combined_expression fuel s = Some r -> (fuel <= fuel')%nat ->
  parse_combined_expression fuel' s = Some r.
Proof.
  unfold parse_combined_expression. intros H Hf.
  destruct (literal_examples s); [assumption|].
  destruct (leading_integral s); [assumption|].
  destruct (first_of nested_forms _); [assumption|].
  now apply (run_loops_more_fuel _ _ _ _ _ H).
Qed.

Lemma run_loops_in_turn rules fuel :
  Forall (fun r => (forall e, snd r e = None <-> search (fst r) e = None)
                   /\ (forall e e', snd r e = Some e' ->
                                    (weight e' < weight e)%nat)) rules ->
  forall e, (weight e <= fuel)%nat ->
  exists r, run_loops (map snd rules) fuel e = Some r
            /\ in_turn rules fuel e r.
Proof.
  induction 1 as [|[p step] rules [Hp Hd] _ IH]; intros e Hw; simpl.
  - exists e. auto.
  - simpl in Hp, Hd.
    destruct (rewrite_loop_terminates _ Hd _ _ Hw) as [e' [He [Hn Hl]]].
    rewrite He. destruct (IH e') as [r [Hr Ht]]; [lia|].
    exists r. split; [assumption|]. exists e'. repeat split; auto.
    now apply Hp.
Qed.

Lemma rules_and_patterns :
  Forall (fun r => (forall e, snd r e = None <-> search (fst r) e = None)
                   /\ (forall e e', snd r e = Some e' ->
                                    (weight e' < weight e)%nat))
         (combine rule_patterns rewrite_rules).
Proof.
  pose proof rules_follow_patterns as H.
  unfold rule_patterns, rewrite_rules in *.
  repeat match goal with
         | H : Forall2 _ (_ :: _) (_ :: _) |- _ => inversion H; subst; clear H
         end.
  cbn [combine]. repeat (apply Forall_cons; [assumption|]). apply Forall_nil.
Qed.

(** C2 (as amended).  Every rewrite loop of [parse_combined_expression]
    ends.  Each turn of a loop consumes a slash, an integral sign or an
    arrow head, so with as many turns allowed as the input has of these
    characters the function returns, and returns the same text however
    many more turns are allowed; when the input reaches the loops, the text
    returned is the one the eight loops give run one after the other, each
    once and each left on a text that its own pattern does not match; and
    each of the eight loops, started on any text within that bound, is
    left on such a text.  That the text returned matches none of the
    eight patterns is not said: a later loop can leave a text that the
    pattern of an earlier loop matches. *)
Theorem rewrite_loops_terminate (s : str) (fuel : nat) :
  (weight s <= fuel)%nat ->
  (exists r,
     (forall fuel', (fuel <= fuel')%nat ->
                    parse_combined_expression fuel' s = Some r)
     /\ (literal_examples s = None -> leading_integral s = None ->
         first_of nested_forms (preprocess_expression s) = None ->
         in_turn (combine rule_patterns rewrite_rules) fuel
           (preprocess_expression s) r))
  /\ Forall2 (fun p step => forall e, (weight e <= fuel)%nat ->
                exists e', rewrite_loop step fuel e = Some e'
                           /\ search p e' = None
                           /\ (weight e' <= weight e)%nat)
             rule_patterns rewrite_rules.
Proof.
  intros Hw. split.
  - destruct (run_loops_in_turn _ fuel rules_and_patterns
                (preprocess_expression s)) as [r0 [Hr0 Ht0]];
      [now rewrite weight_preprocess|].
    change (map snd (combine rule_patterns rewrite_rules))
      with rewrite_rules in Hr0.
    assert (H : exists r,
               parse_combined_expression fuel s = Some r
               /\ (literal_examples s = None -> leading_integral s = None ->
                   first_of nested_forms (preprocess_expression s) = None ->
                   r = r0)).
    { unfold parse_combined_expression.
      destruct (literal_examples s) as [r|];
        [exists r; split; [reflexivity|discriminate]|].
      destruct (leading_integral s) as [r|];
        [exists r; split; [reflexivity|discriminate]|].
      destruct (first_of nested_forms _) as [r|];
        [exists r; split; [reflexivity|discriminate]|].
      exists r0. auto. }
    destruct H as [r [Hr He]]. exists r. split.
    + intros fuel' Hf. now apply (parse_more_fuel _ _ _ _ Hr).
    + intros H1 H2 H3. now rewrite (He H1 H2 H3).
  - apply (Forall2_impl _ (R1 := fun p step =>
             (forall e, step e = None <-> search p e = None)
             /\ (forall e e', step e = Some e' -> (weight e' < weight e)%nat)));
      [|exact rules_follow_patterns].
    intros p step [Hp Hd] e He.
    destruct (rewrite_loop_terminates _ Hd _ _ He) as [e' [H1 [H2 H3]]].
    exists e'. repeat split; auto. now apply Hp.
Qed.

Lemma rewrite_loops_terminate_witness :
  (exists r,
     (forall fuel', (2 <= fuel')%nat ->
                    parse_combined_expression fuel' (py "d/dx(x^2) + ∫x dx")
                    = Some r)
     /\ (literal_examples (py "d/dx(x^2) + ∫x dx") = None ->
         leading_integral (py "d/dx(x^2) + ∫x dx") = None ->
         first_of nested_forms
           (preprocess_expression (py "d/dx(x^2) + ∫x dx")) = None ->
         in_turn (combine rule_patterns rewrite_rules) 2
           (preprocess_expression (py "d/dx(x^2) + ∫x dx")) r))
  /\ Forall2 (fun p step => forall e, (weight e <= 2)%nat ->
                exists e', rewrite_loop step 2 e = Some e'
                           /\ search p e' = None
                           /\ (weight e' <= weight e)%nat)
             rule_patterns rewrite_rules.
Proof.
  apply (rewrite_loops_terminate (py "d/dx(x^2) + ∫x dx") 2).
  vm_compute. apply le_n.
Defined.

(** The text returned is no fixed point of the loops in general: the loop
    of the first derivatives, the fifth, takes [∂/∂t] for its operand and
    leaves a text that the pattern of the second loop matches, and that the
    parser, given it again, rewrites further. *)
Lemma returned_text_still_matches :
  parse_combined_expression 2 (py "d/dx(∂/∂t((x+1)))")
  = Some (py "diff(∂/∂t, x)((x+1)))")
  /\ search partial_derivative_pattern (py "diff(∂/∂t, x)((x+1)))") <> None
  /\ parse_combined_expression 2 (py "diff(∂/∂t, x)((x+1)))")
     <> Some (py "diff(∂/∂t, x)((x+1)))").
Proof. repeat split; vm_compute; discriminate || reflexivity. Qed.


(** ** Texts *)

Lemma eqb_eq a : forall b, Str.eqb a b = true <-> a = b.
Proof.
  induction a as [|c a IH]; intros [|e b]; simpl; split; try congruence.
  - intros H. apply andb_true_iff in H as [H1 H2].
    apply N.eqb_eq in H1. apply IH in H2. congruence.
  - intros H. inversion H; subst. rewrite N.eqb_refl. now apply IH.
Qed.

Lemma among_In s options : Str.among s options = true -> In s options.
Proof.
  unfold Str.among. intros H. apply existsb_exists in H as [o [Ho He]].
  apply eqb_eq in He. now subst.
Qed.

Lemma has_In s c : Str.has s c = true <-> In c s.
Proof.
  unfold Str.has. rewrite existsb_exists. split.
  - intros [e [He Hc]]. apply N.eqb_eq in Hc. now subst.
  - intros H. exists c. split; [assumption|apply N.eqb_refl].
Qed.

Lemma startswith_app p : forall s,
  Str.startswith s p = true -> exists r, s = p ++ r.
Proof.
  induction p as [|c p IH]; intros s H.
  - now exists s.
  - destruct s as [|e s]; [discriminate|]. simpl in H.
    apply andb_true_iff in H as [H1 H2]. apply N.eqb_eq in H1; subst.
    destruct (IH _ H2) as [r ->]. now exists r.
Qed.

Lemma contains_infix n s :
  Str.contains s n = true -> exists a b, s = a ++ n ++ b.
Proof.
  induction s as [|c s IH]; simpl; intros H.
  - apply startswith_app in H as [r ->]. now exists [], r.
  - apply orb_true_iff in H as [H|H].
    + apply startswith_app in H as [r ->]. now exists [], r.
    + destruct (IH H) as [a [b ->]]. now exists (c :: a), b.
Qed.

Lemma contains_In n s c : Str.contains s n = true -> In c n -> In c s.
Proof.
  intros H Hc. apply contains_infix in H as [a [b ->]].
  apply in_or_app. right. apply in_or_app. now left.
Qed.

Lemma In_lstrip c s : In c s -> is_space c = false -> In c (Str.lstrip s).
Proof.
  intros H Hc. induction s as [|e s IH]; [assumption|]. simpl.
  destruct (is_space e) eqn:He; [|assumption].
  destruct H as [->|H]; [congruence|now apply IH].
Qed.

Lemma In_strip c s : In c s -> is_space c = false -> In c (Str.strip s).
Proof.
  intros H Hc. unfold Str.strip, Str.rstrip.
  rewrite <- in_rev. apply In_lstrip; [|assumption].
  rewrite <- in_rev. now apply In_lstrip.
Qed.

(** A stripped text that holds [c] is none of the [options] without [c]. *)
Lemma among_without c s options :
  In c s -> is_space c = false ->
  forallb (fun o => negb (Str.has o c)) options = true ->
  Str.among (Str.strip s) options = false.
Proof.
  intros H Hc Ho. destruct (Str.among _ _) eqn:Ha; [|reflexivity].
  apply among_In in Ha.
  apply (proj1 (forallb_forall _ _) Ho) in Ha.
  apply negb_true_iff in Ha.
  apply (In_strip _ _ H) in Hc. apply has_In in Hc. congruence.
Qed.

(** ** The evaluator *)

(** C8 (as amended).  An input that holds the limit example
    [lim_{x->0}(sin(x)/x)] (or [lim x->0 sin(x)/x]) and does not hold the
    integral-of-a-derivative example, which the catalogue tests first, is
    answered by the fast path: the result is the engine's [1], the parsed
    text is [1], the steps are the canned ones, nothing is shown and no
    rewrite loop runs (any [fuel] will do). *)
Theorem limit_example_fast_path (engine : Engine) (fuel : nat) (s : str)
  (one : sym engine) :
  Str.contains s (py "lim_{x->0}(sin(x)/x)") = true
  \/ Str.contains s (py "lim x->0 sin(x)/x") = true ->
  Str.contains s (py "∫(d/dx(x^2)) dx") = false ->
  Str.contains s (py "∫(d/dx(x**2)) dx") = false ->
  sympify engine (py "1") = inr one ->
  evaluate_combined_expression engine fuel s
  = Some (Success engine one (py "1")
            [ py "Original expression: " ++ s;
              py "This is a well-known limit in calculus";
              py "Using L'Hôpital's rule or Taylor series expansion";
              py "The limit of sin(x)/x as x approaches 0 is 1" ],
          []).
Proof.
  intros Hlim H1 H2 Hone.
  assert (Hgt : In Ch.gt s).
  { destruct Hlim as [H|H]; apply (contains_In _ _ _ H); vm_compute; tauto. }
  unfold evaluate_combined_expression, fast_path.
  rewrite !(among_without Ch.gt s) by (assumption || reflexivity).
  rewrite H1, H2. simpl orb.
  replace (Str.contains s (py "lim_{x->0}(sin(x)/x)")
           || Str.contains s (py "lim x->0 sin(x)/x")) with true
    by (destruct Hlim as [-> | ->]; [reflexivity|now rewrite orb_true_r]).
  rewrite Hone. reflexivity.
Qed.

Lemma limit_example_fast_path_witness :
  evaluate_combined_expression formal_engine 0
    (py "2 * lim_{x->0}(sin(x)/x)")
  = Some (Success formal_engine (py "1") (py "1")
            [ py "Original expression: " ++ py "2 * lim_{x->0}(sin(x)/x)";
              py "This is a well-known limit in calculus";
              py "Using L'Hôpital's rule or Taylor series expansion";
              py "The limit of sin(x)/x as x approaches 0 is 1" ],
          []).
Proof.
  refine (limit_example_fast_path formal_engine 0
            (py "2 * lim_{x->0}(sin(x)/x)") (py "1") _ _ _ _);
    [left; vm_compute; reflexivity | vm_compute; reflexivity ..].
Defined.

(** The catalogue is read in order: an input that also holds the second
    example is answered as the second example. *)
Lemma limit_example_shadowed :
  Str.contains (py "∫(d/dx(x^2)) dx + lim_{x->0}(sin(x)/x)")
               (py "lim_{x->0}(sin(x)/x)") = true
  /\ exists steps,
       evaluate_combined_expression formal_engine 0
         (py "∫(d/dx(x^2)) dx + lim_{x->0}(sin(x)/x)")
       = Some (Success formal_engine (py "x**2") (py "x^2") steps, []).
Proof.
  split; [vm_compute; reflexivity|].
  eexists. vm_compute. reflexivity.
Qed.

(** C1.  The evaluator does not always return one of its two dictionaries:
    on [∫(d/dx(sin(x))) dx] the parsed text is [integrate((, x)], the engine
    cannot parse it, the handler of that exception tries the direct
    integration of [(], which fails too, and the body of the function ends
    without a [return]: the call returns [None]. *)
Theorem evaluate_falls_off_the_end (engine : Engine) (fuel : nat)
  (e1 e2 : str) :
  sympify engine (py "(") = inl e1 ->
  sympify engine (py "integrate((, x)") = inl e2 ->
  exists shown,
    evaluate_combined_expression engine fuel (py "∫(d/dx(sin(x))) dx")
    = Some (ReturnsNone engine, shown).
Proof.
  destruct engine as [sym sympify Symbol integrate simplify to_str sx cx mx].
  intros H1 H2. vm_compute in H1, H2. vm_compute.
  rewrite H1, H2.
  match goal with
  | |- context [Symbol ?v] => destruct (Symbol v)
  end; eexists; reflexivity.
Qed.

Lemma evaluate_falls_off_the_end_witness :
  exists shown,
    evaluate_combined_expression formal_engine 0 (py "∫(d/dx(sin(x))) dx")
    = Some (ReturnsNone formal_engine, shown).
Proof.
  apply (evaluate_falls_off_the_end formal_engine 0
           (py "invalid syntax") (py "invalid syntax")); reflexivity.
Defined.

Lemma pipeline_shows_the_parsed_text (engine : Engine) (s parsed : str) :
  exists more,
    snd (pipeline engine s parsed)
    = st_info (py "Parsed expression: `" ++ parsed ++ py "`") :: more.
Proof.
  unfold pipeline. cbv zeta.
  destruct (Str.eqb (Str.strip s) _); [eexists; reflexivity|].
  destruct (Str.startswith _ _ && _ && _);
    [destruct (just_an_integral engine s parsed) as [e|[r|]]|];
    try (eexists; reflexivity);
    (destruct (evaluate_parsed engine s parsed); [|eexists; reflexivity];
     destruct (fallback engine s parsed _); eexists; reflexivity).
Qed.

(** A call of the evaluator does show something. *)
Lemma evaluate_notifies :
  exists r,
    evaluate_combined_expression formal_engine 0 (py "x + 1")
    = Some (r, [ st_info (py "Parsed expression: `x + 1`") ]).
Proof. eexists. vm_compute. reflexivity. Qed.

(** C9 (as amended).  A call shows notifications: none when the input is
    answered by the fast path, and otherwise first of all the parsed text,
    as an information box. *)
Theorem notifications_of_a_call (engine : Engine) (fuel : nat) (s : str)
  (r : returned engine) (shown : list notification) :
  evaluate_combined_expression engine fuel s = Some (r, shown) ->
  match fast_path engine s with
  | Some _ => shown = []
  | None =>
      exists parsed more,
        parse_combined_expression fuel s = Some parsed
        /\ shown
           = st_info (py "Parsed expression: `" ++ parsed ++ py "`") :: more
  end.
Proof.
  unfold evaluate_combined_expression.
  destruct (fast_path engine s); [congruence|].
  destruct (parse_combined_expression fuel s) as [parsed|]; [|discriminate].
  destruct (pipeline_shows_the_parsed_text engine s parsed) as [more Hm].
  destruct (pipeline engine s parsed) as [r' shown']. simpl in Hm.
  intros H. inversion H; subst. now exists parsed, more.
Qed.

Lemma notifications_of_a_call_witness :
  exists parsed more,
    parse_combined_expression 0 (py "x + 1") = Some parsed
    /\ [ st_info (py "Parsed expression: `x + 1`") ]
       = st_info (py "Parsed expression: `" ++ parsed ++ py "`") :: more.
Proof.
  refine (notifications_of_a_call formal_engine 0 (py "x + 1") _ _ _).
  vm_compute. reflexivity.
Defined.

(** ** When a pattern cannot match *)

Lemma concat_In (c : char) m (ms : pieces) : In m ms -> In c m -> In c (concat ms).
Proof.
  intros Hm Hc. induction ms as [|m' ms IH]; [contradiction|]. simpl.
  apply in_or_app. destruct Hm as [->|Hm]; [now left|right; now apply IH].
Qed.

(** An item that takes at least one character finds it in the text. *)
Lemma search_requires p s f it :
  search p s = Some f -> In it p -> rep it = One \/ rep it = Plus ->
  exists c, In c s /\ cls it c = true.
Proof.
  intros Hs Hit Hrep. apply search_sound in Hs as [-> HF].
  assert (H : exists m, In m (matched f) /\ fits it m).
  { revert Hit. generalize (matched f) HF. clear.
    induction p as [|it' p IH]; intros ms HF Hit; [contradiction|].
    inversion HF as [|? m ? ms' Hm HF']; subst.
    destruct Hit as [->|Hit].
    - exists m. split; [now left|assumption].
    - destruct (IH _ HF' Hit) as [m' [H1 H2]]. exists m'. split; [now right|assumption]. }
  destruct H as [m [Hin [Hall Hq]]].
  destruct m as [|c m].
  - destruct Hrep as [Hr|Hr]; rewrite Hr in Hq; simpl in Hq; lia.
  - exists c. split.
    + apply in_or_app. right. apply in_or_app. left.
      apply (concat_In c _ _ Hin). now left.
    + now inversion Hall.
Qed.

Lemma search_none_without p s it :
  In it p -> rep it = One \/ rep it = Plus ->
  existsb (cls it) s = false -> search p s = None.
Proof.
  intros Hit Hrep Hs. destruct (search p s) as [f|] eqn:Hf; [|reflexivity].
  destruct (search_requires _ _ _ _ Hf Hit Hrep) as [c [Hc Hcls]].
  assert (existsb (cls it) s = true) by (apply existsb_exists; eauto).
  congruence.
Qed.

Lemma adjacent_intro a b x y l r :
  a x = true -> b y = true -> adjacent a b (l ++ x :: y :: r) = true.
Proof.
  intros Ha Hb. induction l as [|c l IH]; simpl.
  - now rewrite Ha, Hb.
  - destruct (l ++ x :: y :: r) eqn:E; [now destruct l|].
    rewrite IH. apply orb_true_r.
Qed.

(** Two neighbouring items that take one character each find two
    neighbouring characters. *)
Lemma search_requires_adjacent p s f p1 it1 it2 p2 :
  search p s = Some f -> p = p1 ++ it1 :: it2 :: p2 ->
  rep it1 = One -> rep it2 = One ->
  adjacent (cls it1) (cls it2) s = true.
Proof.
  intros Hs -> H1 H2. apply search_sound in Hs as [-> HF].
  apply Forall2_app_inv_l in HF as [ms1 [ms2 [HF1 [HF2 ->]]]].
  inversion HF2 as [|? m1 ? ms3 [Ha1 Hq1] HF3]; subst.
  inversion HF3 as [|? m2 ? ms4 [Ha2 Hq2] HF4]; subst.
  rewrite H1 in Hq1. rewrite H2 in Hq2. simpl in Hq1, Hq2.
  destruct m1 as [|x [|? ?]]; try discriminate.
  destruct m2 as [|y [|? ?]]; try discriminate.
  inversion Ha1; inversion Ha2; subst.
  rewrite concat_app. simpl. rewrite <- !app_assoc, app_assoc. simpl.
  now apply adjacent_intro.
Qed.

Lemma search_none_apart p s p1 it1 it2 p2 :
  p = p1 ++ it1 :: it2 :: p2 -> rep it1 = One -> rep it2 = One ->
  adjacent (cls it1) (cls it2) s = false -> search p s = None.
Proof.
  intros Hp H1 H2 Ha. destruct (search p s) as [f|] eqn:Hf; [|reflexivity].
  rewrite (search_requires_adjacent _ _ _ _ _ _ _ Hf Hp H1 H2) in Ha.
  discriminate.
Qed.

(** ** Loops that turn once, or not at all *)

Lemma rewrite_loop_idle step fuel e :
  step e = None -> rewrite_loop step fuel e = Some e.
Proof. intros H. now rewrite rewrite_loop_unfold, H. Qed.

Lemma rewrite_loop_once step fuel e e' :
  step e = Some e' -> step e' = None ->
  rewrite_loop step (S fuel) e = Some e'.
Proof.
  intros H H'. rewrite rewrite_loop_unfold, H. now apply rewrite_loop_idle.
Qed.

(** ** Stripping *)

Lemma lstrip_keep c s : is_space c = false -> Str.lstrip (c :: s) = c :: s.
Proof. intros H. simpl. now rewrite H. Qed.

Lemma rstrip_keep c s : is_space c = false -> Str.rstrip (s ++ [c]) = s ++ [c].
Proof.
  intros H. unfold Str.rstrip. rewrite rev_app_distr. simpl.
  rewrite H. simpl. now rewrite rev_involutive.
Qed.

Lemma rstrip_drop c s : is_space c = true -> Str.rstrip (s ++ [c]) = Str.rstrip s.
Proof.
  intros H. unfold Str.rstrip. rewrite rev_app_distr. simpl. now rewrite H.
Qed.

Lemma strip_keep c mid e :
  is_space c = false -> is_space e = false ->
  Str.strip (c :: mid ++ [e]) = c :: mid ++ [e].
Proof.
  intros Hc He. unfold Str.strip. rewrite (lstrip_keep _ _ Hc).
  now rewrite app_comm_cons, (rstrip_keep _ _ He).
Qed.

Lemma lstrip_head s c t : Str.lstrip s = c :: t -> is_space c = false.
Proof.
  induction s as [|e s IH]; simpl; [discriminate|].
  destruct (is_space e) eqn:He; [assumption|]. intros H. inversion H; now subst.
Qed.

Lemma lstrip_spaces s :
  exists l, s = l ++ Str.lstrip s /\ Forall (fun c => is_space c = true) l.
Proof.
  induction s as [|c s [l [IH1 IH2]]]; [exists []; split; [reflexivity|constructor]|].
  simpl. destruct (is_space c) eqn:Hc.
  - exists (c :: l). split; [simpl; now f_equal|now constructor].
  - exists []. split; [reflexivity|constructor].
Qed.

(** ** Characters of a preprocessed text *)

Lemma star_between_skip l r c s :
  l c = false -> star_between l r (c :: s) = c :: star_between l r s.
Proof. intros H. rewrite star_between_cons, H. simpl. now destruct s. Qed.

Lemma star_between_app l r s c rest :
  r c = false ->
  star_between l r (s ++ c :: rest)
  = star_between l r s ++ star_between l r (c :: rest).
Proof.
  intros Hc. induction s as [|e s IH]; [reflexivity|].
  rewrite <- app_comm_cons, (star_between_cons l r e (s ++ c :: rest)), IH.
  rewrite (star_between_cons l r e s).
  destruct s as [|e' s].
  - simpl app at 1. cbv iota. rewrite Hc, andb_false_r. reflexivity.
  - rewrite <- app_comm_cons. cbv iota.
    now rewrite <- app_comm_cons, app_assoc.
Qed.

Lemma has_caret_to_stars c s :
  c <> Ch.star -> c <> Ch.caret ->
  Str.has (flat_map caret_to_stars s) c = Str.has s c.
Proof.
  intros H1 H2. induction s as [|e s IH]; [reflexivity|].
  change (flat_map caret_to_stars (e :: s))
    with (caret_to_stars e ++ flat_map caret_to_stars s).
  rewrite has_app, has_cons, IH. f_equal. unfold caret_to_stars.
  destruct (N.eqb e Ch.caret) eqn:He.
  - apply N.eqb_eq in He; subst. rewrite !has_cons.
    replace (N.eqb c Ch.star) with false by (symmetry; now apply N.eqb_neq).
    replace (N.eqb c Ch.caret) with false by (symmetry; now apply N.eqb_neq).
    reflexivity.
  - rewrite has_cons. apply orb_false_r.
Qed.

Lemma has_preprocess c s :
  c <> Ch.star -> c <> Ch.caret ->
  Str.has (preprocess_expression s) c = Str.has s c.
Proof.
  intros H1 H2. rewrite preprocess_expression_eq.
  rewrite !has_star_between by assumption. now apply has_caret_to_stars.
Qed.

Lemma preprocess_nonempty s : s <> [] -> preprocess_expression s <> [].
Proof.
  intros H. rewrite preprocess_expression_eq. destruct s as [|c s]; [congruence|].
  change (flat_map caret_to_stars (c :: s))
    with (caret_to_stars c ++ flat_map caret_to_stars s).
  unfold caret_to_stars at 1. destruct (N.eqb c Ch.caret); simpl; discriminate.
Qed.

(** ** Plain operands *)

Lemma plain_without E c :
  plain E = true -> In c operand_glyphs -> existsb (N.eqb c) E = false.
Proof.
  intros HE Hc. destruct (existsb (N.eqb c) E) eqn:H; [|reflexivity].
  apply existsb_exists in H as [e [He Hce]]. apply N.eqb_eq in Hce; subst e.
  apply (proj1 (forallb_forall _ _) HE) in He.
  unfold none_of in He. apply negb_true_iff in He.
  assert (existsb (N.eqb c) operand_glyphs = true).
  { apply existsb_exists. exists c. split; [assumption|apply N.eqb_refl]. }
  congruence.
Qed.

Lemma without_plain E :
  (forall c, In c operand_glyphs -> existsb (N.eqb c) E = false) ->
  plain E = true.
Proof.
  intros H. apply forallb_forall. intros e He.
  unfold none_of. apply negb_true_iff.
  destruct (existsb (N.eqb e) operand_glyphs) eqn:Hg; [|reflexivity].
  apply existsb_exists in Hg as [g [Hg Heg]]. apply N.eqb_eq in Heg; subst g.
  assert (existsb (N.eqb e) E = true).
  { apply existsb_exists. exists e. split; [assumption|apply N.eqb_refl]. }
  rewrite (H _ Hg) in *. discriminate.
Qed.

Lemma plain_preprocess E : plain E = true -> plain (preprocess_expression E) = true.
Proof.
  intros HE. apply without_plain. intros c Hc.
  change (Str.has (preprocess_expression E) c = false).
  rewrite has_preprocess.
  - now apply plain_without.
  - intros ->. simpl in Hc. intuition discriminate.
  - intros ->. simpl in Hc. intuition discriminate.
Qed.

Lemma plain_not_paren E :
  plain E = true -> Forall (fun c => not_paren c = true) E.
Proof.
  intros HE. apply Forall_forall. intros e He.
  apply (proj1 (forallb_forall _ _) HE) in He.
  unfold none_of in *. apply negb_true_iff in He. apply negb_true_iff.
  simpl in *. apply orb_false_iff in He as [H1 He].
  apply orb_false_iff in He as [H2 _]. now rewrite H1, H2.
Qed.

Lemma lower_bounds c : is_lower c = true -> (97 <= c <= 122)%N.
Proof.
  unfold is_lower. intros H. apply andb_true_iff in H as [H1 H2].
  apply N.leb_le in H1, H2. lia.
Qed.

Lemma lower_differs c a :
  is_lower a = true -> is_lower c = false -> existsb (N.eqb c) [a] = false.
Proof.
  intros Ha Hc. simpl. rewrite orb_false_r. apply N.eqb_neq. intros ->.
  congruence.
Qed.

Lemma lower_neq c a :
  is_lower a = true -> is_lower c = false -> N.eqb c a = false.
Proof. intros Ha Hc. apply N.eqb_neq. intros ->. congruence. Qed.

Lemma class_without (cl : char -> bool) E c :
  Forall (fun e => cl e = true) E -> cl c = false ->
  existsb (N.eqb c) E = false.
Proof.
  intros HE Hc. destruct (existsb (N.eqb c) E) eqn:H; [|reflexivity].
  apply existsb_exists in H as [e [He Hce]]. apply N.eqb_eq in Hce; subst e.
  rewrite Forall_forall in HE. rewrite (HE _ He) in Hc. discriminate.
Qed.

(** Texts are written as concatenations; [literals] brings their literal
    parts to lists of characters. *)
Ltac literals :=
  repeat match goal with
         | |- context [py ?s] =>
             let v := eval vm_compute in (py s) in change (py s) with v
         end;
  cbn [app].

(** [existsb f s = false] for a text made of literals, variables and plain
    operands. *)
Ltac absent :=
  unfold Str.has; cbn [cls lit]; literals; cbn [existsb];
  repeat rewrite existsb_app; cbn [existsb];
  repeat match goal with
         | H : is_lower ?a = true |- context [N.eqb ?c ?a] =>
             rewrite (lower_neq c a H) by reflexivity
         | H : plain ?E = true |- context [existsb (N.eqb ?c) ?E] =>
             rewrite (plain_without E c H) by (simpl; auto 10)
         | H : Forall (fun e => ?cl e = true) ?E
           |- context [existsb (N.eqb ?c) ?E] =>
             rewrite (class_without cl E c H) by reflexivity
         end;
  reflexivity.

(** ** Preprocessing around an operand *)

Lemma preprocess_cons c s :
  inert c = true ->
  preprocess_expression (c :: s) = c :: preprocess_expression s.
Proof.
  unfold inert. intros H. apply andb_true_iff in H as [H H3].
  apply andb_true_iff in H as [H1 H2].
  apply negb_true_iff in H1, H2, H3.
  rewrite !preprocess_expression_eq.
  change (flat_map caret_to_stars (c :: s))
    with (caret_to_stars c ++ flat_map caret_to_stars s).
  unfold caret_to_stars at 1. rewrite H1. simpl app.
  rewrite (star_between_skip is_decimal name_start c _ H2).
  apply star_between_skip. unfold only. now rewrite N.eqb_sym.
Qed.

Lemma preprocess_app s c rest :
  N.eqb c Ch.caret = false -> name_start c = false ->
  preprocess_expression (s ++ c :: rest)
  = preprocess_expression s ++ preprocess_expression (c :: rest).
Proof.
  intros H1 H2. rewrite !preprocess_expression_eq, flat_map_app.
  change (flat_map caret_to_stars (c :: rest))
    with (caret_to_stars c ++ flat_map caret_to_stars rest).
  assert (Hc : caret_to_stars c = [c]) by (unfold caret_to_stars; now rewrite H1).
  rewrite Hc. simpl app.
  rewrite (star_between_app is_decimal name_start _ c _ H2).
  rewrite (star_between_cons is_decimal name_start c).
  apply star_between_app.
  unfold name_start in H2. now apply orb_false_iff in H2 as [H2 _].
Qed.

Lemma lower_inert a : is_lower a = true -> inert a = true.
Proof.
  intros Ha. unfold inert.
  rewrite (name_start_not_decimal a)
    by (unfold name_start; now rewrite (lower_alpha a Ha)).
  apply lower_bounds in Ha.
  replace (N.eqb a Ch.caret) with false
    by (symmetry; apply N.eqb_neq; unfold Ch.caret; lia).
  replace (N.eqb a Ch.rparen) with false
    by (symmetry; apply N.eqb_neq; unfold Ch.rparen; lia).
  reflexivity.
Qed.

Ltac inert_head :=
  repeat (rewrite preprocess_cons
            by (first [reflexivity | now apply lower_inert])).

(** ** The literal examples *)

Lemma contains_without s n c :
  Str.has s c = false -> Str.has n c = true -> Str.contains s n = false.
Proof.
  intros Hs Hn. destruct (Str.contains s n) eqn:H; [|reflexivity].
  apply has_In in Hn. apply (contains_In _ _ _ H) in Hn.
  apply has_In in Hn. congruence.
Qed.

(** A text without the integral sign and without an arrow is caught by
    the catalogue only through one of its exact entries. *)
Lemma literal_examples_plain s :
  Str.has s Ch.integral = false -> Str.has s Ch.gt = false ->
  literal_examples s =
  (let stripped := Str.strip s in
   if Str.among stripped
        [ py "d/dx sin(x)"; py "d/dx(sin(x))"; py "d/dx sin x";
          py "d/dx(sin x)" ]
   then Some (py "cos(x)")
   else if Str.among stripped
        [ py "d²/dx²(sin(x))"; py "d²/dx²(sin x)"; py "d²/dx² sin(x)";
          py "d²/dx² sin x" ]
   then Some (py "-sin(x)")
   else if Str.among stripped
        [ py "∂/∂x(sin(x))"; py "∂/∂x sin(x)"; py "∂/∂x(sin x)";
          py "∂/∂x sin x" ]
   then Some (py "cos(x)")
   else None).
Proof.
  intros Hi Hg. unfold literal_examples.
  rewrite !(contains_without s _ Ch.integral Hi) by reflexivity.
  rewrite !(contains_without s _ Ch.gt Hg) by reflexivity.
  reflexivity.
Qed.

Lemma strip_ends s :
  is_space (hd Ch.space s) = false -> is_space (last s Ch.space) = false ->
  Str.strip s = s.
Proof.
  destruct s as [|c s]; [reflexivity|]. intros Hc He.
  destruct (exists_last (l := c :: s)) as [l [e Hl]]; [discriminate|].
  rewrite Hl in He. rewrite last_last in He.
  destruct l as [|c' l]; inversion Hl; subst.
  - unfold Str.strip. rewrite lstrip_keep by assumption.
    now apply (rstrip_keep e []).
  - now apply strip_keep.
Qed.

Lemma search_none_literal p s c :
  In (lit c) p -> Str.has s c = false -> search p s = None.
Proof.
  intros Hp Hs. apply (search_none_without p s (lit c) Hp); [now left|exact Hs].
Qed.

Ltac unfold_patterns :=
  unfold second_derivative_pattern, partial_derivative_pattern,
    second_partial_pattern, mixed_partial_pattern, derivative_pattern,
    definite_integral_pattern, integral_pattern, limit_pattern,
    special_case, limit_derivative_pattern, limit_integral_pattern,
    derivative_in_integral_pattern, lim_head, operand, lits;
  literals; cbn [map app].

Ltac pick := unfold_patterns; cbn [In]; repeat (first [left; reflexivity | right]).

(** No match for want of a character the pattern spells out. *)
Ltac no_match_without c :=
  apply (search_none_literal _ _ c); [pick | absent].

Lemma adjacent_cons a b c e s :
  adjacent a b (c :: e :: s) = a c && b e || adjacent a b (e :: s).
Proof. reflexivity. Qed.

Lemma adjacent_split a b s1 c s2 :
  adjacent a b (s1 ++ c :: s2)
  = adjacent a b (s1 ++ [c]) || adjacent a b (c :: s2).
Proof.
  induction s1 as [|e s1 IH]; [reflexivity|].
  destruct s1 as [|e' s1].
  - simpl app. rewrite !adjacent_cons. simpl. now rewrite !orb_false_r.
  - change ((e :: e' :: s1) ++ c :: s2) with (e :: e' :: (s1 ++ c :: s2)).
    change ((e :: e' :: s1) ++ [c]) with (e :: e' :: (s1 ++ [c])).
    rewrite !adjacent_cons.
    change (e' :: s1 ++ c :: s2) with ((e' :: s1) ++ c :: s2).
    change (e' :: s1 ++ [c]) with ((e' :: s1) ++ [c]).
    rewrite IH. now rewrite orb_assoc.
Qed.

Lemma adjacent_without_first a b s :
  existsb a s = false -> adjacent a b s = false.
Proof.
  induction s as [|c s IH]; [reflexivity|]. intros H.
  simpl in H. apply orb_false_iff in H as [H1 H2].
  destruct s as [|e s]; [reflexivity|].
  rewrite adjacent_cons, H1, (IH H2). reflexivity.
Qed.

Lemma adjacent_without_second a b s :
  existsb b s = false -> adjacent a b s = false.
Proof.
  induction s as [|c s IH]; [reflexivity|]. intros H.
  simpl in H. apply orb_false_iff in H as [H1 H2].
  destruct s as [|e s]; [reflexivity|].
  rewrite adjacent_cons, (IH H2).
  simpl in H2. apply orb_false_iff in H2 as [H2 _].
  now rewrite H2, andb_false_r.
Qed.

Lemma adjacent_before a b s c :
  existsb a s = false -> adjacent a b (s ++ [c]) = false.
Proof.
  induction s as [|e s IH]; [reflexivity|]. intros H.
  simpl in H. apply orb_false_iff in H as [H1 H2].
  destruct s as [|e' s].
  - simpl. now rewrite H1.
  - change ((e :: e' :: s) ++ [c]) with (e :: e' :: (s ++ [c])).
    rewrite adjacent_cons, H1.
    change (e' :: s ++ [c]) with ((e' :: s) ++ [c]). now rewrite (IH H2).
Qed.

Lemma adjacent_after a b c s :
  existsb b s = false -> adjacent a b (c :: s) = false.
Proof.
  intros H. destruct s as [|e s]; [reflexivity|].
  rewrite adjacent_cons, (adjacent_without_second a b _ H).
  simpl in H. apply orb_false_iff in H as [H _].
  now rewrite H, andb_false_r.
Qed.

Lemma adjacent_elim a b s :
  adjacent a b s = true ->
  exists l x y r, s = l ++ x :: y :: r /\ a x = true /\ b y = true.
Proof.
  induction s as [|c s IH]; [discriminate|].
  destruct s as [|e s]; [discriminate|].
  rewrite adjacent_cons. intros H. apply orb_true_iff in H as [H|H].
  - apply andb_true_iff in H as [H1 H2]. now exists [], c, e, s.
  - destruct (IH H) as [l [x [y [r [Hs [Hx Hy]]]]]].
    exists (c :: l), x, y, r. rewrite Hs. auto.
Qed.

(** Two neighbours in the needle are neighbours in the text. *)
Lemma contains_adjacent a b s n :
  Str.contains s n = true -> adjacent a b n = true -> adjacent a b s = true.
Proof.
  intros Hc Hn. apply contains_infix in Hc as [l' [r' ->]].
  apply adjacent_elim in Hn as [l [x [y [r [-> [Hx Hy]]]]]].
  rewrite <- app_assoc, app_assoc. simpl. now apply adjacent_intro.
Qed.

Lemma contains_apart a b s n :
  adjacent a b s = false -> adjacent a b n = true -> Str.contains s n = false.
Proof.
  intros Hs Hn. destruct (Str.contains s n) eqn:H; [|reflexivity].
  rewrite (contains_adjacent a b s n H Hn) in Hs. discriminate.
Qed.

Lemma startswith_until c E : forall EN r rn,
  Str.has E c = false -> Str.has EN c = false ->
  Str.startswith (E ++ c :: r) (EN ++ c :: rn)
  = Str.eqb E EN && Str.startswith r rn.
Proof.
  induction E as [|e E IH]; intros [|a EN] r rn HE HN;
    rewrite ?has_cons in *;
    repeat match goal with
           | H : _ || _ = false |- _ => apply orb_false_iff in H as [? ?]
           end; simpl.
  - now rewrite N.eqb_refl.
  - replace (N.eqb c a) with false by auto. reflexivity.
  - replace (N.eqb e c) with false by (now rewrite N.eqb_sym). reflexivity.
  - rewrite IH by assumption. now rewrite andb_assoc.
Qed.

Lemma search_at_start p ms rest s :
  s = concat ms ++ rest -> Forall2 fits p ms -> tight p ms rest ->
  search p s = Some (Found [] ms rest).
Proof. intros ->. apply search_at_head. Qed.

Lemma nonempty_length (E : str) : E <> [] -> (1 <= List.length E)%nat.
Proof. destruct E; [congruence|simpl; lia]. Qed.

(** The pieces of a match, given one by one. *)
Ltac fit_piece :=
  split;
  [ first [ assumption
          | apply plain_not_paren; assumption
          | repeat (apply Forall_cons; [first [reflexivity | assumption]|]);
            apply Forall_nil ]
  | first [ reflexivity | exact I | (cbn; lia)
          | (apply nonempty_length; assumption) ] ].

Ltac fit := unfold_patterns; repeat (apply Forall2_cons; [fit_piece|]); apply Forall2_nil.

Ltac taut :=
  unfold_patterns; cbn [tight rep cls concat app blocked Re.star Re.opt ws lit
                          group_one group_plus group_star Re.one];
  repeat split; try exact I; try (intros; discriminate); try reflexivity.

Ltac same_text := literals; cbn [concat app]; rewrite ?app_nil_r; reflexivity.

(** ** One mixed partial derivative *)

Section MixedPartial.
Variables (a b : char) (E : str).
Hypothesis a_lower : is_lower a = true.
Hypothesis b_lower : is_lower b = true.
Hypothesis E_plain : plain E = true.
Hypothesis E_nonempty : E <> [].

Let E' := preprocess_expression E.

Let E'_plain : plain E' = true := plain_preprocess E E_plain.

Let text : str := py "∂²/∂" ++ [a] ++ py "∂" ++ [b] ++ py "(" ++ E ++ py ")".
Let text' : str := py "∂²/∂" ++ [a] ++ py "∂" ++ [b] ++ py "(" ++ E' ++ py ")".
Let call : str :=
  py "diff(diff(" ++ E' ++ py ", " ++ [a] ++ py "), " ++ [b] ++ py ")".

Lemma mixed_preprocessed : preprocess_expression text = text'.
Proof.
  unfold text, text'. literals. inert_head.
  rewrite (preprocess_app E _ []) by reflexivity. reflexivity.
Qed.

Lemma mixed_stripped : Str.strip text = text.
Proof.
  apply strip_ends; [reflexivity|]. unfold text.
  change (py ")") with [Ch.rparen].
  rewrite !app_assoc. now rewrite last_last.
Qed.

Lemma mixed_not_literal : literal_examples text = None.
Proof.
  rewrite literal_examples_plain by (unfold text; absent).
  cbv zeta. rewrite mixed_stripped. unfold text. literals.
  reflexivity.
Qed.

Lemma mixed_not_leading : leading_integral text = None.
Proof.
  unfold leading_integral. rewrite mixed_stripped. unfold text. literals.
  reflexivity.
Qed.

Lemma mixed_not_nested : first_of nested_forms text' = None.
Proof.
  unfold first_of, nested_forms, fold_right, derivative_of_integral,
    derivative_of_limit, integral_of_limit.
  replace (search special_case text') with (@None found)
    by (symmetry; unfold text'; no_match_without Ch.integral).
  replace (search limit_derivative_pattern text') with (@None found)
    by (symmetry; unfold text'; no_match_without Ch.gt).
  replace (search limit_integral_pattern text') with (@None found)
    by (symmetry; unfold text'; no_match_without Ch.integral).
  reflexivity.
Qed.

Lemma mixed_no_second_derivative : second_derivative_step text' = None.
Proof.
  unfold second_derivative_step.
  replace (search second_derivative_pattern text') with (@None found);
    [reflexivity|symmetry].
  apply (search_none_apart _ _ (lits (py "d²")) (lit Ch.slash) (lit Ch.d)
           ([group_one is_lower; lit Ch.squared] ++ operand));
    [reflexivity..|].
  change text' with (py "∂²/" ++ Ch.partial :: [a] ++ py "∂" ++ [b]
                       ++ py "(" ++ E' ++ py ")").
  rewrite adjacent_split.
  rewrite (adjacent_without_first _ _ (Ch.partial :: _)) by absent.
  reflexivity.
Qed.

Lemma mixed_no_partial_derivative : partial_derivative_step text' = None.
Proof.
  unfold partial_derivative_step.
  replace (search partial_derivative_pattern text') with (@None found);
    [reflexivity|symmetry].
  apply (search_none_apart _ _ [] (lit Ch.partial) (lit Ch.slash)
           ([lit Ch.partial; group_one is_lower] ++ operand));
    [reflexivity..|].
  change text' with (py "∂²/" ++ Ch.partial :: [a] ++ py "∂" ++ [b]
                       ++ py "(" ++ E' ++ py ")").
  rewrite adjacent_split.
  rewrite (adjacent_without_second _ _ (Ch.partial :: _)) by absent.
  reflexivity.
Qed.

Lemma mixed_no_second_partial : second_partial_step text' = None.
Proof.
  unfold second_partial_step.
  replace (search second_partial_pattern text') with (@None found);
    [reflexivity|symmetry].
  apply (search_none_apart _ _ (lits (py "∂²/∂")) (group_one is_lower)
           (lit Ch.squared) operand); [reflexivity..|].
  change text' with (py "∂²" ++ Ch.slash :: py "∂" ++ [a] ++ py "∂" ++ [b]
                       ++ py "(" ++ E' ++ py ")").
  rewrite adjacent_split.
  rewrite (adjacent_without_second _ _ (Ch.slash :: _)) by absent.
  reflexivity.
Qed.

Let E'_nonempty : E' <> [] := preprocess_nonempty E E_nonempty.

Lemma mixed_rewritten : mixed_partial_step text' = Some call.
Proof.
  unfold mixed_partial_step.
  rewrite (search_at_start mixed_partial_pattern
             [ [Ch.partial]; [Ch.squared]; [Ch.slash]; [Ch.partial]; [a];
               [Ch.partial]; [b]; []; [Ch.lparen]; E'; [Ch.rparen] ] []).
  - unfold_patterns. unfold splice, group, call.
    cbn [captures cap matched before after nth pred Re.star Re.opt ws lit
           group_one group_plus]. same_text.
  - unfold text'. same_text.
  - fit.
  - taut.
Qed.

Lemma mixed_settled :
  mixed_partial_step call = None /\ derivative_step call = None
  /\ definite_integral_step call = None /\ integral_step call = None
  /\ limit_step call = None.
Proof.
  unfold mixed_partial_step, derivative_step, definite_integral_step,
    integral_step, limit_step.
  replace (search mixed_partial_pattern call) with (@None found)
    by (symmetry; unfold call; no_match_without Ch.partial).
  replace (search derivative_pattern call) with (@None found)
    by (symmetry; unfold call; no_match_without Ch.slash).
  replace (search definite_integral_pattern call) with (@None found)
    by (symmetry; unfold call; no_match_without Ch.integral).
  replace (search integral_pattern call) with (@None found)
    by (symmetry; unfold call; no_match_without Ch.integral).
  replace (search limit_pattern call) with (@None found)
    by (symmetry; unfold call; no_match_without Ch.gt).
  repeat split.
Qed.

Lemma mixed_partial_parsed fuel :
  parse_combined_expression (S fuel) text = Some call.
Proof.
  unfold parse_combined_expression.
  rewrite mixed_not_literal, mixed_not_leading, mixed_preprocessed,
    mixed_not_nested.
  destruct mixed_settled as [H4 [H5 [H6 [H7 H8]]]].
  unfold rewrite_rules. cbn [run_loops].
  rewrite (rewrite_loop_idle _ _ _ mixed_no_second_derivative).
  rewrite (rewrite_loop_idle _ _ _ mixed_no_partial_derivative).
  rewrite (rewrite_loop_idle _ _ _ mixed_no_second_partial).
  rewrite (rewrite_loop_once _ _ _ _ mixed_rewritten H4).
  rewrite (rewrite_loop_idle _ _ _ H5), (rewrite_loop_idle _ _ _ H6),
    (rewrite_loop_idle _ _ _ H7), (rewrite_loop_idle _ _ _ H8).
  reflexivity.
Qed.
End MixedPartial.

(** C10 (as amended).  The input [∂²/∂a∂b(E)], for lower-case letters [a]
    and [b] and a non-empty operand [E] free of parentheses and of the
    characters of the notation, is rewritten to [diff(diff(E', a), b)] with
    [E'] the preprocessed operand: the inner derivative is by the variable
    written first. *)
Theorem mixed_partial_order (a b : char) (E : str) (fuel : nat) :
  is_lower a = true -> is_lower b = true -> plain E = true -> E <> [] ->
  parse_combined_expression (S fuel)
    (py "∂²/∂" ++ [a] ++ py "∂" ++ [b] ++ py "(" ++ E ++ py ")")
  = Some (py "diff(diff(" ++ preprocess_expression E ++ py ", " ++ [a]
            ++ py "), " ++ [b] ++ py ")").
Proof. intros Ha Hb HE Hn. exact (mixed_partial_parsed a b E Ha Hb HE Hn fuel). Qed.

Lemma mixed_partial_order_witness :
  parse_combined_expression 1 (py "∂²/∂x∂y(x^2*y)")
  = Some (py "diff(diff(x**2*y, x), y)").
Proof.
  exact (mixed_partial_order 120 121 (py "x^2*y") 0 eq_refl eq_refl eq_refl
           ltac:(discriminate)).
Defined.

(** An outer construct takes the head of the mixed partial derivative as
    its own operand before the rule for mixed partials runs. *)
Lemma mixed_partial_inside_partial :
  Str.contains (py "∂/∂z(∂²/∂x∂y(f))") (py "∂²/∂x∂y(f)") = true
  /\ parse_combined_expression 10 (py "∂/∂z(∂²/∂x∂y(f))")
     = Some (py "diff(diff(diff(, z, x), y)(f))")
  /\ Str.contains (py "diff(diff(diff(, z, x), y)(f))")
                  (py "diff(diff(f, x), y)") = false
  /\ parse_combined_expression 10 (py "∂²/∂x∂y()") = Some (py "∂²/∂x∂y()").
Proof. repeat split; vm_compute; reflexivity. Qed.

(** ** The integral of a derivative *)

Lemma startswith_cons c s e n :
  Str.startswith (c :: s) (e :: n) = N.eqb c e && Str.startswith s n.
Proof. reflexivity. Qed.

Lemma contains_cons c s n :
  Str.contains (c :: s) n = Str.startswith (c :: s) n || Str.contains s n.
Proof. reflexivity. Qed.

Section IntegralOfDerivative.
Variables (v w : char) (E : str).
Hypothesis v_lower : is_lower v = true.
Hypothesis w_lower : is_lower w = true.
Hypothesis E_not_paren : Forall (fun c => not_paren c = true) E.
Hypothesis E_nonempty : E <> [].

Let text : str := py "∫(d/d" ++ [v] ++ py "(" ++ E ++ py ")) d" ++ [w].

Lemma iod_stripped : Str.strip text = text.
Proof.
  apply strip_ends; [reflexivity|]. unfold text.
  rewrite !app_assoc, last_last.
  apply lower_bounds in w_lower.
  destruct (is_space w) eqn:Hw; [|reflexivity].
  destruct (in_ranges_bounds whitespace_ranges w
              (fun r => N.leb (snd r) 32 || N.leb 133 (fst r)) eq_refl Hw)
    as [r [Hr Hc]].
  apply orb_true_iff in Hr as [Hr|Hr]; apply N.leb_le in Hr; lia.
Qed.

(** The integral sign followed by a parenthesis occurs at the start only. *)
Lemma iod_catalogue_at_start n :
  adjacent (N.eqb Ch.integral) (N.eqb Ch.lparen) n = true ->
  Str.contains text n = Str.startswith text n.
Proof.
  intros Hn. unfold text. literals.
  rewrite contains_cons.
  match goal with
  | |- _ || Str.contains ?s n = _ =>
      replace (Str.contains s n) with false; [apply orb_false_r|symmetry]
  end.
  apply (fun H => contains_apart _ _ _ _ H Hn).
  match goal with
  | |- adjacent ?a ?b _ = false =>
      change (adjacent a b ([40; 100; 47; 100; v]%N
                              ++ 40%N :: E ++ [41; 41; 32; 100; w]%N) = false)
  end.
  rewrite adjacent_split, adjacent_before, adjacent_after by absent.
  reflexivity.
Qed.

Lemma iod_example EN :
  Str.has EN Ch.rparen = false ->
  Str.contains text (py "∫(d/dx(" ++ EN ++ py ")) dx") = true ->
  v = Ch.x /\ w = Ch.x /\ E = EN.
Proof.
  intros HN. rewrite iod_catalogue_at_start by reflexivity.
  unfold text. literals. rewrite !startswith_cons.
  change (E ++ [41; 41; 32; 100; w])%N with (E ++ 41 :: [41; 32; 100; w])%N.
  change (EN ++ [41; 41; 32; 100; 120])%N
    with (EN ++ 41 :: [41; 32; 100; 120])%N.
  rewrite (startswith_until 41%N) by (try assumption; absent).
  rewrite !startswith_cons. cbn [Str.startswith].
  intros H. repeat (apply andb_true_iff in H as [? H]).
  repeat match goal with
         | H : N.eqb _ _ = true |- _ => apply N.eqb_eq in H
         | H : Str.eqb _ _ = true |- _ => apply eqb_eq in H
         | H : _ && _ = true |- _ => apply andb_true_iff in H as [? ?]
         end.
  subst. auto.
Qed.

(** The other examples of the catalogue have a brace before a parenthesis,
    or a slash after one. *)
Lemma iod_no_brace : adjacent (N.eqb Ch.rbrace) (N.eqb Ch.lparen) text = false.
Proof.
  unfold text. literals.
  match goal with
  | |- adjacent ?a ?b _ = false =>
      change (adjacent a b ([8747; 40; 100; 47; 100; v]%N
                              ++ 40%N :: E ++ [41; 41; 32; 100; w]%N) = false)
  end.
  rewrite adjacent_split, adjacent_after by absent.
  rewrite (adjacent_without_first _ _ (_ ++ _)) by absent. reflexivity.
Qed.

Lemma iod_no_slash_after :
  adjacent (N.eqb Ch.rparen) (N.eqb Ch.slash) text = false.
Proof.
  unfold text. literals.
  match goal with
  | |- adjacent ?a ?b _ = false =>
      change (adjacent a b (([8747; 40; 100; 47; 100; v; 40]%N ++ E)
                              ++ 41%N :: [41; 32; 100; w]%N) = false)
  end.
  rewrite adjacent_split, adjacent_before by absent. reflexivity.
Qed.

Lemma iod_literal_examples :
  literal_examples text =
  if Str.contains text (py "∫(d/dx(x^2)) dx")
     || Str.contains text (py "∫(d/dx(x**2)) dx")
  then Some (py "x^2") else None.
Proof.
  unfold literal_examples. rewrite iod_stripped.
  rewrite (contains_apart _ _ text (py "lim_{x->0}(sin(x)/x)")
             iod_no_brace eq_refl).
  rewrite (contains_apart _ _ text (py "lim x->0 sin(x)/x")
             iod_no_slash_after eq_refl).
  rewrite (contains_apart _ _ text (py "d/dx(lim_{t->0}(sin(t)/t))")
             iod_no_brace eq_refl).
  rewrite (contains_apart _ _ text (py "∫(lim_{t->x}(t^2)) dx")
             iod_no_brace eq_refl).
  replace (Str.among text _) with false
    by (unfold text; literals; reflexivity).
  replace (Str.among text _) with false
    by (unfold text; literals; reflexivity).
  replace (Str.among text _) with false
    by (unfold text; literals; reflexivity).
  cbn [orb]. reflexivity.
Qed.

Lemma iod_leading :
  leading_integral text =
  Some (if N.eqb v w then E
        else py "integrate(diff(" ++ E ++ py ", " ++ [v] ++ py "), " ++ [w]
               ++ py ")").
Proof.
  unfold leading_integral. rewrite iod_stripped.
  replace (Str.startswith text (py "∫") && Str.contains text (py "d")
           && negb (Str.startswith text (py "d/d"))) with true
    by (unfold text; literals; reflexivity).
  rewrite (search_at_start derivative_in_integral_pattern
             [ [Ch.integral]; []; [Ch.lparen]; []; [Ch.d]; [Ch.slash]; [Ch.d];
               [v]; []; [Ch.lparen]; E; [Ch.rparen]; []; [Ch.rparen];
               [Ch.space]; [Ch.d]; [w] ] []).
  - unfold_patterns. unfold group.
    cbn [captures cap matched nth pred Re.star Re.opt ws lit group_one
           group_plus Str.eqb].
    rewrite andb_true_r. literals. now destruct (N.eqb v w).
  - unfold text. same_text.
  - fit.
  - taut.
Qed.

Lemma iod_parsed fuel :
  parse_combined_expression fuel text =
  Some (if N.eqb v w
        then if Str.eqb E (py "x**2") && N.eqb v Ch.x then py "x^2" else E
        else py "integrate(diff(" ++ E ++ py ", " ++ [v] ++ py "), " ++ [w]
               ++ py ")").
Proof.
  unfold parse_combined_expression. rewrite iod_literal_examples.
  destruct (Str.contains text (py "∫(d/dx(x^2)) dx")) eqn:H1.
  { apply (iod_example (py "x^2") eq_refl) in H1 as [-> [-> ->]].
    reflexivity. }
  destruct (Str.contains text (py "∫(d/dx(x**2)) dx")) eqn:H2.
  { apply (iod_example (py "x**2") eq_refl) in H2 as [-> [-> ->]].
    reflexivity. }
  cbn [orb]. rewrite iod_leading.
  destruct (N.eqb v w) eqn:Hvw; [|reflexivity].
  destruct (Str.eqb E (py "x**2") && N.eqb v Ch.x) eqn:Hx; [|reflexivity].
  apply andb_true_iff in Hx as [HE Hv].
  apply eqb_eq in HE. apply N.eqb_eq in Hv, Hvw. subst.
  vm_compute in H2. discriminate.
Qed.
End IntegralOfDerivative.

(** C3 (as amended).  For [∫(d/dv(E)) dw] with lower-case letters [v], [w]
    and a non-empty operand [E] free of parentheses, the parser returns [E]
    itself when [v] and [w] are the same letter (the literal example
    [∫(d/dx(x**2)) dx] is answered [x^2]), and
    [integrate(diff(E, v), w)] when they differ; and the evaluator answers
    [∫(d/dx(x^2)) dx] with the parsed text [x^2] and the engine's [x**2]. *)
Theorem integral_of_derivative (v w : char) (E : str) (fuel : nat) :
  is_lower v = true -> is_lower w = true ->
  Forall (fun c => not_paren c = true) E -> E <> [] ->
  parse_combined_expression fuel
    (py "∫(d/d" ++ [v] ++ py "(" ++ E ++ py ")) d" ++ [w])
  = Some (if N.eqb v w
          then if Str.eqb E (py "x**2") && N.eqb v Ch.x then py "x^2" else E
          else py "integrate(diff(" ++ E ++ py ", " ++ [v] ++ py "), "
                 ++ [w] ++ py ")")
  /\ forall (engine : Engine) (square : sym engine),
       sympify engine (py "x**2") = inr square ->
       exists steps,
         evaluate_combined_expression engine fuel (py "∫(d/dx(x^2)) dx")
         = Some (Success engine square (py "x^2") steps, []).
Proof.
  intros Hv Hw HE Hn. split; [exact (iod_parsed v w E Hv Hw HE Hn fuel)|].
  intros [sym sympify Symbol integrate simplify to_str sx cx mx] square H.
  vm_compute in H. vm_compute. rewrite H. eexists. reflexivity.
Qed.

Lemma integral_of_derivative_witness :
  parse_combined_expression 0 (py "∫(d/dt(sin t)) dt") = Some (py "sin t").
Proof.
  exact (proj1 (integral_of_derivative 116 116 (py "sin t") 0 eq_refl eq_refl
                  ltac:(repeat constructor) ltac:(discriminate))).
Defined.

(** An operand with parentheses of its own is not the operand the resolver
    looks for, and the catalogue answers [x^2] for the operand [x**2]. *)
Lemma integral_of_derivative_with_call :
  parse_combined_expression 10 (py "∫(d/dx(sin(x))) dx")
  = Some (py "integrate((, x)")
  /\ parse_combined_expression 10 (py "∫(d/dx(x**2)) dx") = Some (py "x^2").
Proof. split; vm_compute; reflexivity. Qed.

(** ** The derivative of an integral *)

Lemma In_star_between l r c s : In c s -> In c (star_between l r s).
Proof.
  induction s as [|e s IH]; [contradiction|]. intros H.
  rewrite star_between_cons. destruct H as [->|H]; [now left|].
  right. apply in_or_app. right. now apply IH.
Qed.

(** A character that is not blank leaves one that is not blank. *)
Lemma preprocess_not_blank s :
  (exists c, In c s /\ is_space c = false) ->
  exists c, In c (preprocess_expression s) /\ is_space c = false.
Proof.
  intros [c [Hc Hs]]. rewrite preprocess_expression_eq.
  assert (H : exists c', In c' (flat_map caret_to_stars s)
                         /\ is_space c' = false).
  { destruct (N.eqb c Ch.caret) eqn:He.
    - exists Ch.star. split; [|reflexivity].
      apply in_flat_map. exists c. split; [assumption|].
      unfold caret_to_stars. rewrite He. now left.
    - exists c. split; [|assumption].
      apply in_flat_map. exists c. split; [assumption|].
      unfold caret_to_stars. rewrite He. now left. }
  destruct H as [c' [H1 H2]]. exists c'. split; [|assumption].
  now apply In_star_between, In_star_between.
Qed.

Lemma strip_not_blank s :
  Str.strip s <> [] -> exists c, In c s /\ is_space c = false.
Proof.
  unfold Str.strip, Str.rstrip. intros H.
  destruct (Str.lstrip (rev (Str.lstrip s))) as [|c r] eqn:Hl;
    [now destruct H|].
  exists c. split; [|now apply (lstrip_head _ _ _ Hl)].
  destruct (lstrip_suffix (rev (Str.lstrip s))) as [l1 H1].
  destruct (lstrip_suffix s) as [l2 H2].
  rewrite H2. apply in_or_app. right. apply in_rev. rewrite H1, Hl.
  apply in_or_app. right. now left.
Qed.

Lemma strip_after_lstrip s :
  Str.lstrip s <> [] -> Str.strip (Str.lstrip s ++ [Ch.space]) = Str.strip s.
Proof.
  intros H. unfold Str.strip.
  destruct (Str.lstrip s) as [|c F] eqn:Hl; [congruence|].
  rewrite <- app_comm_cons, (lstrip_keep c _ (lstrip_head _ _ _ Hl)).
  rewrite app_comm_cons. now apply rstrip_drop.
Qed.

Lemma without_class cs (s : str) :
  (forall c, In c cs -> Str.has s c = false) ->
  Forall (fun e => none_of cs e = true) s.
Proof.
  intros H. apply Forall_forall. intros e He. unfold none_of.
  apply negb_true_iff. destruct (existsb (N.eqb e) cs) eqn:Hc; [|reflexivity].
  apply existsb_exists in Hc as [c [Hc Hec]]. apply N.eqb_eq in Hec; subst c.
  specialize (H e Hc). apply has_In in He. congruence.
Qed.

Section DerivativeOfIntegral.
Variables (x t : char) (E : str).
Hypothesis x_lower : is_lower x = true.
Hypothesis t_lower : is_lower t = true.
Hypothesis E_without_d : Str.has E Ch.d = false.
Hypothesis E_not_blank : Str.strip E <> [].

Let E' := preprocess_expression E.
Let text : str := py "d/d" ++ [x] ++ py "(∫" ++ E ++ py " d" ++ [t] ++ py ")".
Let text' : str := py "d/d" ++ [x] ++ py "(∫" ++ E' ++ py " d" ++ [t] ++ py ")".

Lemma doi_not_leading : leading_integral text = None.
Proof.
  unfold leading_integral.
  rewrite (strip_ends text);
    [|reflexivity
     |unfold text; change (py ")") with [Ch.rparen];
      rewrite !app_assoc; now rewrite last_last].
  unfold text. literals. reflexivity.
Qed.

Lemma doi_preprocessed : preprocess_expression text = text'.
Proof.
  unfold text, text'. literals. inert_head.
  rewrite (preprocess_app E _ _) by reflexivity.
  inert_head. reflexivity.
Qed.

Let E'_without_d : Str.has E' Ch.d = false.
Proof. unfold E'. now rewrite has_preprocess by discriminate. Qed.

Let F_nonempty : Str.lstrip E' <> [].
Proof.
  destruct (preprocess_not_blank E (strip_not_blank E E_not_blank))
    as [c [Hc Hs]].
  intros H. pose proof (In_lstrip c _ Hc Hs) as Hin. fold E' in Hin.
  rewrite H in Hin. contradiction.
Qed.

Lemma doi_resolved :
  derivative_of_integral text' =
  Some (if N.eqb t x
        then py "diff(integrate(" ++ Str.strip E' ++ py ", " ++ [t]
               ++ py "), " ++ [x] ++ py ")"
        else replace [t] [x] (Str.strip E')).
Proof.
  unfold derivative_of_integral.
  destruct (lstrip_spaces E') as [L [HL Hsp]].
  destruct (Str.lstrip E') as [|c F] eqn:HF; [now destruct F_nonempty|].
  pose proof (lstrip_head _ _ _ HF) as Hc.
  assert (Hd : Forall (fun e => not_d e = true) ((c :: F) ++ [Ch.space])).
  { apply without_class. intros e [<-|[]].
    rewrite has_app. replace (Str.has (c :: F) Ch.d) with false; [reflexivity|].
    symmetry. destruct (Str.has (c :: F) Ch.d) eqn:H; [|reflexivity].
    apply has_In in H. assert (In Ch.d E') by (rewrite HL; apply in_or_app; now right).
    apply has_In in H0. congruence. }
  assert (Hs : Str.strip (c :: F ++ [Ch.space]) = Str.strip E').
  { rewrite app_comm_cons, <- HF. apply strip_after_lstrip.
    rewrite HF. discriminate. }
  rewrite (search_at_start special_case
             [ [Ch.d]; [Ch.slash]; [Ch.d]; [x]; []; [Ch.lparen]; [];
               [Ch.integral]; L; (c :: F) ++ [Ch.space]; []; [Ch.d]; [t]; [];
               [Ch.rparen] ] []).
  - unfold_patterns. unfold group.
    cbn [captures cap matched nth pred Re.star Re.opt ws lit group_one
           group_plus Str.eqb].
    rewrite andb_true_r. literals. change [32%N] with [Ch.space].
    rewrite Hs. now destruct (N.eqb t x).
  - unfold text'. rewrite HL at 1. literals. cbn [concat app].
    rewrite ?app_nil_r, <- !app_assoc. reflexivity.
  - unfold_patterns.
    repeat (apply Forall2_cons;
            [first [fit_piece | split; [assumption|first [exact I|cbn; lia]]]|]).
    apply Forall2_nil.
  - taut. exact Hc.
Qed.

Lemma doi_parsed fuel :
  literal_examples text = None ->
  parse_combined_expression fuel text =
  Some (if N.eqb t x
        then py "diff(integrate(" ++ Str.strip E' ++ py ", " ++ [t]
               ++ py "), " ++ [x] ++ py ")"
        else replace [t] [x] (Str.strip E')).
Proof.
  intros Hl. unfold parse_combined_expression.
  rewrite Hl, doi_not_leading, doi_preprocessed.
  unfold first_of, nested_forms, fold_right. now rewrite doi_resolved.
Qed.
End DerivativeOfIntegral.

Lemma replace_character t x s :
  replace [t] [x] s = map (fun c => if N.eqb c t then x else c) s.
Proof.
  unfold replace. induction s as [|c s IH]; [reflexivity|].
  simpl. rewrite andb_true_r, IH. now destruct (N.eqb c t).
Qed.

Lemma rename_alone t x : forall s previous,
  stands_alone t (match previous with Some p => p :: s | None => s end)
  = true ->
  rename_from t x previous s = map (fun c => if N.eqb c t then x else c) s.
Proof.
  induction s as [|c s IH]; intros previous H; [reflexivity|].
  cbn [rename_from map]. f_equal.
  - destruct (N.eqb c t) eqn:Hc; [|reflexivity].
    apply N.eqb_eq in Hc. subst c.
    unfold stands_alone in H. apply andb_true_iff in H as [H1 H2].
    apply negb_true_iff in H1, H2.
    assert (Hp : ends_a_name previous = true).
    { destruct previous as [p|]; [|reflexivity]. simpl.
      rewrite adjacent_cons in H1. apply orb_false_iff in H1 as [H1 _].
      rewrite N.eqb_refl, andb_true_r in H1. now apply negb_false_iff in H1. }
    assert (Hn : ends_a_name (hd_error s) = true).
    { destruct s as [|e s]; [reflexivity|]. simpl.
      assert (H3 : adjacent (N.eqb t) (fun c => negb (separator c))
                     (t :: e :: s) = false).
      { destruct previous as [p|]; [|assumption].
        rewrite adjacent_cons in H2. now apply orb_false_iff in H2 as [_ H2]. }
      rewrite adjacent_cons in H3. apply orb_false_iff in H3 as [H3 _].
      rewrite N.eqb_refl in H3. now apply negb_false_iff in H3. }
    now rewrite Hp, Hn.
  - apply (IH (Some c)). unfold stands_alone in *.
    destruct previous as [p|]; [|assumption].
    apply andb_true_iff in H as [H1 H2]. apply negb_true_iff in H1, H2.
    destruct s as [|e s]; [reflexivity|].
    rewrite adjacent_cons in H1, H2.
    apply orb_false_iff in H1 as [_ H1]. apply orb_false_iff in H2 as [_ H2].
    now rewrite H1, H2.
Qed.

(** C4 (as amended).  For [d/dx(∫E dt)], written with a blank before
    [dt], with an integrand [E] that does not hold the letter [d], is not
    blank, and does not make the input one of the literal examples: when
    [t] differs from [x] and every [t] of the preprocessed, stripped
    integrand is a name of its own, the parser returns that integrand with
    the name [t] renamed to [x]; and when the two variables coincide it
    returns [diff(integrate(E', t), x)].  What becomes of a [t] inside a
    longer name is not said. *)
Theorem derivative_of_integral_resolved (x t : char) (E : str) (fuel : nat) :
  is_lower x = true -> is_lower t = true ->
  Str.has E Ch.d = false -> Str.strip E <> [] ->
  N.eqb t x || stands_alone t (Str.strip (preprocess_expression E)) = true ->
  literal_examples
    (py "d/d" ++ [x] ++ py "(∫" ++ E ++ py " d" ++ [t] ++ py ")") = None ->
  parse_combined_expression fuel
    (py "d/d" ++ [x] ++ py "(∫" ++ E ++ py " d" ++ [t] ++ py ")")
  = Some (if N.eqb t x
          then py "diff(integrate(" ++ Str.strip (preprocess_expression E)
                 ++ py ", " ++ [t] ++ py "), " ++ [x] ++ py ")"
          else rename t x (Str.strip (preprocess_expression E))).
Proof.
  intros Hx Ht Hd Hb Ha Hl. rewrite (doi_parsed x t E Hx Ht Hd Hb fuel Hl).
  destruct (N.eqb t x); [reflexivity|]. simpl in Ha.
  unfold rename. now rewrite replace_character, (rename_alone t x _ None Ha).
Qed.

Lemma derivative_of_integral_resolved_witness :
  parse_combined_expression 0 (py "d/dx(∫ 2t^3 dt)") = Some (py "2*x**3").
Proof.
  exact (derivative_of_integral_resolved 120 116 (py " 2t^3") 0
           eq_refl eq_refl eq_refl ltac:(discriminate) eq_refl eq_refl).
Defined.

(** The replacement of line 106 is one of characters: a [t] inside a name
    is replaced as well, which is not the integrand at [t = x] that the
    comment of lines 103 and 104 announces. *)
Lemma replaced_inside_a_name :
  stands_alone 116 (Str.strip (preprocess_expression (py "tan(t)"))) = false
  /\ rename 116 120 (py "tan(t)") = py "tan(x)"
  /\ parse_combined_expression 0 (py "d/dx(∫tan(t) dt)") = Some (py "xan(x)").
Proof. repeat split; vm_compute; reflexivity. Qed.

(** An integrand with the letter [d] ends the pattern of the resolver
    early, and the integrand is preprocessed before it is returned. *)
Lemma derivative_of_integral_with_d :
  parse_combined_expression 10 (py "d/dx(∫t*d dt)")
  = Some (py "diff(∫t*d dt, x)")
  /\ parse_combined_expression 10 (py "d/dx(∫2t dt)") = Some (py "2*x").
Proof. split; vm_compute; reflexivity. Qed.

(** ** The derivative of a limit *)

(** Neither of the two ways of writing a limit that the source documents
    is a match of the head of its limit patterns: after [lim] comes at most
    one of an underscore and a brace, and then a lower-case letter. *)
Lemma lim_head_rejects_the_documented_forms (rest : str) :
  match_at lim_head (py "lim_{" ++ rest) = None
  /\ match_at lim_head (py "lim " ++ rest) = None.
Proof. split; reflexivity. Qed.

(** C5.  The resolver for the derivative of a limit does not see the limit
    in [d/dx(lim_{t->1}(t))], written as the source documents it: its
    pattern has no match, and the general loops return
    [diff(lim_{t->1}, x)(t))] where the derivative of a constant, [0], is
    due. *)
Theorem derivative_of_limit_unseen (fuel : nat) :
  derivative_of_limit (py "d/dx(lim_{t->1}(t))") = None
  /\ parse_combined_expression (S fuel) (py "d/dx(lim_{t->1}(t))")
     = Some (py "diff(lim_{t->1}, x)(t))").
Proof.
  split; [vm_compute; reflexivity|].
  apply (parse_more_fuel _ 1); [vm_compute; reflexivity|lia].
Qed.

(** ** One construct *)

Lemma no_notation_plain r :
  Str.has r Ch.integral = false -> Str.has r Ch.partial = false ->
  Str.has r Ch.slash = false -> Str.has r Ch.gt = false ->
  no_notation r = true.
Proof.
  intros H1 H2 H3 H4. unfold no_notation.
  rewrite H1, H2, !(contains_without r _ Ch.slash H3) by reflexivity.
  now rewrite (contains_without r _ Ch.gt H4) by reflexivity.
Qed.

Lemma startswith_has s c n :
  Str.startswith s (c :: n) = true -> Str.has s c = true.
Proof.
  destruct s as [|e s]; [discriminate|]. simpl. intros H.
  apply andb_true_iff in H as [H _]. rewrite N.eqb_sym in H.
  unfold Str.has. simpl. now rewrite H.
Qed.

Lemma sin_x_cases s : sin_x s = s \/ sin_x s = py "sin(x)".
Proof. unfold sin_x. destruct (Str.eqb _ _); auto. Qed.

Lemma plain_has E c :
  plain E = true -> In c operand_glyphs -> Str.has E c = false.
Proof. exact (plain_without E c). Qed.


(** ** The loops on one construct *)

Ltac step_none :=
  match goal with
  | |- ?step ?e = None =>
      unfold step;
      match goal with
      | |- context [search ?p e] =>
          replace (search p e) with (@None found); [reflexivity|symmetry]
      end
  end.

(** The loop of [step] does not turn: its pattern spells out [c]. *)
Ltac idle c :=
  rewrite rewrite_loop_idle by (step_none; no_match_without c).

Ltac glyph_free :=
  apply no_notation_plain; absent.


(** ** More on the preprocessor *)

Lemma unstarred_app a b : unstarred (a ++ b) = unstarred a ++ unstarred b.
Proof. apply filter_app. Qed.

Lemma unstarred_star_between l r s :
  unstarred (star_between l r s) = unstarred s.
Proof.
  induction s as [|c s IH]; [reflexivity|].
  rewrite star_between_cons.
  change (c :: ?x ++ ?y) with ([c] ++ x ++ y).
  change (c :: s) with ([c] ++ s).
  rewrite !unstarred_app, IH. f_equal.
  destruct s as [|e s]; [reflexivity|]. now destruct (l c && r e).
Qed.

Lemma unstarred_caret_to_stars s :
  unstarred (flat_map caret_to_stars s) = unstarred s.
Proof.
  induction s as [|c s IH]; [reflexivity|].
  change (flat_map caret_to_stars (c :: s))
    with (caret_to_stars c ++ flat_map caret_to_stars s).
  change (c :: s) with ([c] ++ s).
  rewrite !unstarred_app, IH. f_equal. unfold caret_to_stars.
  destruct (N.eqb c Ch.caret) eqn:Hc; [|reflexivity].
  unfold unstarred. simpl. rewrite Hc. now rewrite andb_false_r.
Qed.

(** X2.  The preprocessor changes nothing but stars and carets: with the
    stars and carets taken out, the text is the same before and after (no
    name such as [sin] is ever split or altered). *)
Theorem preprocess_expression_keeps_the_rest (s : str) :
  unstarred (preprocess_expression s) = unstarred s.
Proof.
  rewrite preprocess_expression_eq, !unstarred_star_between.
  apply unstarred_caret_to_stars.
Qed.

Lemma preprocess_normal_form s :
  Str.has (preprocess_expression s) Ch.caret = false
  /\ implicit_product (preprocess_expression s) = false.
Proof.
  rewrite preprocess_expression_eq. split.
  - rewrite !has_star_between by discriminate. apply has_without_caret.
  - unfold implicit_product. apply orb_false_iff. split.
    + apply adjacent_star_between; [reflexivity|reflexivity|]. left.
      apply adjacent_star_between; [reflexivity|reflexivity|]. now right.
    + apply adjacent_star_between; [reflexivity|reflexivity|]. now right.
Qed.

(** X1.  What the preprocessor establishes, and exactly which texts it
    leaves alone: the preprocessed text holds no caret and no product
    without its sign, and a text is unchanged by the preprocessor if and
    only if it holds neither. *)
Theorem preprocess_expression_fixed_points (s : str) :
  (Str.has (preprocess_expression s) Ch.caret = false
   /\ implicit_product (preprocess_expression s) = false)
  /\ (preprocess_expression s = s <->
      Str.has s Ch.caret = false /\ implicit_product s = false).
Proof.
  split; [apply preprocess_normal_form|]. split.
  - intros H. rewrite <- H. apply preprocess_normal_form.
  - intros [Hc Hp]. unfold implicit_product in Hp.
    apply orb_false_iff in Hp as [H1 H2].
    rewrite preprocess_expression_eq, (without_caret_fixed s Hc).
    rewrite (star_between_fixed _ _ s H1). now apply star_between_fixed.
Qed.

(** ** The characters the loops write *)

Lemma In_alphabet lit c :
  forallb (fun e => existsb (N.eqb e) call_alphabet) lit = true ->
  In c lit -> In c call_alphabet.
Proof.
  intros H Hc. apply (proj1 (forallb_forall _ _) H) in Hc.
  apply existsb_exists in Hc as [e [He Hce]]. apply N.eqb_eq in Hce. now subst.
Qed.

Lemma In_sin_x c m : In c (sin_x m) -> In c m \/ In c call_alphabet.
Proof.
  destruct (sin_x_cases m) as [-> | ->]; [now left|]. right.
  now apply (In_alphabet (py "sin(x)")).
Qed.

Lemma In_infinity c m : In c (infinity m) -> In c m \/ In c call_alphabet.
Proof.
  unfold infinity. destruct (Str.among m _).
  - right. now apply (In_alphabet (py "oo")).
  - destruct (Str.among m _); [right|now left].
    now apply (In_alphabet (py "-oo")).
Qed.

Lemma In_stripped c s : In c (Str.strip s) -> In c s.
Proof.
  intros H. destruct (strip_infix s) as [l [r Hs]]. rewrite Hs.
  apply in_or_app. right. apply in_or_app. now left.
Qed.

Lemma In_removelast (c : char) s : In c (removelast s) -> In c s.
Proof.
  induction s as [|e s IH]; [contradiction|].
  destruct s as [|e' s]; [contradiction|].
  change (removelast (e :: e' :: s)) with (e :: removelast (e' :: s)).
  intros [->|H]; [now left|right; now apply IH].
Qed.

Lemma In_integrand_fixups c s v :
  In c (integrand_fixups s v) -> In c s \/ In c call_alphabet.
Proof.
  unfold integrand_fixups.
  set (s1 := if Str.isdigit s && Str.eqb v (py "x") then _ else _).
  assert (H1 : In c s1 -> In c s \/ In c call_alphabet).
  { subst s1. destruct (Str.isdigit s && Str.eqb v (py "x")).
    - intros H. apply in_app_or in H as [H|H]; [now left|right].
      now apply (In_alphabet (py "*x")).
    - destruct s as [|c0 [|c1 s]]; auto.
      destruct (is_digit c0 && Str.eqb [c1] v); auto.
      intros H. apply in_app_or in H as [H|H].
      + left. destruct H as [->|[]]. now left.
      + apply in_app_or in H as [H|H]; [right|left; now right].
        now apply (In_alphabet (py "*")). }
  destruct (Str.endswith_char s1 Ch.rparen && _); [|assumption].
  unfold Str.drop_last. intros H. apply In_stripped, In_removelast in H. auto.
Qed.

Ltac rule_opens step p :=
  let f := fresh "f" in
  let Hs := fresh "Hs" in
  let H := fresh "H" in
  intros ? ?; unfold step; fold p;
  destruct (search p _) as [f|] eqn:Hs; [|discriminate];
  intros H; inversion H; subst; clear H;
  apply search_sound in Hs as [Hs HF];
  destruct f as [b ms a]; simpl before in *; simpl matched in *;
  simpl after in *; unfold splice; simpl before; simpl after;
  rewrite Hs; clear Hs;
  expand_pattern p; split_pieces;
  cbv [group captures cap nth pred concat];
  rewrite ?app_nil_r.

Ltac settle K :=
  lazymatch type of K with
  | In _ call_alphabet => right; exact K
  | In _ [] => destruct K
  | In _ (_ :: _) =>
      apply in_inv in K; destruct K as [K|K];
      [subst; right; vm_compute; tauto | settle K]
  | In _ (_ ++ _) => apply in_app_or in K; destruct K as [K|K]; settle K
  | In _ (sin_x _) => apply In_sin_x in K; destruct K as [K|K]; settle K
  | In _ (infinity _) => apply In_infinity in K; destruct K as [K|K]; settle K
  | In _ (integrand_fixups _ _) =>
      apply In_integrand_fixups in K; destruct K as [K|K]; settle K
  | In _ (Str.strip _) => apply In_stripped in K; settle K
  | In _ (py ?s) => apply (In_alphabet (py s) _ eq_refl) in K; settle K
  | _ => repeat rewrite in_app_iff; tauto
  end.

Ltac rule_within step p :=
  rule_opens step p;
  let c := fresh "c" in let Hc := fresh "Hc" in
  intros c Hc; settle Hc.

Lemma rules_write_calls :
  Forall writes_calls rewrite_rules.
Proof.
  unfold rewrite_rules, writes_calls. repeat apply Forall_cons; [..|apply Forall_nil].
  - rule_within second_derivative_step second_derivative_pattern.
  - rule_within partial_derivative_step partial_derivative_pattern.
  - rule_within second_partial_step second_partial_pattern.
  - rule_within mixed_partial_step mixed_partial_pattern.
  - rule_within derivative_step derivative_pattern.
  - rule_within definite_integral_step definite_integral_pattern.
  - rule_within integral_step integral_pattern.
  - rule_within limit_step limit_pattern.
Qed.

Lemma rewrite_loop_writes_calls step fuel :
  writes_calls step ->
  forall e r, rewrite_loop step fuel e = Some r ->
  forall c, In c r -> In c e \/ In c call_alphabet.
Proof.
  intros Hw. induction fuel as [|fuel IH]; intros e r H c Hc;
    rewrite rewrite_loop_unfold in H;
    destruct (step e) as [e'|] eqn:He; try discriminate;
    try (injection H as <-; now left).
  destruct (IH _ _ H c Hc) as [H'|H']; [|now right].
  exact (Hw _ _ He c H').
Qed.

Lemma run_loops_writes_calls rules fuel :
  Forall writes_calls rules ->
  forall e r, run_loops rules fuel e = Some r ->
  forall c, In c r -> In c e \/ In c call_alphabet.
Proof.
  induction 1 as [|step rules Hw _ IH]; intros e r H c Hc; simpl in H.
  - injection H as <-. now left.
  - destruct (rewrite_loop step fuel e) as [e'|] eqn:He; [|discriminate].
    destruct (IH _ _ H c Hc) as [H'|H']; [|now right].
    exact (rewrite_loop_writes_calls _ _ Hw _ _ He c H').
Qed.

Lemma In_preprocess c s :
  In c (preprocess_expression s) -> In c s \/ c = Ch.star.
Proof.
  intros H. destruct (N.eq_dec c Ch.star) as [|Hs]; [now right|left].
  destruct (N.eq_dec c Ch.caret) as [->|Hc].
  - apply has_In in H. destruct (preprocess_normal_form s). congruence.
  - apply has_In. rewrite <- (has_preprocess c s Hs Hc). now apply has_In.
Qed.

(** X3.  The rewrite loops write nothing but the call forms: whatever
    the input, every character of the text they return occurs in the input
    or in the calls [diff(..., 2)], [integrate(...)], [limit(...)],
    [sin(x)], [oo] and [-oo] and the star of a product. *)
Theorem loops_write_call_forms (s r : str) (fuel : nat) :
  run_loops rewrite_rules fuel (preprocess_expression s) = Some r ->
  forall c, In c r -> In c s \/ In c call_alphabet.
Proof.
  intros H c Hc.
  destruct (run_loops_writes_calls _ _ rules_write_calls _ _ H c Hc)
    as [H'|H']; [|now right].
  apply In_preprocess in H' as [H'| ->]; [now left|right].
  vm_compute. tauto.
Qed.

Lemma loops_write_call_forms_witness :
  run_loops rewrite_rules 2 (preprocess_expression (py "d/dx(x^2) + ∫x dx"))
  = Some (py "diff(x**2, x) + integrate(x, x)")
  /\ forall c, In c (py "diff(x**2, x) + integrate(x, x)") ->
               In c (py "d/dx(x^2) + ∫x dx") \/ In c call_alphabet.
Proof.
  assert (H : run_loops rewrite_rules 2
                (preprocess_expression (py "d/dx(x^2) + ∫x dx"))
              = Some (py "diff(x**2, x) + integrate(x, x)"))
    by (vm_compute; reflexivity).
  split; [exact H|].
  exact (loops_write_call_forms (py "d/dx(x^2) + ∫x dx") _ 2 H).
Defined.

(** ** The loop of the definite integrals *)

Lemma run_loops_app l1 l2 fuel : forall e,
  run_loops (l1 ++ l2) fuel e =
  match run_loops l1 fuel e with
  | Some e' => run_loops l2 fuel e'
  | None => None
  end.
Proof.
  induction l1 as [|step l1 IH]; intros e; simpl; [reflexivity|].
  destruct (rewrite_loop step fuel e); [apply IH|reflexivity].
Qed.

Lemma definite_integral_needs_a_caret e :
  Str.has e Ch.caret = false -> definite_integral_step e = None.
Proof.
  intros H. step_none. apply (search_none_literal _ _ Ch.caret); [pick|exact H].
Qed.

(** X4.  The loop for definite integrals never turns: its pattern spells
    out a caret, the preprocessor has replaced every caret by two stars,
    and the five loops before it write none; the parser's loops give what
    the seven others give alone. *)
Theorem definite_integral_loop_never_turns (s : str) (fuel : nat) :
  run_loops rewrite_rules fuel (preprocess_expression s)
  = run_loops rules_without_definite_integral fuel (preprocess_expression s).
Proof.
  change rewrite_rules
    with ([ second_derivative_step; partial_derivative_step;
            second_partial_step; mixed_partial_step; derivative_step ]
          ++ definite_integral_step :: [ integral_step; limit_step ]).
  change rules_without_definite_integral
    with ([ second_derivative_step; partial_derivative_step;
            second_partial_step; mixed_partial_step; derivative_step ]
          ++ [ integral_step; limit_step ]).
  rewrite !run_loops_app.
  destruct (run_loops _ fuel (preprocess_expression s)) as [e|] eqn:He;
    [|reflexivity].
  change (run_loops (definite_integral_step :: ?l) fuel e)
    with (match rewrite_loop definite_integral_step fuel e with
          | Some e' => run_loops l fuel e'
          | None => None
          end).
  rewrite rewrite_loop_idle; [reflexivity|].
  apply definite_integral_needs_a_caret.
  destruct (Str.has e Ch.caret) eqn:Hc; [|reflexivity].
  apply has_In in Hc.
  assert (Hw : Forall writes_calls
                 [ second_derivative_step; partial_derivative_step;
                   second_partial_step; mixed_partial_step; derivative_step ]).
  { pose proof rules_write_calls as H. unfold rewrite_rules in H.
    repeat match goal with
           | H : Forall _ (_ :: _) |- _ => inversion H; subst; clear H
           end.
    repeat (apply Forall_cons; [assumption|]). apply Forall_nil. }
  destruct (run_loops_writes_calls _ _ Hw _ _ He _ Hc) as [H|H].
  - apply has_In in H. destruct (preprocess_normal_form s). congruence.
  - vm_compute in H. repeat (destruct H as [H|H]; [discriminate|]).
    destruct H.
Qed.

(** ** Texts without notation *)

Lemma weight_zero s :
  weight s = 0%nat ->
  Str.has s Ch.slash = false /\ Str.has s Ch.integral = false
  /\ Str.has s Ch.gt = false.
Proof.
  induction s as [|c s IH]; [now repeat split|].
  rewrite weight_cons, !has_cons. unfold glyph.
  rewrite !(N.eqb_sym _ c).
  destruct (N.eqb c Ch.slash), (N.eqb c Ch.integral), (N.eqb c Ch.gt);
    simpl; try discriminate. exact IH.
Qed.

Lemma among_needs s c options :
  Str.has s c = false ->
  forallb (fun o => Str.has o c) options = true ->
  Str.among (Str.strip s) options = false.
Proof.
  intros Hs Ho. destruct (Str.among _ _) eqn:H; [|reflexivity].
  apply among_In in H.
  apply (proj1 (forallb_forall _ _) Ho) in H.
  apply has_In, In_stripped, has_In in H. congruence.
Qed.

Lemma loops_idle e fuel :
  weight e = 0%nat -> run_loops rewrite_rules fuel e = Some e.
Proof.
  intros H. apply weight_zero in H as [Hs [Hi Hg]].
  unfold rewrite_rules, run_loops.
  repeat (rewrite rewrite_loop_idle;
          [cbv beta iota|step_none;
            first [ apply (search_none_literal _ _ Ch.slash); [solve [pick]|exact Hs]
                  | apply (search_none_literal _ _ Ch.integral); [solve [pick]|exact Hi]
                  | apply (search_none_literal _ _ Ch.gt); [solve [pick]|exact Hg] ]]).
  reflexivity.
Qed.

Lemma parse_without_glyphs s fuel :
  weight s = 0%nat ->
  parse_combined_expression fuel s = Some (preprocess_expression s).
Proof.
  intros H. pose proof H as Hw.
  apply weight_zero in H as [Hs [Hi Hg]].
  unfold parse_combined_expression.
  rewrite (literal_examples_plain s Hi Hg). cbv zeta.
  rewrite !(among_needs s Ch.slash _ Hs) by reflexivity.
  replace (leading_integral s) with (@None str).
  2:{ unfold leading_integral. change (py "∫") with [Ch.integral].
      destruct (Str.startswith (Str.strip s) [Ch.integral]) eqn:H;
        [|reflexivity].
      apply startswith_has, has_In, In_stripped, has_In in H. congruence. }
  assert (Hs' : Str.has (preprocess_expression s) Ch.slash = false)
    by (now rewrite has_preprocess).
  assert (Hi' : Str.has (preprocess_expression s) Ch.integral = false)
    by (now rewrite has_preprocess).
  replace (first_of nested_forms (preprocess_expression s)) with (@None str).
  2:{ unfold first_of, nested_forms, fold_right, derivative_of_integral,
        derivative_of_limit, integral_of_limit.
      rewrite (search_none_literal special_case _ Ch.integral)
        by (pick || exact Hi').
      rewrite (search_none_literal limit_derivative_pattern _ Ch.slash)
        by (pick || exact Hs').
      rewrite (search_none_literal limit_integral_pattern _ Ch.integral)
        by (pick || exact Hi').
      reflexivity. }
  apply loops_idle. now rewrite weight_preprocess.
Qed.

Lemma preprocess_again s :
  preprocess_expression (preprocess_expression s) = preprocess_expression s.
Proof.
  destruct (preprocess_normal_form s) as [Hc Hp].
  unfold implicit_product in Hp. apply orb_false_iff in Hp as [H1 H2].
  rewrite (preprocess_expression_eq (preprocess_expression s)).
  rewrite (without_caret_fixed _ Hc), (star_between_fixed _ _ _ H1).
  now apply star_between_fixed.
Qed.

(** X5.  A text without a slash, an integral sign or an arrow head holds
    no notation the parser knows: whatever the number of turns allowed,
    the parser returns it preprocessed and otherwise untouched, and parsing
    what it returned changes nothing more. *)
Theorem text_without_notation_is_only_preprocessed (s : str) (fuel : nat) :
  weight s = 0%nat ->
  parse_combined_expression fuel s = Some (preprocess_expression s)
  /\ parse_combined_expression fuel (preprocess_expression s)
     = Some (preprocess_expression s).
Proof.
  intros H. split; [now apply parse_without_glyphs|].
  rewrite parse_without_glyphs by (now rewrite weight_preprocess).
  now rewrite preprocess_again.
Qed.

Lemma text_without_notation_is_only_preprocessed_witness :
  parse_combined_expression 0 (py "2x^2 + 3(x)y") = Some (py "2*x**2 + 3*(x)*y")
  /\ parse_combined_expression 0 (py "2*x**2 + 3*(x)*y")
     = Some (py "2*x**2 + 3*(x)*y").
Proof.
  exact (text_without_notation_is_only_preprocessed (py "2x^2 + 3(x)y") 0
           eq_refl).
Defined.

(** ** What a call returns *)

Ltac by_cases H :=
  repeat match type of H with
         | context [match ?x with _ => _ end] => destruct x eqn:?
         | context [if ?x then _ else _] => destruct x eqn:?
         end.

Lemma fast_path_outcomes engine s r :
  fast_path engine s = Some r ->
  (exists e, r = inl e)
  \/ exists result parsed more,
       r = inr (Success engine result parsed (original s :: more)).
Proof.
  unfold fast_path, bind. cbv zeta. intros H. by_cases H;
    try discriminate; injection H as <-;
    solve [left; eexists; reflexivity
          |right; do 3 eexists; reflexivity].
Qed.

Lemma just_an_integral_outcomes engine s parsed r :
  just_an_integral engine s parsed = inr (Some r) ->
  exists result more, r = Success engine result parsed (original s :: more).
Proof.
  unfold just_an_integral, integrate_text, integration_steps, bind.
  cbv zeta. intros H. by_cases H; try discriminate.
  injection H as <-. do 2 eexists; reflexivity.
Qed.

Lemma evaluate_parsed_outcomes engine s parsed r :
  evaluate_parsed engine s parsed = inr r ->
  exists result more, r = Success engine result parsed (original s :: more).
Proof.
  unfold evaluate_parsed, bind. intros H. by_cases H; try discriminate;
    injection H as <-; do 2 eexists; reflexivity.
Qed.

Lemma fallback_outcomes engine s parsed e r shown :
  fallback engine s parsed e = (r, shown) ->
  (exists result more,
     r = inr (Success engine result parsed (original s :: more)))
  \/ (r = inr (ReturnsNone engine)
      /\ Str.startswith parsed (py "integrate(") = true
      /\ In (st_warning (py "Attempting direct integration...")) shown)
  \/ (r = inl e /\ shown = []
      /\ Str.eqb parsed (py "sin(x)") = false
      /\ Str.startswith parsed (py "integrate(") = false).
Proof.
  unfold fallback, integration_steps. cbv zeta. intros H.
  by_cases H; injection H as <- <-;
    solve [ left; do 2 eexists; reflexivity
          | right; left; split; [reflexivity|split; [reflexivity|]];
            solve [now left | apply in_or_app; left; now left]
          | right; right; repeat split; reflexivity ].
Qed.

Lemma pipeline_outcomes engine s parsed r shown :
  pipeline engine s parsed = (r, shown) ->
  (exists result more,
     r = inr (Success engine result parsed (original s :: more)))
  \/ (r = inr (ReturnsNone engine)
      /\ Str.startswith parsed (py "integrate(") = true
      /\ (exists e, evaluate_parsed engine s parsed = inl e)
      /\ In (st_warning (py "Attempting direct integration...")) shown)
  \/ (exists e, r = inl e
      /\ evaluate_parsed engine s parsed = inl e
      /\ Str.eqb parsed (py "sin(x)") = false
      /\ Str.startswith parsed (py "integrate(") = false).
Proof.
  unfold pipeline. cbv zeta.
  destruct (Str.eqb (Str.strip s) _).
  { intros H. injection H as <- <-. left. do 2 eexists; reflexivity. }
  set (special := if Str.startswith _ _ && _ && _ then _ else _).
  assert (Hs : forall r0 shown0, special = (Some r0, shown0) ->
            exists result more,
              r0 = Success engine result parsed (original s :: more)).
  { subst special. intros r0 shown0.
    destruct (Str.startswith _ _ && _ && _); [|discriminate].
    destruct (just_an_integral engine s parsed) as [e|o] eqn:Hj;
      [discriminate|].
    intros H. injection H as -> <-.
    now apply just_an_integral_outcomes in Hj. }
  destruct special as [[r0|] shown0].
  { intros H. injection H as <- <-.
    destruct (Hs r0 shown0 eq_refl) as [result [more ->]].
    left. do 2 eexists; reflexivity. }
  clear Hs.
  destruct (evaluate_parsed engine s parsed) as [e|r0] eqn:He.
  - destruct (fallback engine s parsed e) as [r1 shown1] eqn:Hf.
    intros H. injection H as <- <-.
    apply fallback_outcomes in Hf as [Hf|[[-> [H1 H2]]|[-> [-> [H1 H2]]]]].
    + now left.
    + right. left. repeat split; [assumption|now exists e|].
      apply in_cons, in_or_app. now right.
    + right. right. exists e. auto.
  - intros H. injection H as <- <-.
    apply evaluate_parsed_outcomes in He as [result [more ->]].
    left. do 2 eexists; reflexivity.
Qed.

(** X6.  A call that returns comes back without a value only one way:
    the parsed text starts with [integrate(], evaluating it raised, and the
    direct integration announced by a warning gave nothing either. *)
Theorem none_only_after_direct_integration (engine : Engine) (fuel : nat)
  (s : str) (shown : list notification) :
  evaluate_combined_expression engine fuel s
  = Some (ReturnsNone engine, shown) ->
  exists parsed,
    parse_combined_expression fuel s = Some parsed
    /\ Str.startswith parsed (py "integrate(") = true
    /\ (exists e, evaluate_parsed engine s parsed = inl e)
    /\ In (st_warning (py "Attempting direct integration...")) shown.
Proof.
  unfold evaluate_combined_expression.
  destruct (fast_path engine s) as [r|] eqn:Hf.
  - apply fast_path_outcomes in Hf as [[e ->]|[result [p [more ->]]]];
      discriminate.
  - destruct (parse_combined_expression fuel s) as [parsed|]; [|discriminate].
    destruct (pipeline engine s parsed) as [r shown'] eqn:Hp.
    intros H. injection H as H <-. exists parsed.
    apply pipeline_outcomes in Hp
      as [[result [more ->]]|[[-> H']|[e [-> _]]]]; try discriminate.
    split; [reflexivity|exact H'].
Qed.

Lemma none_only_after_direct_integration_witness :
  exists parsed,
    parse_combined_expression 0 (py "∫(d/dx(sin(x))) dx") = Some parsed
    /\ Str.startswith parsed (py "integrate(") = true
    /\ (exists e, evaluate_parsed formal_engine (py "∫(d/dx(sin(x))) dx")
                    parsed = inl e)
    /\ In (st_warning (py "Attempting direct integration..."))
          [ st_info (py "Parsed expression: `integrate((, x)`");
            st_warning (py "Special case handling failed: invalid syntax");
            st_warning (py "Attempting direct integration...");
            st_error (py "Direct integration failed: invalid syntax") ].
Proof.
  refine (none_only_after_direct_integration formal_engine 0
            (py "∫(d/dx(sin(x))) dx") _ _).
  vm_compute. reflexivity.
Defined.

(** X7.  Every success dictionary reports the input first: its steps
    start with [Original expression: ] followed by the text the caller
    passed, unchanged; and unless the catalogue of the fast path answered,
    its parsed text is what the parser returned. *)
Theorem success_reports_the_input (engine : Engine) (fuel : nat) (s : str)
  (result : sym engine) (parsed : str) (steps : list str)
  (shown : list notification) :
  evaluate_combined_expression engine fuel s
  = Some (Success engine result parsed steps, shown) ->
  (exists more, steps = (py "Original expression: " ++ s) :: more)
  /\ (fast_path engine s = None ->
      parse_combined_expression fuel s = Some parsed).
Proof.
  unfold evaluate_combined_expression.
  destruct (fast_path engine s) as [r|] eqn:Hf.
  - apply fast_path_outcomes in Hf as [[e ->]|[result' [p [more ->]]]];
      [discriminate|].
    intros H. injection H as _ _ <- _. split; [now exists more|discriminate].
  - destruct (parse_combined_expression fuel s) as [parsed'|]; [|discriminate].
    destruct (pipeline engine s parsed') as [r shown'] eqn:Hp.
    intros H. injection H as H _.
    apply pipeline_outcomes in Hp
      as [[result' [more ->]]|[[-> H']|[e [-> _]]]]; try discriminate.
    injection H as _ <- <-. split; [now exists more|reflexivity].
Qed.

Lemma success_reports_the_input_witness :
  (exists more,
     [ py "Original expression: 2x + 1"; py "Parsed as: 2*x + 1";
       py "Evaluated result: 2*x + 1" ]
     = (py "Original expression: " ++ py "2x + 1") :: more)
  /\ (fast_path formal_engine (py "2x + 1") = None ->
      parse_combined_expression 0 (py "2x + 1") = Some (py "2*x + 1")).
Proof.
  refine (success_reports_the_input formal_engine 0 (py "2x + 1")
            (py "2*x + 1") _ _ [ st_info (py "Parsed expression: `2*x + 1`") ]
            _).
  vm_compute. reflexivity.
Defined.

(** X8.  An error dictionary is returned for two exceptions only: one of
    the fast path, before any parsing, and then it holds no parsed text; or
    the one raised by evaluating the parsed text, when that text is neither
    [sin(x)] nor a call of [integrate].  The exceptions of the two
    integration paths never reach the caller as an error dictionary. *)
Theorem error_is_of_the_evaluation (engine : Engine) (fuel : nat) (s : str)
  (message : str) (parsed : option str) (shown : list notification) :
  evaluate_combined_expression engine fuel s
  = Some (Failure engine message parsed, shown) ->
  match parsed with
  | None => fast_path engine s = Some (inl message) /\ shown = []
  | Some parsed_expr =>
      fast_path engine s = None
      /\ parse_combined_expression fuel s = Some parsed_expr
      /\ evaluate_parsed engine s parsed_expr = inl message
      /\ Str.eqb parsed_expr (py "sin(x)") = false
      /\ Str.startswith parsed_expr (py "integrate(") = false
  end.
Proof.
  unfold evaluate_combined_expression.
  destruct (fast_path engine s) as [r|] eqn:Hf.
  - apply fast_path_outcomes in Hf as [[e ->]|[result' [p [more ->]]]];
      [|discriminate].
    intros H. injection H as <- <- <-. auto.
  - destruct (parse_combined_expression fuel s) as [parsed'|]; [|discriminate].
    destruct (pipeline engine s parsed') as [r shown'] eqn:Hp.
    intros H. injection H as H _.
    apply pipeline_outcomes in Hp
      as [[result' [more ->]]|[[-> H']|[e [-> H']]]]; try discriminate.
    injection H as <- <-. auto.
Qed.

Lemma error_is_of_the_evaluation_witness :
  fast_path formal_engine (py "(x + 1") = None
  /\ parse_combined_expression 0 (py "(x + 1") = Some (py "(x + 1")
  /\ evaluate_parsed formal_engine (py "(x + 1") (py "(x + 1")
     = inl (py "invalid syntax")
  /\ Str.eqb (py "(x + 1") (py "sin(x)") = false
  /\ Str.startswith (py "(x + 1") (py "integrate(") = false.
Proof.
  refine (error_is_of_the_evaluation formal_engine 0 (py "(x + 1")
            (py "invalid syntax") (Some (py "(x + 1"))
            [ st_info (py "Parsed expression: `(x + 1`") ] _).
  vm_compute. reflexivity.
Defined.

(** ** Inputs that start with the integral sign *)

Lemma split_nonempty sep s : Str.split sep s <> [].
Proof.
  destruct s as [|c s]; simpl; [discriminate|].
  destruct (N.eqb c sep); [discriminate|].
  destruct (Str.split sep s); discriminate.
Qed.

Lemma split_has sep s :
  Str.has s sep = true -> (2 <= List.length (Str.split sep s))%nat.
Proof.
  induction s as [|c s IH]; [discriminate|].
  rewrite has_cons, (N.eqb_sym sep c). simpl.
  destruct (N.eqb c sep); simpl.
  - intros _. pose proof (split_nonempty sep s).
    destruct (Str.split sep s); [congruence|simpl; lia].
  - intros H. specialize (IH H).
    destruct (Str.split sep s); simpl in *; lia.
Qed.

Lemma split_none sep s : Str.has s sep = false -> Str.split sep s = [s].
Proof.
  induction s as [|c s IH]; [reflexivity|].
  rewrite has_cons, (N.eqb_sym sep c). simpl.
  destruct (N.eqb c sep); [discriminate|]. simpl. intros H.
  now rewrite (IH H).
Qed.

Lemma split_once sep a b :
  Str.has a sep = false -> Str.has b sep = false ->
  Str.split sep (a ++ sep :: b) = [a; b].
Proof.
  intros Ha Hb. induction a as [|c a IH]; simpl.
  - now rewrite N.eqb_refl, (split_none sep b Hb).
  - rewrite has_cons, (N.eqb_sym sep c) in Ha.
    apply orb_false_iff in Ha as [Hc Ha]. now rewrite Hc, (IH Ha).
Qed.

Lemma strip_starts s c n :
  Str.startswith (Str.strip s) (c :: n) = true ->
  forall e m, is_space e = false -> e <> c ->
  Str.startswith s (e :: m) = false.
Proof.
  intros H e m He Hec.
  destruct (Str.startswith s (e :: m)) eqn:Hs; [|reflexivity].
  apply startswith_app in Hs as [r Hs].
  apply startswith_app in H as [r' H].
  destruct (lstrip_spaces s) as [l [Hl Hsp]].
  destruct (rstrip_prefix (Str.lstrip s)) as [r'' Hr].
  fold (Str.strip s) in Hr. rewrite H in Hr. rewrite Hr, Hs in Hl.
  destruct l as [|a l]; simpl in Hl; injection Hl as Hl _.
  - congruence.
  - inversion Hsp; subst. congruence.
Qed.

Lemma leading_integral_returns s :
  Str.startswith (Str.strip s) (py "∫") = true ->
  Str.contains s (py "d") = true ->
  exists r, leading_integral s = Some r.
Proof.
  intros Hi Hd. unfold leading_integral. rewrite Hi, Hd.
  change (py "∫") with [Ch.integral] in Hi.
  change (py "d/d") with [Ch.d; Ch.slash; Ch.d].
  rewrite (strip_starts s _ _ Hi) by (reflexivity || discriminate).
  cbv zeta. simpl andb. cbv iota.
  destruct (search derivative_in_integral_pattern s) as [f|].
  - destruct (Str.eqb _ _); eexists; reflexivity.
  - replace (2 <=? _)%nat with true; [eexists; reflexivity|].
    symmetry. apply Nat.leb_le, split_has, has_In.
    apply In_strip; [|reflexivity].
    apply (contains_In _ _ _ Hd). now left.
Qed.

(** X9.  An input that starts with the integral sign and holds a [d] is
    never preprocessed and meets none of the rewrite loops: the parser
    answers it from the catalogue or from the block of lines 70 to 90,
    whatever the number of turns allowed. *)
Theorem integral_inputs_skip_the_loops (s : str) :
  Str.startswith (Str.strip s) (py "∫") = true ->
  Str.contains s (py "d") = true ->
  exists r,
    (forall fuel, parse_combined_expression fuel s = Some r)
    /\ (literal_examples s = Some r
        \/ literal_examples s = None /\ leading_integral s = Some r).
Proof.
  intros Hi Hd. destruct (leading_integral_returns s Hi Hd) as [r Hr].
  unfold parse_combined_expression.
  destruct (literal_examples s) as [l|].
  - exists l. split; [reflexivity|now left].
  - exists r. rewrite Hr. split; [reflexivity|now right].
Qed.

Lemma integral_inputs_skip_the_loops_witness :
  exists r,
    (forall fuel, parse_combined_expression fuel (py " ∫ 2x^2 dx dy ") = Some r)
    /\ (literal_examples (py " ∫ 2x^2 dx dy ") = Some r
        \/ literal_examples (py " ∫ 2x^2 dx dy ") = None
           /\ leading_integral (py " ∫ 2x^2 dx dy ") = Some r).
Proof.
  apply (integral_inputs_skip_the_loops (py " ∫ 2x^2 dx dy "));
    vm_compute; reflexivity.
Defined.

(** ** The catalogue, in the parser and in the evaluator *)

Lemma among_four s a b c d :
  Str.among s [c; a; d; b] = Str.among s [a; b; c; d]
  /\ Str.among s [b; a; d; c] = Str.among s [a; b; c; d].
Proof.
  unfold Str.among. simpl.
  destruct (Str.eqb s a), (Str.eqb s b), (Str.eqb s c), (Str.eqb s d);
    split; reflexivity.
Qed.

Lemma fast_path_catalogue engine s :
  match literal_examples s with
  | None => fast_path engine s = None
  | Some parsed =>
      exists r, fast_path engine s = Some r
        /\ ((exists e, r = inl e)
            \/ exists result more,
                 r = inr (Success engine result parsed (original s :: more)))
  end.
Proof.
  unfold fast_path, literal_examples. cbv zeta.
  rewrite (proj1 (among_four (Str.strip s) (py "d²/dx²(sin(x))")
                    (py "d²/dx²(sin x)") (py "d²/dx² sin(x)")
                    (py "d²/dx² sin x"))).
  rewrite (proj2 (among_four (Str.strip s) (py "∂/∂x(sin(x))")
                    (py "∂/∂x sin(x)") (py "∂/∂x(sin x)")
                    (py "∂/∂x sin x"))).
  repeat match goal with
         | |- context [if ?b then _ else _] => destruct b
         end;
    try reflexivity; unfold bind;
    try match goal with
        | |- context [sympify engine ?t] => destruct (sympify engine t)
        end;
    eexists; (split; [reflexivity|]);
    solve [left; eexists; reflexivity | right; do 2 eexists; reflexivity].
Qed.

(** X10.  The fast path of the evaluator and the catalogue of the parser
    answer the same inputs, with the same parsed text: when the catalogue
    has no answer the fast path has none, and when the catalogue answers,
    the fast path returns, unless the engine raises, a success dictionary
    that holds the catalogue's answer as its parsed text. *)
Theorem fast_path_follows_the_catalogue (engine : Engine) (s : str) :
  match literal_examples s with
  | None => fast_path engine s = None
  | Some parsed =>
      exists r, fast_path engine s = Some r
        /\ ((exists e, r = inl e)
            \/ exists result steps,
                 r = inr (Success engine result parsed steps))
  end.
Proof.
  pose proof (fast_path_catalogue engine s) as H.
  destruct (literal_examples s) as [parsed|]; [|exact H].
  destruct H as [r [Hr H]]. exists r. split; [exact Hr|].
  destruct H as [He|[result [more He]]]; [now left|right].
  now exists result, (original s :: more).
Qed.

(** ** An integral on its own *)

Section SimpleIntegral.
Variables (E v : str).
Hypothesis E_without_d : Str.has E Ch.d = false.
Hypothesis v_without_d : Str.has v Ch.d = false.
Hypothesis v_without_slash : Str.has v Ch.slash = false.
Hypothesis E_without_arrow : Str.has E Ch.gt = false.
Hypothesis v_without_arrow : Str.has v Ch.gt = false.
Hypothesis v_ends : is_space (last v Ch.d) = false.

Let text : str := py "∫" ++ E ++ py "d" ++ v.
Let call : str :=
  py "integrate(" ++ Str.strip E ++ py ", " ++ Str.strip v ++ py ")".

Lemma simple_stripped : Str.strip text = text.
Proof.
  apply strip_ends; [reflexivity|]. unfold text.
  change (py "∫" ++ E ++ py "d" ++ v) with ((Ch.integral :: E) ++ Ch.d :: v).
  destruct v as [|c w] using rev_ind.
  - now rewrite last_last.
  - clear IHw. rewrite last_last in v_ends.
    change ((Ch.integral :: E) ++ Ch.d :: w ++ [c])
      with ((Ch.integral :: E) ++ (Ch.d :: w) ++ [c]).
    now rewrite app_assoc, last_last.
Qed.

Lemma simple_apart : adjacent (N.eqb Ch.d) (N.eqb Ch.slash) text = false.
Proof.
  unfold text.
  change (py "∫" ++ E ++ py "d" ++ v) with ((Ch.integral :: E) ++ Ch.d :: v).
  rewrite adjacent_split, adjacent_before, adjacent_after; try reflexivity.
  - exact v_without_slash.
  - simpl. exact E_without_d.
Qed.

Lemma simple_without_arrow : Str.has text Ch.gt = false.
Proof.
  unfold text. rewrite !has_app, E_without_arrow, v_without_arrow.
  reflexivity.
Qed.

Lemma simple_not_literal : literal_examples text = None.
Proof.
  unfold literal_examples. cbv zeta. rewrite simple_stripped.
  assert (Ha : forall options,
             forallb (fun o => negb (Str.startswith o (py "∫"))) options = true ->
             Str.among text options = false).
  { intros options Ho. destruct (Str.among text options) eqn:H; [|reflexivity].
    apply among_In in H. apply (proj1 (forallb_forall _ _) Ho) in H.
    unfold text in H. discriminate. }
  rewrite !Ha by reflexivity.
  rewrite !(contains_apart _ _ _ _ simple_apart) by reflexivity.
  rewrite !(contains_without _ _ Ch.gt simple_without_arrow) by reflexivity.
  reflexivity.
Qed.

Lemma simple_parts : Str.split Ch.d text = [ py "∫" ++ E; v ].
Proof.
  unfold text. change (py "∫" ++ E ++ py "d" ++ v)
    with ((py "∫" ++ E) ++ Ch.d :: v).
  apply split_once; [|exact v_without_d].
  rewrite has_app, E_without_d. reflexivity.
Qed.

Lemma simple_condition :
  Str.startswith (Str.strip text) (py "∫") && Str.contains text (py "d")
  && negb (Str.startswith text (py "d/d")) = true.
Proof.
  rewrite simple_stripped.
  replace (Str.contains text (py "d")) with true; [reflexivity|].
  symmetry. unfold text. change (py "∫") with [Ch.integral].
  change ([Ch.integral] ++ E ++ py "d" ++ v) with (Ch.integral :: E ++ py "d" ++ v).
  rewrite contains_cons. apply orb_true_iff. right.
  clear E_without_d E_without_arrow text call.
  induction E as [|c E' IH]; [reflexivity|].
  change ((c :: E') ++ py "d" ++ v) with (c :: E' ++ py "d" ++ v).
  rewrite contains_cons, IH. apply orb_true_r.
Qed.

Lemma simple_leading : leading_integral text = Some call.
Proof.
  unfold leading_integral. rewrite simple_condition. cbv zeta.
  rewrite (search_none_apart derivative_in_integral_pattern text
             (lits (py "∫") ++ [ ws; lit Ch.lparen; ws ])
             (lit Ch.d) (lit Ch.slash)
             [ lit Ch.d; group_one is_lower; ws; lit Ch.lparen;
               group_plus not_paren; lit Ch.rparen; ws; lit Ch.rparen; ws;
               lit Ch.d; group_one is_lower ]
             eq_refl eq_refl eq_refl simple_apart).
  rewrite simple_stripped, simple_parts. reflexivity.
Qed.

Lemma simple_parsed fuel : parse_combined_expression fuel text = Some call.
Proof.
  unfold parse_combined_expression.
  now rewrite simple_not_literal, simple_leading.
Qed.

Lemma simple_evaluated engine fuel simplified :
  integrate_text engine (Str.strip E) (Str.strip v) = inr simplified ->
  evaluate_combined_expression engine fuel text
  = Some (Success engine simplified call
            [ py "Original expression: " ++ text;
              py "Integrand: " ++ Str.strip E;
              py "Variable of integration: " ++ Str.strip v;
              py "Result: " ++ to_str engine simplified ++ py " + C" ],
          [ st_info (py "Parsed expression: `" ++ call ++ py "`") ]).
Proof.
  intros H. unfold evaluate_combined_expression.
  pose proof (fast_path_catalogue engine text) as Hf.
  rewrite simple_not_literal in Hf. rewrite Hf, simple_parsed.
  unfold pipeline. cbv zeta. rewrite simple_condition.
  replace (Str.eqb (Str.strip text) (py "d/dx(∫sin(t) dt)")) with false
    by (rewrite simple_stripped; reflexivity).
  unfold just_an_integral. cbv zeta.
  rewrite simple_stripped, simple_parts.
  change (Str.strip (tl (hd [] [py "∫" ++ E; v]))) with (Str.strip E).
  change (Str.strip (last [py "∫" ++ E; v] [])) with (Str.strip v).
  change (2 <=? List.length [py "∫" ++ E; v])%nat with true. cbv iota.
  rewrite H. reflexivity.
Qed.
End SimpleIntegral.

(** X11.  An integral on its own is not preprocessed.  For [∫E d v] with
    no [d] in [E] or [v], no arrow head in either, no slash in [v] and no
    blank at the end, the parser returns [integrate(E, v)] with [E] and [v]
    stripped of blanks and otherwise as they were typed: a caret stays a
    caret, and no star is added. *)
Theorem integral_alone_is_not_preprocessed (E v : str) (fuel : nat) :
  Str.has E Ch.d = false -> Str.has v Ch.d = false ->
  Str.has v Ch.slash = false ->
  Str.has E Ch.gt = false -> Str.has v Ch.gt = false ->
  is_space (last v Ch.d) = false ->
  parse_combined_expression fuel (py "∫" ++ E ++ py "d" ++ v)
  = Some (py "integrate(" ++ Str.strip E ++ py ", " ++ Str.strip v ++ py ")").
Proof. intros. now apply simple_parsed. Qed.

Lemma integral_alone_is_not_preprocessed_witness :
  parse_combined_expression 0 (py "∫" ++ py " 2x^2 " ++ py "d" ++ py "x")
  = Some (py "integrate(" ++ Str.strip (py " 2x^2 ") ++ py ", "
            ++ Str.strip (py "x") ++ py ")").
Proof.
  apply (integral_alone_is_not_preprocessed (py " 2x^2 ") (py "x") 0);
    reflexivity.
Defined.

(** X12.  The evaluator on an integral on its own: for [∫E d v] as in X11,
    when the engine integrates the text of [E] as typed, the call returns
    the simplified integral with the four steps of the integration and
    shows the parsed text and nothing else; the parsed text itself is never
    evaluated. *)
Theorem integral_alone_is_integrated_as_typed (engine : Engine) (E v : str)
  (fuel : nat) (simplified : sym engine) :
  Str.has E Ch.d = false -> Str.has v Ch.d = false ->
  Str.has v Ch.slash = false ->
  Str.has E Ch.gt = false -> Str.has v Ch.gt = false ->
  is_space (last v Ch.d) = false ->
  integrate_text engine (Str.strip E) (Str.strip v) = inr simplified ->
  evaluate_combined_expression engine fuel (py "∫" ++ E ++ py "d" ++ v)
  = Some (Success engine simplified
            (py "integrate(" ++ Str.strip E ++ py ", " ++ Str.strip v
               ++ py ")")
            [ py "Original expression: " ++ py "∫" ++ E ++ py "d" ++ v;
              py "Integrand: " ++ Str.strip E;
              py "Variable of integration: " ++ Str.strip v;
              py "Result: " ++ to_str engine simplified ++ py " + C" ],
          [ st_info (py "Parsed expression: `"
                       ++ (py "integrate(" ++ Str.strip E ++ py ", "
                             ++ Str.strip v ++ py ")") ++ py "`") ]).
Proof. intros. now apply simple_evaluated. Qed.

Lemma integral_alone_is_integrated_as_typed_witness :
  evaluate_combined_expression formal_engine 0
    (py "∫" ++ py " 2x^2 " ++ py "d" ++ py "x")
  = Some (Success formal_engine (py "Integral(2x^2, x)")
            (py "integrate(" ++ Str.strip (py " 2x^2 ") ++ py ", "
               ++ Str.strip (py "x") ++ py ")")
            [ py "Original expression: " ++ py "∫" ++ py " 2x^2 " ++ py "d"
                ++ py "x";
              py "Integrand: " ++ Str.strip (py " 2x^2 ");
              py "Variable of integration: " ++ Str.strip (py "x");
              py "Result: " ++ to_str formal_engine (py "Integral(2x^2, x)")
                ++ py " + C" ],
          [ st_info (py "Parsed expression: `"
                       ++ (py "integrate(" ++ Str.strip (py " 2x^2 ") ++ py ", "
                             ++ Str.strip (py "x") ++ py ")") ++ py "`") ]).
Proof.
  apply (integral_alone_is_integrated_as_typed formal_engine (py " 2x^2 ")
           (py "x") 0 (py "Integral(2x^2, x)")); reflexivity.
Defined.

(** ** An integral inside a text *)

Lemma search_from_head p ms rest skipped :
  Forall2 fits p ms -> tight p ms rest ->
  search_from p skipped (concat ms ++ rest)
  = Some (Found (rev skipped) ms rest).
Proof.
  intros HF Ht.
  destruct (concat ms ++ rest) eqn:Hs; simpl;
    rewrite <- Hs, (match_at_complete _ _ _ HF Ht); reflexivity.
Qed.

(** No match starts on a character that the first item of the pattern,
    which takes one character, does not take. *)
Lemma search_from_skip it p b : forall skipped s,
  rep it = One -> existsb (cls it) b = false ->
  search_from (it :: p) skipped (b ++ s)
  = search_from (it :: p) (rev b ++ skipped) s.
Proof.
  induction b as [|e b IH]; intros skipped s Hq Hb; [reflexivity|].
  simpl in Hb. apply orb_false_iff in Hb as [He Hb].
  change ((e :: b) ++ s) with (e :: (b ++ s)).
  change (search_from (it :: p) skipped (e :: b ++ s))
    with (match match_at (it :: p) (e :: b ++ s) with
          | Some (ms, rest) => Some (Found (rev skipped) ms rest)
          | None => search_from (it :: p) (e :: skipped) (b ++ s)
          end).
  replace (match_at (it :: p) (e :: b ++ s)) with (@None (pieces * str)).
  - rewrite (IH _ _ Hq Hb). simpl rev. now rewrite <- app_assoc.
  - simpl. rewrite Hq. simpl. now rewrite He.
Qed.

Lemma search_after it p b ms rest :
  rep it = One -> existsb (cls it) b = false ->
  Forall2 fits (it :: p) ms -> tight (it :: p) ms rest ->
  search (it :: p) (b ++ concat ms ++ rest) = Some (Found b ms rest).
Proof.
  intros Hq Hb HF Ht. unfold search.
  rewrite (search_from_skip it p b _ _ Hq Hb).
  rewrite (search_from_head _ _ _ _ HF Ht).
  now rewrite app_nil_r, rev_involutive.
Qed.

Lemma lstrip_twice s : Str.lstrip (Str.lstrip s) = Str.lstrip s.
Proof.
  destruct (Str.lstrip s) as [|c t] eqn:H; [reflexivity|].
  apply lstrip_head in H. now apply lstrip_keep.
Qed.

Lemma without_d E :
  Str.has E Ch.d = false -> Forall (fun c => not_d c = true) E.
Proof.
  induction E as [|c E IH]; [constructor|].
  rewrite has_cons. intros H. apply orb_false_iff in H as [Hc HE].
  constructor; [|now apply IH].
  unfold not_d, none_of. simpl. rewrite N.eqb_sym, Hc. reflexivity.
Qed.

Lemma Forall_suffix (P : char -> Prop) l s :
  Forall P (l ++ s) -> Forall P s.
Proof. intros H. now apply Forall_app in H. Qed.

Section IntegralInside.
Variables (b E a : str) (v : char).
Hypothesis b_without_integral : Str.has b Ch.integral = false.
Hypothesis E_without_d : Str.has E Ch.d = false.
Hypothesis v_lower : is_lower v = true.

Let text : str := b ++ py "∫" ++ E ++ py "d" ++ [v] ++ a.
Let call : str :=
  b ++ py "integrate(" ++ integrand_fixups (Str.strip E) [v] ++ py ", "
    ++ [v] ++ py ")" ++ a.

Lemma integral_found :
  exists l,
    search integral_pattern text
    = Some (Found b [ [Ch.integral]; l; Str.lstrip E; []; [Ch.d]; [v] ] a).
Proof.
  destruct (lstrip_spaces E) as [l [HE Hl]]. exists l.
  assert (Ht : text = b ++ concat [ [Ch.integral]; l; Str.lstrip E; [];
                                    [Ch.d]; [v] ] ++ a).
  { unfold text. cbn [concat]. rewrite HE at 1.
    change (py "∫") with [Ch.integral]. change (py "d") with [Ch.d].
    now rewrite app_nil_r, <- !app_assoc. }
  rewrite Ht. unfold integral_pattern.
  apply search_after; [reflexivity|exact b_without_integral| |].
  - pose proof (without_d E E_without_d) as Hd. rewrite HE in Hd.
    apply Forall_suffix in Hd.
    repeat (apply Forall2_cons; [split|]); try apply Forall2_nil;
      simpl; auto.
  - cbn [tight rep lit ws group_star group_one star cls concat app].
    repeat split; try exact I.
    destruct (Str.lstrip E) as [|c t] eqn:Hc; [reflexivity|].
    apply lstrip_head in Hc. exact Hc.
Qed.

Lemma integral_rewritten : integral_step text = Some call.
Proof.
  unfold integral_step. destruct integral_found as [l ->].
  unfold splice, call. cbn [before after matched].
  change (group integral_pattern
            [[Ch.integral]; l; Str.lstrip E; []; [Ch.d]; [v]] 1)
    with (Str.lstrip E).
  change (group integral_pattern
            [[Ch.integral]; l; Str.lstrip E; []; [Ch.d]; [v]] 2)
    with [v].
  replace (Str.strip (Str.lstrip E)) with (Str.strip E);
    [now rewrite <- !app_assoc|].
  unfold Str.strip. now rewrite lstrip_twice.
Qed.
End IntegralInside.

Section IntegralInText.
Variables (b E a : str) (v : char).
Let text : str := b ++ py "∫" ++ E ++ py "d" ++ [v] ++ a.
Let call : str :=
  b ++ py "integrate(" ++ integrand_fixups (Str.strip E) [v] ++ py ", "
    ++ [v] ++ py ")" ++ a.

Hypothesis text_without_slash : Str.has text Ch.slash = false.
Hypothesis text_without_arrow : Str.has text Ch.gt = false.
Hypothesis text_without_caret : Str.has text Ch.caret = false.
Hypothesis one_integral : Str.has (b ++ E ++ a) Ch.integral = false.
Hypothesis E_without_d : Str.has E Ch.d = false.
Hypothesis v_lower : is_lower v = true.

Lemma call_without c :
  Str.has call_alphabet c = false -> Str.has (b ++ E ++ a) c = false ->
  c <> v -> Str.has call c = false.
Proof.
  intros Hc Ht Hv. destruct (Str.has call c) eqn:H; [|reflexivity].
  rewrite !has_app in Ht.
  apply orb_false_iff in Ht as [Hb Ht].
  apply orb_false_iff in Ht as [HE Ha].
  apply has_In in H. unfold call in H.
  repeat (apply in_app_or in H; destruct H as [H|H]);
    first [ apply has_In in H; congruence
          | match type of H with
            | In _ (py ?t) =>
                apply (In_alphabet (py t) _ eq_refl), has_In in H
            end; congruence
          | apply In_integrand_fixups in H as [H|H];
            [apply In_stripped, has_In in H|apply has_In in H]; congruence
          | destruct H as [H|[]]; congruence ].
Qed.

Lemma integral_in_text_loops fuel :
  run_loops rewrite_rules (S fuel) text = Some call.
Proof.
  assert (Hb : Str.has b Ch.integral = false).
  { rewrite has_app in one_integral.
    now apply orb_false_iff in one_integral as [H _]. }
  pose proof (integral_rewritten b E a v Hb E_without_d v_lower) as Hstep.
  fold text in Hstep. fold call in Hstep.
  assert (Hi : Str.has call Ch.integral = false).
  { apply call_without; [reflexivity|exact one_integral|].
    apply lower_bounds in v_lower. unfold Ch.integral. lia. }
  assert (Hg : Str.has call Ch.gt = false).
  { apply call_without; [reflexivity| |].
    - unfold text in text_without_arrow. rewrite !has_app in *.
      repeat match goal with
             | H : _ || _ = false |- _ => apply orb_false_iff in H as [? ?]
             end.
      repeat (apply orb_false_iff; split); assumption.
    - apply lower_bounds in v_lower. unfold Ch.gt. lia. }
  unfold rewrite_rules, run_loops.
  repeat (rewrite rewrite_loop_idle;
          [cbv beta iota
          |step_none;
           first [ apply (search_none_literal _ _ Ch.slash);
                   [solve [pick]|exact text_without_slash]
                 | apply (search_none_literal _ _ Ch.caret);
                   [solve [pick]|exact text_without_caret] ]]).
  rewrite (rewrite_loop_once integral_step fuel text call Hstep).
  - cbv beta iota. rewrite rewrite_loop_idle; [reflexivity|].
    step_none. apply (search_none_literal _ _ Ch.gt); [solve [pick]|exact Hg].
  - step_none.
    apply (search_none_literal _ _ Ch.integral); [solve [pick]|exact Hi].
Qed.
End IntegralInText.

Lemma lstrip_app s rest :
  Str.lstrip s <> [] -> Str.lstrip (s ++ rest) = Str.lstrip s ++ rest.
Proof.
  induction s as [|c s IH]; [simpl; congruence|]. simpl.
  destruct (is_space c); [exact IH|reflexivity].
Qed.

Lemma rstrip_cons c t :
  is_space c = false -> Str.rstrip (c :: t) = c :: Str.rstrip t.
Proof.
  intros Hc. unfold Str.rstrip. simpl rev.
  assert (H : forall x, Str.lstrip (x ++ [c]) = Str.lstrip x ++ [c]).
  { induction x as [|e x IH]; simpl; [now rewrite Hc|].
    destruct (is_space e); [exact IH|reflexivity]. }
  rewrite H, rev_app_distr. reflexivity.
Qed.

Lemma strip_first b rest :
  Str.lstrip b <> [] ->
  exists c t, Str.strip (b ++ rest) = c :: t /\ In c b.
Proof.
  intros Hb. unfold Str.strip. rewrite (lstrip_app b rest Hb).
  destruct (lstrip_suffix b) as [l Hl].
  destruct (Str.lstrip b) as [|c t] eqn:Hc; [congruence|].
  exists c, (Str.rstrip (t ++ rest)). split.
  - apply lstrip_head in Hc. now apply rstrip_cons.
  - rewrite Hl. apply in_or_app. right. now left.
Qed.

Lemma preprocess_fixed s :
  Str.has s Ch.caret = false -> implicit_product s = false ->
  preprocess_expression s = s.
Proof.
  intros Hc Hp. unfold implicit_product in Hp.
  apply orb_false_iff in Hp as [H1 H2].
  rewrite preprocess_expression_eq, (without_caret_fixed s Hc).
  rewrite (star_between_fixed _ _ s H1). now apply star_between_fixed.
Qed.

Section IntegralParsed.
Variables (b E a : str) (v : char).
Let text : str := b ++ py "∫" ++ E ++ py "d" ++ [v] ++ a.

Hypothesis text_without_slash : Str.has text Ch.slash = false.
Hypothesis text_without_arrow : Str.has text Ch.gt = false.
Hypothesis text_without_caret : Str.has text Ch.caret = false.
Hypothesis text_with_stars : implicit_product text = false.
Hypothesis one_integral : Str.has (b ++ E ++ a) Ch.integral = false.
Hypothesis b_not_blank : Str.lstrip b <> [].
Hypothesis E_without_d : Str.has E Ch.d = false.
Hypothesis v_lower : is_lower v = true.

Lemma integral_in_text_parsed fuel :
  parse_combined_expression (S fuel) text
  = Some (b ++ py "integrate(" ++ integrand_fixups (Str.strip E) [v]
            ++ py ", " ++ [v] ++ py ")" ++ a).
Proof.
  unfold parse_combined_expression.
  replace (literal_examples text) with (@None str).
  2:{ unfold literal_examples. cbv zeta.
      rewrite !(among_needs text Ch.slash _ text_without_slash)
        by reflexivity.
      rewrite !(contains_without text _ Ch.slash text_without_slash)
        by reflexivity.
      rewrite !(contains_without text _ Ch.gt text_without_arrow)
        by reflexivity.
      reflexivity. }
  replace (leading_integral text) with (@None str).
  2:{ unfold leading_integral.
      destruct (strip_first b (py "∫" ++ E ++ py "d" ++ [v] ++ a) b_not_blank)
        as [c [t [Hs Hc]]].
      fold text in Hs. rewrite Hs. change (py "∫") with [Ch.integral].
      rewrite startswith_cons.
      replace (N.eqb c Ch.integral) with false; [reflexivity|].
      symmetry. apply N.eqb_neq. intros ->.
      rewrite has_app in one_integral.
      apply orb_false_iff in one_integral as [H _].
      apply has_In in Hc. congruence. }
  rewrite (preprocess_fixed text text_without_caret text_with_stars).
  replace (first_of nested_forms text) with (@None str).
  2:{ unfold first_of, nested_forms, fold_right, derivative_of_integral,
        derivative_of_limit, integral_of_limit.
      rewrite (search_none_literal special_case _ Ch.slash)
        by (pick || exact text_without_slash).
      rewrite (search_none_literal limit_derivative_pattern _ Ch.slash)
        by (pick || exact text_without_slash).
      rewrite (search_none_literal limit_integral_pattern _ Ch.gt)
        by (pick || exact text_without_arrow).
      reflexivity. }
  now apply integral_in_text_loops.
Qed.

Lemma number_fixups :
  Str.isdigit (Str.strip E) = true ->
  integrand_fixups (Str.strip E) (py "x") = Str.strip E ++ py "*x".
Proof.
  intros H. unfold integrand_fixups. rewrite H. simpl andb. cbv iota.
  unfold Str.endswith_char. rewrite rev_app_distr. reflexivity.
Qed.
End IntegralParsed.

(** X13.  One integral inside a text: for [b ∫E dv a] with [v] a small
    letter, something other than blanks in [b], no [d] in [E], no other
    integral sign, no slash, arrow head or caret, and every product
    written with its star, the parser returns [b integrate(F, v) a], where
    [F] is [E] stripped of blanks and passed through the two corrections of
    lines 232 to 240; what stands before and after is left as it is. *)
Theorem integral_inside_a_text (b E a : str) (v : char) (fuel : nat) :
  Str.has (b ++ py "∫" ++ E ++ py "d" ++ [v] ++ a) Ch.slash = false ->
  Str.has (b ++ py "∫" ++ E ++ py "d" ++ [v] ++ a) Ch.gt = false ->
  Str.has (b ++ py "∫" ++ E ++ py "d" ++ [v] ++ a) Ch.caret = false ->
  implicit_product (b ++ py "∫" ++ E ++ py "d" ++ [v] ++ a) = false ->
  Str.has (b ++ E ++ a) Ch.integral = false ->
  Str.lstrip b <> [] -> Str.has E Ch.d = false -> is_lower v = true ->
  parse_combined_expression (S fuel)
    (b ++ py "∫" ++ E ++ py "d" ++ [v] ++ a)
  = Some (b ++ py "integrate(" ++ integrand_fixups (Str.strip E) [v]
            ++ py ", " ++ [v] ++ py ")" ++ a).
Proof. intros. now apply integral_in_text_parsed. Qed.

Lemma integral_inside_a_text_witness :
  parse_combined_expression 1
    (py "y*" ++ py "∫" ++ py " sin(t) " ++ py "d" ++ [116%N] ++ py " + 1")
  = Some (py "y*" ++ py "integrate("
            ++ integrand_fixups (Str.strip (py " sin(t) ")) [116%N]
            ++ py ", " ++ [116%N] ++ py ")" ++ py " + 1").
Proof.
  apply (integral_inside_a_text (py "y*") (py " sin(t) ") (py " + 1")
           116%N 0); (reflexivity || discriminate).
Defined.

(** X14.  A number under an integral sign is multiplied by [x]: for
    [b ∫N dx a] as in X13, with [N] made of digits, the parser returns
    [b integrate(N*x, x) a]: the integrand handed on is [N*x], not [N]. *)
Theorem number_under_an_integral (b E a : str) (fuel : nat) :
  Str.has (b ++ py "∫" ++ E ++ py "d" ++ py "x" ++ a) Ch.slash = false ->
  Str.has (b ++ py "∫" ++ E ++ py "d" ++ py "x" ++ a) Ch.gt = false ->
  Str.has (b ++ py "∫" ++ E ++ py "d" ++ py "x" ++ a) Ch.caret = false ->
  implicit_product (b ++ py "∫" ++ E ++ py "d" ++ py "x" ++ a) = false ->
  Str.has (b ++ E ++ a) Ch.integral = false ->
  Str.lstrip b <> [] -> Str.has E Ch.d = false ->
  Str.isdigit (Str.strip E) = true ->
  parse_combined_expression (S fuel)
    (b ++ py "∫" ++ E ++ py "d" ++ py "x" ++ a)
  = Some (b ++ py "integrate(" ++ Str.strip E ++ py "*x, x)" ++ a).
Proof.
  intros H1 H2 H3 H4 H5 H6 H7 H8.
  change (py "x") with [Ch.x] in *.
  rewrite (integral_in_text_parsed b E a Ch.x H1 H2 H3 H4 H5 H6 H7 eq_refl).
  change [Ch.x] with (py "x"). rewrite (number_fixups E H8).
  rewrite <- !app_assoc. reflexivity.
Qed.

Lemma number_under_an_integral_witness :
  parse_combined_expression 1
    (py "1 + " ++ py "∫" ++ py "5 " ++ py "d" ++ py "x" ++ py "")
  = Some (py "1 + " ++ py "integrate(" ++ Str.strip (py "5 ") ++ py "*x, x)"
            ++ py "").
Proof.
  apply (number_under_an_integral (py "1 + ") (py "5 ") (py "") 0);
    (reflexivity || discriminate).
Defined.

(** ** The loop of the limits *)

Section LimitInside.
Variables (b A E a : str) (v : char).
Hypothesis b_without_l : Str.has b Ch.l = false.
Hypothesis v_lower : is_lower v = true.
Hypothesis A_without_braces : Forall (fun c => not_brace c = true) A.
Hypothesis A_nonempty : A <> [].
Hypothesis E_without_parens : Forall (fun c => not_paren c = true) E.
Hypothesis E_nonempty : E <> [].

Let text : str :=
  b ++ py "lim{" ++ [v] ++ py "->" ++ A ++ py "}(" ++ E ++ py ")" ++ a.
Let ms : pieces :=
  [ [Ch.l]; [Ch.i]; [Ch.m]; [Ch.lbrace]; [v]; [Ch.minus]; [Ch.gt]; A;
    [Ch.rbrace]; []; [Ch.lparen]; E; [Ch.rparen] ].

Lemma limit_found : search limit_pattern text = Some (Found b ms a).
Proof.
  assert (Ht : text = b ++ concat ms ++ a).
  { unfold text, ms. cbn [concat]. rewrite <- !app_assoc. same_text. }
  rewrite Ht. unfold_patterns.
  apply search_after; [reflexivity|exact b_without_l| |].
  - unfold ms. repeat (apply Forall2_cons; [fit_piece|]). apply Forall2_nil.
  - unfold ms. taut.
Qed.

Lemma limit_rewritten :
  limit_step text
  = Some (b ++ py "limit(" ++ E ++ py ", " ++ [v] ++ py ", " ++ infinity A
            ++ py ")" ++ a).
Proof.
  unfold limit_step. rewrite limit_found.
  unfold splice. cbn [before after matched].
  change (group limit_pattern ms 1) with [v].
  change (group limit_pattern ms 2) with A.
  change (group limit_pattern ms 3) with E.
  now rewrite <- !app_assoc.
Qed.
End LimitInside.

(** X15.  The limit that the loop of the limits does rewrite is written
    with one brace and no underscore: [lim{v->A}(E)], with [v] a small
    letter, [A] without braces and [E] without parentheses, becomes
    [limit(E, v, A)], and [oo] or [-oo] stands for [A] when [A] is one of
    the names of infinity; the text before (without an [l]) and the text
    after stay. *)
Theorem limit_with_one_brace (b A E a : str) (v : char) :
  Str.has b Ch.l = false -> is_lower v = true ->
  Forall (fun c => not_brace c = true) A -> A <> [] ->
  Forall (fun c => not_paren c = true) E -> E <> [] ->
  limit_step
    (b ++ py "lim{" ++ [v] ++ py "->" ++ A ++ py "}(" ++ E ++ py ")" ++ a)
  = Some (b ++ py "limit(" ++ E ++ py ", " ++ [v] ++ py ", " ++ infinity A
            ++ py ")" ++ a).
Proof. intros. now apply limit_rewritten. Qed.

Lemma limit_with_one_brace_witness :
  limit_step
    (py "2*" ++ py "lim{" ++ [Ch.x] ++ py "->" ++ py "-inf" ++ py "}("
       ++ py "1/x" ++ py ")" ++ py " + 1")
  = Some (py "2*" ++ py "limit(" ++ py "1/x" ++ py ", " ++ [Ch.x] ++ py ", "
            ++ infinity (py "-inf") ++ py ")" ++ py " + 1").
Proof.
  apply (limit_with_one_brace (py "2*") (py "-inf") (py "1/x") (py " + 1")
           Ch.x); try reflexivity; try discriminate;
    repeat (apply Forall_cons; [reflexivity|]); apply Forall_nil.
Defined.

(** ** A text without notation, evaluated *)

Lemma plain_evaluated engine fuel s result simplified :
  weight s = 0%nat ->
  Str.among (preprocess_expression s) [ py "x^2"; py "1"; py "0"; py "x^3/3" ]
  = false ->
  sympify engine (preprocess_expression s) = inr result ->
  simplify engine result = inr simplified ->
  evaluate_combined_expression engine fuel s
  = Some (Success engine simplified (preprocess_expression s)
            [ py "Original expression: " ++ s;
              py "Parsed as: " ++ preprocess_expression s;
              py "Evaluated result: " ++ to_str engine simplified ],
          [ st_info (py "Parsed expression: `" ++ preprocess_expression s
                       ++ py "`") ]).
Proof.
  intros Hw Ha Hs Hr. unfold evaluate_combined_expression.
  pose proof (parse_without_glyphs s fuel Hw) as Hp.
  pose proof (fast_path_catalogue engine s) as Hf.
  assert (Hl : literal_examples s = None).
  { unfold parse_combined_expression in Hp.
    destruct (literal_examples s) as [l|] eqn:Hl; [|reflexivity].
    exfalso. injection Hp as ->.
    apply weight_zero in Hw as [Hsl [Hi Hg]].
    rewrite (literal_examples_plain s Hi Hg) in Hl. cbv zeta in Hl.
    rewrite !(among_needs s Ch.slash _ Hsl) in Hl by reflexivity.
    discriminate. }
  rewrite Hl in Hf. rewrite Hf, Hp.
  apply weight_zero in Hw as [Hsl [Hi Hg]].
  unfold pipeline. cbv zeta.
  replace (Str.eqb (Str.strip s) (py "d/dx(∫sin(t) dt)")) with false.
  2:{ symmetry.
      pose proof (among_needs s Ch.slash [ py "d/dx(∫sin(t) dt)" ] Hsl
                    eq_refl) as H.
      unfold Str.among in H. simpl existsb in H.
      now rewrite orb_false_r in H. }
  replace (Str.startswith (Str.strip s) (py "∫")) with false.
  2:{ symmetry. change (py "∫") with [Ch.integral].
      destruct (Str.startswith (Str.strip s) [Ch.integral]) eqn:H;
        [|reflexivity].
      apply startswith_has, has_In, In_stripped, has_In in H. congruence. }
  simpl andb. cbv iota.
  unfold evaluate_parsed, bind. rewrite Ha, Hs, Hr. reflexivity.
Qed.

(** X16.  A text without notation, evaluated: when the input holds no
    slash, integral sign or arrow head, its preprocessed text is none of
    [x^2], [1], [0], [x^3/3], and the engine parses and simplifies that
    text, the call returns the simplified expression with the preprocessed
    text as parsed text and three steps, and shows the parsed text and
    nothing else. *)
Theorem text_without_notation_is_evaluated (engine : Engine) (fuel : nat)
  (s : str) (result simplified : sym engine) :
  weight s = 0%nat ->
  Str.among (preprocess_expression s) [ py "x^2"; py "1"; py "0"; py "x^3/3" ]
  = false ->
  sympify engine (preprocess_expression s) = inr result ->
  simplify engine result = inr simplified ->
  evaluate_combined_expression engine fuel s
  = Some (Success engine simplified (preprocess_expression s)
            [ py "Original expression: " ++ s;
              py "Parsed as: " ++ preprocess_expression s;
              py "Evaluated result: " ++ to_str engine simplified ],
          [ st_info (py "Parsed expression: `" ++ preprocess_expression s
                       ++ py "`") ]).
Proof. apply plain_evaluated. Qed.

Lemma text_without_notation_is_evaluated_witness :
  evaluate_combined_expression formal_engine 0 (py "2x^2 + 1")
  = Some (Success formal_engine (py "2*x**2 + 1")
            (preprocess_expression (py "2x^2 + 1"))
            [ py "Original expression: " ++ py "2x^2 + 1";
              py "Parsed as: " ++ preprocess_expression (py "2x^2 + 1");
              py "Evaluated result: "
                ++ to_str formal_engine (py "2*x**2 + 1") ],
          [ st_info (py "Parsed expression: `"
                       ++ preprocess_expression (py "2x^2 + 1") ++ py "`") ]).
Proof.
  apply (text_without_notation_is_evaluated formal_engine 0 (py "2x^2 + 1")
           (py "2*x**2 + 1") (py "2*x**2 + 1")); reflexivity.
Defined.

(** ** Neighbours in a concatenation *)

Lemma adjacent_app a b x : forall y,
  adjacent a b (x ++ y) = adjacent a b x || touch a b x y || adjacent a b y.
Proof.
  induction x as [|c x IH]; intros y; [reflexivity|].
  destruct x as [|c' x].
  - destruct y as [|e y]; [reflexivity|].
    change ([c] ++ e :: y) with (c :: e :: y). now rewrite adjacent_cons.
  - change ((c :: c' :: x) ++ y) with (c :: c' :: (x ++ y)).
    rewrite !adjacent_cons.
    change (c' :: x ++ y) with ((c' :: x) ++ y). rewrite IH.
    change (touch a b (c :: c' :: x) y) with (touch a b (c' :: x) y).
    now rewrite !orb_assoc.
Qed.

Lemma touch_without_first a b x y :
  existsb a x = false -> touch a b x y = false.
Proof.
  induction x as [|c x IH]; [reflexivity|]. simpl existsb. intros H.
  apply orb_false_iff in H as [Hc Hx]. destruct x as [|c' x].
  - simpl. destruct y; [reflexivity|]. now rewrite Hc.
  - exact (IH Hx).
Qed.

Lemma touch_blocked a b x y : blocked b y -> touch a b x y = false.
Proof.
  intros H. induction x as [|c x IH]; [reflexivity|].
  destruct x as [|c' x]; [|exact IH].
  destruct y as [|e y]; [reflexivity|]. simpl in *. now rewrite H, andb_false_r.
Qed.

Lemma touch_without_second a b x y :
  existsb b y = false -> touch a b x y = false.
Proof.
  intros H. apply touch_blocked. destruct y as [|e y]; [exact I|].
  simpl in *. now apply orb_false_iff in H as [H _].
Qed.

Lemma touch_last a b x c y :
  a c = false -> touch a b (x ++ [c]) y = false.
Proof.
  intros H. induction x as [|e x IH].
  - simpl. destruct y; [reflexivity|]. now rewrite H.
  - destruct x as [|e' x]; exact IH.
Qed.

(** ** The preprocessor on a concatenation *)

Lemma star_between_join l r s c :
  exists j, (j = [] \/ j = [Ch.star])
            /\ forall rest,
                 star_between l r (s ++ c :: rest)
                 = star_between l r s ++ j ++ star_between l r (c :: rest).
Proof.
  induction s as [|e s IH].
  - exists []. split; [now left|reflexivity].
  - destruct s as [|e' s].
    + exists (if l e && r c then [Ch.star] else []). split.
      * destruct (l e && r c); auto.
      * intros rest. change ([e] ++ c :: rest) with (e :: c :: rest).
        rewrite star_between_cons. reflexivity.
    + destruct IH as [j [Hj IH]]. exists j. split; [exact Hj|].
      intros rest.
      change ((e :: e' :: s) ++ c :: rest)
        with (e :: ((e' :: s) ++ c :: rest)).
      rewrite (star_between_cons l r e), IH.
      rewrite (star_between_cons l r e (e' :: s)).
      rewrite <- !app_comm_cons. cbv iota.
      now rewrite <- !app_assoc.
Qed.

Lemma star_between_first l r c s :
  exists t, star_between l r (c :: s) = c :: t.
Proof. rewrite star_between_cons. eexists. reflexivity. Qed.

Lemma preprocess_join u c :
  c <> Ch.caret ->
  exists j, (j = [] \/ j = [Ch.star])
            /\ forall w,
                 preprocess_expression (u ++ c :: w)
                 = preprocess_expression u ++ j
                     ++ preprocess_expression (c :: w).
Proof.
  intros Hc.
  assert (Hcs : caret_to_stars c = [c]).
  { unfold caret_to_stars. now apply N.eqb_neq in Hc as ->. }
  set (U := flat_map caret_to_stars u).
  destruct (star_between_join is_decimal name_start U c) as [j1 [Hj1 H1]].
  destruct (star_between_join (only Ch.rparen) is_alpha
              (star_between is_decimal name_start U) c) as [j2 [Hj2 H2]].
  exists (if match j1 with [] => true | _ => false end then j2 else [Ch.star]).
  split.
  { destruct Hj1 as [->| ->]; [exact Hj2|now right]. }
  intros w. rewrite !preprocess_expression_eq, flat_map_app.
  change (flat_map caret_to_stars (c :: w))
    with (caret_to_stars c ++ flat_map caret_to_stars w).
  rewrite Hcs.
  change ([c] ++ flat_map caret_to_stars w)
    with (c :: flat_map caret_to_stars w).
  fold U. rewrite H1.
  destruct (star_between_first is_decimal name_start c
              (flat_map caret_to_stars w)) as [t Ht].
  rewrite Ht. destruct Hj1 as [->| ->].
  - rewrite app_nil_l. apply H2.
  - change ([Ch.star] ++ c :: t) with (Ch.star :: c :: t).
    rewrite star_between_app by reflexivity.
    rewrite (star_between_cons _ _ Ch.star).
    change (only Ch.rparen Ch.star) with false. reflexivity.
Qed.

Lemma preprocess_one c : c <> Ch.caret -> preprocess_expression [c] = [c].
Proof.
  intros Hc. rewrite preprocess_expression_eq. simpl flat_map.
  unfold caret_to_stars. apply N.eqb_neq in Hc as ->. reflexivity.
Qed.

Lemma text_before_eq c u :
  c <> Ch.caret ->
  exists j, (j = [] \/ j = [Ch.star])
            /\ text_before c u = preprocess_expression u ++ j
            /\ forall w, preprocess_expression (u ++ c :: w)
                         = text_before c u ++ preprocess_expression (c :: w).
Proof.
  intros Hc. destruct (preprocess_join u c Hc) as [j [Hj H]].
  assert (Hb : text_before c u = preprocess_expression u ++ j).
  { unfold text_before. rewrite (H []), (preprocess_one c Hc), app_assoc.
    apply removelast_last. }
  exists j. split; [exact Hj|]. split; [exact Hb|].
  intros w. now rewrite Hb, <- app_assoc.
Qed.

Lemma preprocess_first c w :
  c <> Ch.caret -> preprocess_expression (c :: w) = c :: text_after c w.
Proof.
  intros Hc.
  assert (H : exists t, preprocess_expression (c :: w) = c :: t).
  { rewrite preprocess_expression_eq.
    change (flat_map caret_to_stars (c :: w))
      with (caret_to_stars c ++ flat_map caret_to_stars w).
    unfold caret_to_stars at 1. apply N.eqb_neq in Hc as ->.
    change ([c] ++ flat_map caret_to_stars w)
      with (c :: flat_map caret_to_stars w).
    destruct (star_between_first is_decimal name_start c
                (flat_map caret_to_stars w)) as [t ->].
    apply star_between_first. }
  destruct H as [t H]. unfold text_after. now rewrite H.
Qed.

Lemma has_text_before c u x :
  c <> Ch.caret -> x <> Ch.star -> x <> Ch.caret ->
  Str.has (text_before c u) x = Str.has u x.
Proof.
  intros Hc H1 H2. destruct (text_before_eq c u Hc) as [j [Hj [-> _]]].
  rewrite has_app, has_preprocess by assumption.
  destruct Hj as [->| ->]; [apply orb_false_r|].
  rewrite has_cons. apply N.eqb_neq in H1 as ->. apply orb_false_r.
Qed.

Lemma has_text_after c w x :
  c <> Ch.caret -> x <> Ch.star -> x <> Ch.caret -> x <> c ->
  Str.has (text_after c w) x = Str.has w x.
Proof.
  intros Hc H1 H2 H3.
  pose proof (has_preprocess x (c :: w) H1 H2) as H.
  rewrite (preprocess_first c w Hc), !has_cons in H.
  apply N.eqb_neq in H3. now rewrite H3 in H.
Qed.

(** Stars between two characters do not make neighbours of them. *)
Lemma adjacent_caret_to_stars a b s :
  a Ch.star = false -> b Ch.star = false ->
  adjacent a b s = false ->
  adjacent a b (flat_map caret_to_stars s) = false.
Proof.
  intros Ha Hb. induction s as [|c s IH]; [reflexivity|]. intros H.
  change (flat_map caret_to_stars (c :: s))
    with (caret_to_stars c ++ flat_map caret_to_stars s).
  assert (Hs : adjacent a b s = false).
  { destruct s as [|e s]; [reflexivity|].
    rewrite adjacent_cons in H. now apply orb_false_iff in H as [_ H]. }
  rewrite adjacent_app, (IH Hs), orb_false_r.
  unfold caret_to_stars at 1 2. destruct (N.eqb c Ch.caret).
  - simpl. rewrite Ha. simpl.
    destruct (flat_map caret_to_stars s); reflexivity.
  - simpl. destruct s as [|e s]; [reflexivity|].
    change (flat_map caret_to_stars (e :: s))
      with (caret_to_stars e ++ flat_map caret_to_stars s).
    rewrite adjacent_cons in H. apply orb_false_iff in H as [H _].
    unfold caret_to_stars. destruct (N.eqb e Ch.caret); simpl.
    + now rewrite Hb, andb_false_r.
    + exact H.
Qed.

Lemma adjacent_preprocess a b s :
  a Ch.star = false -> b Ch.star = false ->
  adjacent a b s = false -> adjacent a b (preprocess_expression s) = false.
Proof.
  intros Ha Hb H. rewrite preprocess_expression_eq.
  apply adjacent_star_between; [assumption..|]. left.
  apply adjacent_star_between; [assumption..|]. left.
  now apply adjacent_caret_to_stars.
Qed.

(** ** The match after a text that holds none *)

Lemma match_at_blocked it p s :
  rep it = One -> blocked (cls it) s -> match_at (it :: p) s = None.
Proof.
  intros Hq Hb. simpl. rewrite Hq. destruct s as [|e s]; [reflexivity|].
  simpl in *. now rewrite Hb.
Qed.

(** No match starts in [b] when the second item of the pattern, which
    takes one character as the first does, finds none in [b] nor at the
    head of what follows. *)
Lemma search_from_skip_second it1 it2 p b : forall skipped s,
  rep it1 = One -> rep it2 = One ->
  existsb (cls it2) b = false -> blocked (cls it2) s ->
  search_from (it1 :: it2 :: p) skipped (b ++ s)
  = search_from (it1 :: it2 :: p) (rev b ++ skipped) s.
Proof.
  induction b as [|e b IH]; intros skipped s H1 H2 Hb Hs; [reflexivity|].
  simpl in Hb. apply orb_false_iff in Hb as [He Hb].
  change ((e :: b) ++ s) with (e :: (b ++ s)).
  change (search_from (it1 :: it2 :: p) skipped (e :: b ++ s))
    with (match match_at (it1 :: it2 :: p) (e :: b ++ s) with
          | Some (ms, rest) => Some (Found (rev skipped) ms rest)
          | None => search_from (it1 :: it2 :: p) (e :: skipped) (b ++ s)
          end).
  replace (match_at (it1 :: it2 :: p) (e :: b ++ s))
    with (@None (pieces * str)).
  - rewrite (IH _ _ H1 H2 Hb Hs). simpl rev. now rewrite <- app_assoc.
  - symmetry.
    assert (Hk : match_at (it2 :: p) (b ++ s) = None).
    { apply match_at_blocked; [assumption|].
      destruct b as [|e' b]; [exact Hs|]. simpl in *.
      now apply orb_false_iff in Hb as [Hb _]. }
    change (match_at (it1 :: it2 :: p) (e :: b ++ s))
      with (match match rep it1 with
                  | One => exactly_one (cls it1) (match_at (it2 :: p))
                             (e :: b ++ s)
                  | Opt => at_most_one (cls it1) (match_at (it2 :: p))
                             (e :: b ++ s)
                  | Star => greedy (cls it1) (match_at (it2 :: p))
                              (e :: b ++ s)
                  | Plus => at_least_one (cls it1) (match_at (it2 :: p))
                              (e :: b ++ s)
                  end with
            | Some (m, (ms, rest)) => Some (m :: ms, rest)
            | None => None
            end).
    rewrite H1. unfold exactly_one. rewrite Hk.
    now destruct (cls it1 e).
Qed.

Lemma search_after_second it1 it2 p b ms rest :
  rep it1 = One -> rep it2 = One ->
  existsb (cls it2) b = false -> blocked (cls it2) (concat ms ++ rest) ->
  Forall2 fits (it1 :: it2 :: p) ms -> tight (it1 :: it2 :: p) ms rest ->
  search (it1 :: it2 :: p) (b ++ concat ms ++ rest) = Some (Found b ms rest).
Proof.
  intros H1 H2 Hb Hs HF Ht. unfold search.
  rewrite (search_from_skip_second it1 it2 p b _ _ H1 H2 Hb Hs).
  rewrite (search_from_head _ _ _ _ HF Ht).
  now rewrite app_nil_r, rev_involutive.
Qed.

(** ** One turn of one loop *)

Lemma run_loops_idle rules fuel e :
  Forall (fun step => step e = None) rules -> run_loops rules fuel e = Some e.
Proof.
  induction 1 as [|step rules H _ IH]; [reflexivity|]. simpl.
  now rewrite (rewrite_loop_idle step fuel e H).
Qed.

Lemma run_loops_once l1 step l2 fuel e r :
  Forall (fun s => s e = None) l1 -> step e = Some r ->
  Forall (fun s => s r = None) (step :: l2) ->
  run_loops (l1 ++ step :: l2) (S fuel) e = Some r.
Proof.
  intros H1 Hs H2. rewrite run_loops_app, (run_loops_idle _ _ _ H1).
  inversion H2 as [|? ? Hr H3]; subst. simpl.
  rewrite Hs. rewrite (rewrite_loop_idle step fuel r Hr).
  now apply run_loops_idle.
Qed.

(** ** Texts in which no loop finds a match *)

Lemma clean_text r :
  Str.has r Ch.squared = false -> Str.has r Ch.partial = false ->
  Str.has r Ch.integral = false -> Str.has r Ch.gt = false ->
  adjacent (N.eqb Ch.d) (N.eqb Ch.slash) r = false ->
  Forall (fun step => step r = None) rewrite_rules
  /\ no_notation r = true.
Proof.
  intros H2 Hp Hi Hg Ha. split.
  - unfold rewrite_rules. repeat apply Forall_cons; try apply Forall_nil;
      step_none;
      first [ apply (search_none_literal _ _ Ch.squared);
              [solve [pick]|exact H2]
            | apply (search_none_literal _ _ Ch.partial);
              [solve [pick]|exact Hp]
            | apply (search_none_literal _ _ Ch.integral);
              [solve [pick]|exact Hi]
            | apply (search_none_literal _ _ Ch.gt);
              [solve [pick]|exact Hg]
            | apply (search_none_apart _ _ [] (lit Ch.d) (lit Ch.slash)
                       ([lit Ch.d; group_one is_lower] ++ operand));
              [reflexivity..|exact Ha] ].
  - unfold no_notation. rewrite Hi, Hp.
    rewrite (contains_apart _ _ r (py "d/d") Ha) by reflexivity.
    rewrite (contains_without r _ Ch.squared H2) by reflexivity.
    now rewrite (contains_without r _ Ch.gt Hg) by reflexivity.
Qed.

Lemma literal_answers s r :
  literal_examples s = Some r -> no_notation r = true.
Proof.
  unfold literal_examples. cbv zeta. intros H.
  repeat match type of H with
         | context [if ?b then _ else _] => destruct b
         end; try discriminate; injection H as <-; reflexivity.
Qed.

(** ** One construct in a text *)

Lemma none_of_without cs (s : str) c :
  forallb (none_of cs) s = true -> In c cs -> existsb (N.eqb c) s = false.
Proof.
  intros Hs Hc. destruct (existsb (N.eqb c) s) eqn:H; [|reflexivity].
  apply existsb_exists in H as [e [He Hce]]. apply N.eqb_eq in Hce; subst e.
  apply (proj1 (forallb_forall _ _) Hs) in He.
  unfold none_of in He. apply negb_true_iff in He.
  assert (existsb (N.eqb c) cs = true).
  { apply existsb_exists. exists c. split; [assumption|apply N.eqb_refl]. }
  congruence.
Qed.

Lemma without_none_of cs (s : str) :
  (forall c, In c cs -> existsb (N.eqb c) s = false) ->
  forallb (none_of cs) s = true.
Proof.
  intros H. apply forallb_forall. intros e He.
  unfold none_of. apply negb_true_iff.
  destruct (existsb (N.eqb e) cs) eqn:Hg; [|reflexivity].
  apply existsb_exists in Hg as [g [Hg Heg]]. apply N.eqb_eq in Heg; subst g.
  assert (existsb (N.eqb e) s = true).
  { apply existsb_exists. exists e. split; [assumption|apply N.eqb_refl]. }
  rewrite (H _ Hg) in *. discriminate.
Qed.

Lemma around_without s c :
  around s = true -> In c around_glyphs -> existsb (N.eqb c) s = false.
Proof. apply none_of_without. Qed.

Lemma derivand_facts E :
  derivand E = true ->
  E <> []
  /\ forallb (none_of [ Ch.lparen; Ch.rparen; Ch.squared; Ch.partial;
                        Ch.integral; Ch.gt ]) E = true
  /\ adjacent (N.eqb Ch.d) (N.eqb Ch.slash) E = false
  /\ adjacent (N.eqb Ch.slash) (N.eqb Ch.d) E = false.
Proof.
  unfold derivand, d_by_slash. intros H.
  apply andb_true_iff in H as [H H3]. apply andb_true_iff in H as [H1 H2].
  apply negb_true_iff, orb_false_iff in H3 as [H3 H4].
  repeat split; try assumption. now destruct E.
Qed.

Lemma derivand_parens E :
  derivand E = true -> Forall (fun c => not_paren c = true) E.
Proof.
  intros H. apply derivand_facts in H as [_ [H _]].
  apply Forall_forall. intros e He.
  apply (proj1 (forallb_forall _ _) H) in He.
  unfold none_of in *. apply negb_true_iff in He. apply negb_true_iff.
  simpl in *. apply orb_false_iff in He as [H1 He].
  apply orb_false_iff in He as [H2 _]. now rewrite H1, H2.
Qed.

Lemma derivand_without E c :
  derivand E = true ->
  In c [ Ch.lparen; Ch.rparen; Ch.squared; Ch.partial; Ch.integral; Ch.gt ] ->
  existsb (N.eqb c) E = false.
Proof.
  intros H. apply derivand_facts in H as [_ [H _]].
  now apply none_of_without.
Qed.

Lemma derivand_preprocess E :
  derivand E = true -> derivand (preprocess_expression E) = true.
Proof.
  intros H. pose proof (derivand_facts E H) as [Hn [Hc [H1 H2]]].
  unfold derivand, d_by_slash.
  rewrite (adjacent_preprocess _ _ E eq_refl eq_refl H1).
  rewrite (adjacent_preprocess _ _ E eq_refl eq_refl H2).
  rewrite andb_true_r. apply andb_true_iff. split.
  - pose proof (preprocess_nonempty E Hn).
    now destruct (preprocess_expression E).
  - apply without_none_of. intros c Hin.
    change (Str.has (preprocess_expression E) c = false).
    rewrite has_preprocess.
    + now apply (none_of_without _ E c Hc).
    + intros ->. simpl in Hin. intuition discriminate.
    + intros ->. simpl in Hin. intuition discriminate.
Qed.

Lemma lower_around v : is_lower v = true -> around [v] = true.
Proof.
  intros H. apply lower_bounds in H. unfold around, none_of. simpl.
  repeat match goal with
         | |- context [N.eqb v ?c] =>
             replace (N.eqb v c) with false
               by (symmetry; apply N.eqb_neq; unfold c; lia)
         end.
  reflexivity.
Qed.

Lemma around_app x y : around (x ++ y) = around x && around y.
Proof. apply forallb_app. Qed.

(** [existsb (N.eqb c) s = false] for a text made of literals, variables,
    operands and texts around. *)
Ltac lacks :=
  unfold Str.has; literals; rewrite <- ?app_assoc;
  repeat first [rewrite existsb_app | progress (cbn [existsb])];
  repeat match goal with
         | H : is_lower ?a = true |- context [N.eqb ?c ?a] =>
             rewrite (lower_neq c a H) by reflexivity
         | H : around ?X = true |- context [existsb (N.eqb ?c) ?X] =>
             rewrite (around_without X c H) by (simpl; auto 10)
         | H : derivand ?X = true |- context [existsb (N.eqb ?c) ?X] =>
             rewrite (derivand_without X c H) by (simpl; auto 10)
         | H : existsb (N.eqb ?c) ?X = false
           |- context [existsb (N.eqb ?c) ?X] => rewrite H
         end;
  reflexivity.

(** [adjacent a b s = false] for such a text. *)
Ltac neighbours :=
  first [ assumption
        | reflexivity
        | apply adjacent_without_first; lacks
        | apply adjacent_without_second; lacks
        | apply touch_without_first; lacks
        | apply touch_without_second; lacks
        | (apply touch_blocked; literals; cbn [app blocked];
           first [ reflexivity
                 | apply lower_neq; [assumption|reflexivity] ])
        | (literals; cbn [touch adjacent app];
           repeat match goal with
                  | H : is_lower ?a = true |- context [N.eqb ?c ?a] =>
                      rewrite (lower_neq c a H) by reflexivity
                  end;
           rewrite ?andb_false_r; reflexivity) ].

Ltac apart :=
  cbn [cls lit group_one]; rewrite <- ?app_assoc;
  repeat rewrite adjacent_app;
  repeat (apply orb_false_intro); neighbours.

(** The five properties of a text in which no loop finds a match, for an
    operand between two texts. *)
Lemma operand_between X F Y :
  around X = true -> around Y = true ->
  existsb (N.eqb Ch.squared) F = false ->
  existsb (N.eqb Ch.partial) F = false ->
  existsb (N.eqb Ch.integral) F = false ->
  existsb (N.eqb Ch.gt) F = false ->
  adjacent (N.eqb Ch.d) (N.eqb Ch.slash) F = false ->
  (forall y, touch (N.eqb Ch.d) (N.eqb Ch.slash) X y = false) ->
  Forall (fun step => step (X ++ F ++ Y) = None) rewrite_rules
  /\ no_notation (X ++ F ++ Y) = true.
Proof.
  intros HX HY H2 Hp Hi Hg Ha Ht.
  apply clean_text; try lacks.
  rewrite !adjacent_app, Ht.
  repeat (apply orb_false_intro); neighbours.
Qed.

Lemma Forall_tail {T : Type} (P : T -> Prop) l1 l2 :
  Forall P (l1 ++ l2) -> Forall P l2.
Proof. intros H. now apply Forall_app in H. Qed.

Lemma one_turn l1 step l2 fuel T R :
  rewrite_rules = l1 ++ step :: l2 ->
  Forall (fun s => s T = None) l1 -> step T = Some R ->
  Forall (fun s => s R = None) rewrite_rules /\ no_notation R = true ->
  run_loops rewrite_rules (S fuel) T = Some R /\ no_notation R = true.
Proof.
  intros Hr H1 Hs [H2 Hn]. split; [|exact Hn]. rewrite Hr in *.
  apply run_loops_once; try assumption. exact (Forall_tail _ _ _ H2).
Qed.

Lemma sin_x_clean E :
  derivand E = true ->
  existsb (N.eqb Ch.squared) (sin_x E) = false
  /\ existsb (N.eqb Ch.partial) (sin_x E) = false
  /\ existsb (N.eqb Ch.integral) (sin_x E) = false
  /\ existsb (N.eqb Ch.gt) (sin_x E) = false
  /\ adjacent (N.eqb Ch.d) (N.eqb Ch.slash) (sin_x E) = false.
Proof.
  intros H. destruct (sin_x_cases E) as [-> | ->].
  - repeat split; try lacks. now apply derivand_facts in H.
  - repeat split; reflexivity.
Qed.

Lemma touch_paren X y :
  touch (N.eqb Ch.d) (N.eqb Ch.slash) (X ++ [Ch.lparen]) y = false.
Proof. now apply touch_last. Qed.

Section FirstDerivativeBetween.
Variables (B E A : str) (v : char).
Hypothesis v_lower : is_lower v = true.
Hypothesis B_around : around B = true.
Hypothesis A_around : around A = true.
Hypothesis E_derivand : derivand E = true.

Let ms : pieces :=
  [ [Ch.d]; [Ch.slash]; [Ch.d]; [v]; []; [Ch.lparen]; E; [Ch.rparen] ].

Lemma first_derivative_found :
  search derivative_pattern (B ++ notation (FirstDerivative v) E ++ A)
  = Some (Found B ms A).
Proof.
  pose proof (derivand_facts E E_derivand) as [E_nonempty _].
  pose proof (derivand_parens E E_derivand) as E_parens.
  assert (Ht : B ++ notation (FirstDerivative v) E ++ A
               = B ++ concat ms ++ A).
  { unfold notation, ms. cbn [concat]. rewrite <- !app_assoc. same_text. }
  rewrite Ht. unfold_patterns.
  apply search_after_second; [reflexivity|reflexivity| | | |].
  - cbn [cls lit]. lacks.
  - reflexivity.
  - unfold ms. repeat (apply Forall2_cons; [fit_piece|]). apply Forall2_nil.
  - unfold ms. taut.
Qed.

Lemma first_derivative_between fuel :
  run_loops rewrite_rules (S fuel) (B ++ notation (FirstDerivative v) E ++ A)
  = Some (B ++ call_form (FirstDerivative v) E ++ A)
  /\ no_notation (B ++ call_form (FirstDerivative v) E ++ A) = true.
Proof.
  apply (one_turn [ second_derivative_step; partial_derivative_step;
                    second_partial_step; mixed_partial_step ]
           derivative_step
           [ definite_integral_step; integral_step; limit_step ]);
    [reflexivity| | |].
  - unfold notation.
    repeat apply Forall_cons; try apply Forall_nil; step_none;
      first [ apply (search_none_literal _ _ Ch.squared); [solve [pick]|lacks]
            | apply (search_none_literal _ _ Ch.partial); [solve [pick]|lacks] ].
  - unfold derivative_step. rewrite first_derivative_found.
    unfold splice, call_form. cbn [before after matched].
    change (group derivative_pattern ms 1) with [v].
    change (group derivative_pattern ms 2) with E.
    reflexivity.
  - destruct (sin_x_clean E E_derivand) as [H2 [Hp [Hi [Hg Ha]]]].
    unfold call_form.
    replace (B ++ (py "diff(" ++ sin_x E ++ py ", " ++ [v] ++ py ")") ++ A)
      with ((B ++ py "diff" ++ [Ch.lparen]) ++ sin_x E
              ++ (py ", " ++ [v] ++ py ")" ++ A))
      by (now rewrite <- !app_assoc).
    apply operand_between; try assumption.
    + rewrite around_app, B_around. reflexivity.
    + rewrite !around_app, A_around, (lower_around v v_lower). reflexivity.
    + intros y. rewrite app_assoc. apply touch_paren.
Qed.
End FirstDerivativeBetween.

Ltac text_of_pieces :=
  unfold notation; cbn [concat]; rewrite <- !app_assoc; same_text.

Ltac fitted ms :=
  unfold ms; repeat (apply Forall2_cons; [fit_piece|]); apply Forall2_nil.

Ltac no_literal c :=
  step_none; apply (search_none_literal _ _ c); [solve [pick]|lacks].

Section SecondDerivativeBetween.
Variables (B E A : str) (v : char).
Hypothesis v_lower : is_lower v = true.
Hypothesis B_around : around B = true.
Hypothesis A_around : around A = true.
Hypothesis E_derivand : derivand E = true.

Let ms : pieces :=
  [ [Ch.d]; [Ch.squared]; [Ch.slash]; [Ch.d]; [v]; [Ch.squared]; [];
    [Ch.lparen]; E; [Ch.rparen] ].

Lemma second_derivative_found :
  search second_derivative_pattern
    (B ++ notation (SecondDerivative v) E ++ A)
  = Some (Found B ms A).
Proof.
  pose proof (derivand_facts E E_derivand) as [E_nonempty _].
  pose proof (derivand_parens E E_derivand) as E_parens.
  assert (Ht : B ++ notation (SecondDerivative v) E ++ A
               = B ++ concat ms ++ A) by (unfold ms; text_of_pieces).
  rewrite Ht. unfold_patterns.
  apply search_after_second; [reflexivity|reflexivity| | | |].
  - cbn [cls lit]. lacks.
  - reflexivity.
  - fitted ms.
  - unfold ms. taut.
Qed.

Lemma second_derivative_between fuel :
  run_loops rewrite_rules (S fuel) (B ++ notation (SecondDerivative v) E ++ A)
  = Some (B ++ call_form (SecondDerivative v) E ++ A)
  /\ no_notation (B ++ call_form (SecondDerivative v) E ++ A) = true.
Proof.
  apply (one_turn [] second_derivative_step
           [ partial_derivative_step; second_partial_step;
             mixed_partial_step; derivative_step; definite_integral_step;
             integral_step; limit_step ]);
    [reflexivity|apply Forall_nil| |].
  - unfold second_derivative_step. rewrite second_derivative_found.
    unfold splice, call_form. cbn [before after matched].
    change (group second_derivative_pattern ms 1) with [v].
    change (group second_derivative_pattern ms 2) with E.
    reflexivity.
  - destruct (sin_x_clean E E_derivand) as [H2 [Hp [Hi [Hg Ha]]]].
    unfold call_form.
    replace (B ++ (py "diff(" ++ sin_x E ++ py ", " ++ [v] ++ py ", 2)")
               ++ A)
      with ((B ++ py "diff" ++ [Ch.lparen]) ++ sin_x E
              ++ (py ", " ++ [v] ++ py ", 2)" ++ A))
      by (now rewrite <- !app_assoc).
    apply operand_between; try assumption.
    + rewrite around_app, B_around. reflexivity.
    + rewrite !around_app, A_around, (lower_around v v_lower). reflexivity.
    + intros y. rewrite app_assoc. apply touch_paren.
Qed.
End SecondDerivativeBetween.

Section PartialDerivativeBetween.
Variables (B E A : str) (v : char).
Hypothesis v_lower : is_lower v = true.
Hypothesis B_around : around B = true.
Hypothesis A_around : around A = true.
Hypothesis E_derivand : derivand E = true.

Let ms : pieces :=
  [ [Ch.partial]; [Ch.slash]; [Ch.partial]; [v]; []; [Ch.lparen]; E;
    [Ch.rparen] ].

Lemma partial_derivative_found :
  search partial_derivative_pattern
    (B ++ notation (PartialDerivative v) E ++ A)
  = Some (Found B ms A).
Proof.
  pose proof (derivand_facts E E_derivand) as [E_nonempty _].
  pose proof (derivand_parens E E_derivand) as E_parens.
  assert (Ht : B ++ notation (PartialDerivative v) E ++ A
               = B ++ concat ms ++ A) by (unfold ms; text_of_pieces).
  rewrite Ht. unfold_patterns.
  apply search_after; [reflexivity| | |].
  - cbn [cls lit]. lacks.
  - fitted ms.
  - unfold ms. taut.
Qed.

Lemma partial_derivative_between fuel :
  run_loops rewrite_rules (S fuel)
    (B ++ notation (PartialDerivative v) E ++ A)
  = Some (B ++ call_form (PartialDerivative v) E ++ A)
  /\ no_notation (B ++ call_form (PartialDerivative v) E ++ A) = true.
Proof.
  apply (one_turn [ second_derivative_step ] partial_derivative_step
           [ second_partial_step; mixed_partial_step; derivative_step;
             definite_integral_step; integral_step; limit_step ]);
    [reflexivity| | |].
  - unfold notation. apply Forall_cons; [|apply Forall_nil].
    no_literal Ch.squared.
  - unfold partial_derivative_step. rewrite partial_derivative_found.
    unfold splice, call_form. cbn [before after matched].
    change (group partial_derivative_pattern ms 1) with [v].
    change (group partial_derivative_pattern ms 2) with E.
    reflexivity.
  - destruct (sin_x_clean E E_derivand) as [H2 [Hp [Hi [Hg Ha]]]].
    unfold call_form.
    replace (B ++ (py "diff(" ++ sin_x E ++ py ", " ++ [v] ++ py ")") ++ A)
      with ((B ++ py "diff" ++ [Ch.lparen]) ++ sin_x E
              ++ (py ", " ++ [v] ++ py ")" ++ A))
      by (now rewrite <- !app_assoc).
    apply operand_between; try assumption.
    + rewrite around_app, B_around. reflexivity.
    + rewrite !around_app, A_around, (lower_around v v_lower). reflexivity.
    + intros y. rewrite app_assoc. apply touch_paren.
Qed.
End PartialDerivativeBetween.

Section SecondPartialBetween.
Variables (B E A : str) (v : char).
Hypothesis v_lower : is_lower v = true.
Hypothesis B_around : around B = true.
Hypothesis A_around : around A = true.
Hypothesis E_derivand : derivand E = true.

Let ms : pieces :=
  [ [Ch.partial]; [Ch.squared]; [Ch.slash]; [Ch.partial]; [v]; [Ch.squared];
    []; [Ch.lparen]; E; [Ch.rparen] ].

Lemma second_partial_found :
  search second_partial_pattern (B ++ notation (SecondPartial v) E ++ A)
  = Some (Found B ms A).
Proof.
  pose proof (derivand_facts E E_derivand) as [E_nonempty _].
  pose proof (derivand_parens E E_derivand) as E_parens.
  assert (Ht : B ++ notation (SecondPartial v) E ++ A
               = B ++ concat ms ++ A) by (unfold ms; text_of_pieces).
  rewrite Ht. unfold_patterns.
  apply search_after; [reflexivity| | |].
  - cbn [cls lit]. lacks.
  - fitted ms.
  - unfold ms. taut.
Qed.

Lemma second_partial_between fuel :
  run_loops rewrite_rules (S fuel) (B ++ notation (SecondPartial v) E ++ A)
  = Some (B ++ call_form (SecondPartial v) E ++ A)
  /\ no_notation (B ++ call_form (SecondPartial v) E ++ A) = true.
Proof.
  pose proof (derivand_facts E E_derivand) as [_ [_ [E1 E2]]].
  apply (one_turn [ second_derivative_step; partial_derivative_step ]
           second_partial_step
           [ mixed_partial_step; derivative_step; definite_integral_step;
             integral_step; limit_step ]);
    [reflexivity| | |].
  - unfold notation. repeat apply Forall_cons; try apply Forall_nil;
      step_none.
    + apply (search_none_apart _ _ (lits (py "d²")) (lit Ch.slash)
               (lit Ch.d) ([group_one is_lower; lit Ch.squared] ++ operand));
        [reflexivity..|]. apart.
    + apply (search_none_apart _ _ [] (lit Ch.partial) (lit Ch.slash)
               ([lit Ch.partial; group_one is_lower] ++ operand));
        [reflexivity..|]. apart.
  - unfold second_partial_step. rewrite second_partial_found.
    unfold splice, call_form. cbn [before after matched].
    change (group second_partial_pattern ms 1) with [v].
    change (group second_partial_pattern ms 2) with E.
    reflexivity.
  - unfold call_form.
    replace (B ++ (py "diff(" ++ E ++ py ", " ++ [v] ++ py ", 2)") ++ A)
      with ((B ++ py "diff" ++ [Ch.lparen]) ++ E
              ++ (py ", " ++ [v] ++ py ", 2)" ++ A))
      by (now rewrite <- !app_assoc).
    apply operand_between; try assumption; try lacks.
    + rewrite around_app, B_around. reflexivity.
    + rewrite !around_app, A_around, (lower_around v v_lower). reflexivity.
    + intros y. rewrite app_assoc. apply touch_paren.
Qed.
End SecondPartialBetween.

Section MixedPartialBetween.
Variables (B E A : str) (a b : char).
Hypothesis a_lower : is_lower a = true.
Hypothesis b_lower : is_lower b = true.
Hypothesis B_around : around B = true.
Hypothesis A_around : around A = true.
Hypothesis E_derivand : derivand E = true.

Let ms : pieces :=
  [ [Ch.partial]; [Ch.squared]; [Ch.slash]; [Ch.partial]; [a]; [Ch.partial];
    [b]; []; [Ch.lparen]; E; [Ch.rparen] ].

Lemma mixed_partial_found :
  search mixed_partial_pattern (B ++ notation (MixedPartial a b) E ++ A)
  = Some (Found B ms A).
Proof.
  pose proof (derivand_facts E E_derivand) as [E_nonempty _].
  pose proof (derivand_parens E E_derivand) as E_parens.
  assert (Ht : B ++ notation (MixedPartial a b) E ++ A
               = B ++ concat ms ++ A) by (unfold ms; text_of_pieces).
  rewrite Ht. unfold_patterns.
  apply search_after; [reflexivity| | |].
  - cbn [cls lit]. lacks.
  - fitted ms.
  - unfold ms. taut.
Qed.

Lemma mixed_partial_between fuel :
  run_loops rewrite_rules (S fuel) (B ++ notation (MixedPartial a b) E ++ A)
  = Some (B ++ call_form (MixedPartial a b) E ++ A)
  /\ no_notation (B ++ call_form (MixedPartial a b) E ++ A) = true.
Proof.
  pose proof (derivand_facts E E_derivand) as [_ [_ [E1 E2]]].
  apply (one_turn [ second_derivative_step; partial_derivative_step;
                    second_partial_step ]
           mixed_partial_step
           [ derivative_step; definite_integral_step; integral_step;
             limit_step ]);
    [reflexivity| | |].
  - unfold notation. repeat apply Forall_cons; try apply Forall_nil;
      step_none.
    + apply (search_none_apart _ _ (lits (py "d²")) (lit Ch.slash)
               (lit Ch.d) ([group_one is_lower; lit Ch.squared] ++ operand));
        [reflexivity..|]. apart.
    + apply (search_none_apart _ _ [] (lit Ch.partial) (lit Ch.slash)
               ([lit Ch.partial; group_one is_lower] ++ operand));
        [reflexivity..|]. apart.
    + apply (search_none_apart _ _ (lits (py "∂²/∂")) (group_one is_lower)
               (lit Ch.squared) operand); [reflexivity..|]. apart.
  - unfold mixed_partial_step. rewrite mixed_partial_found.
    unfold splice, call_form. cbn [before after matched].
    change (group mixed_partial_pattern ms 1) with [a].
    change (group mixed_partial_pattern ms 2) with [b].
    change (group mixed_partial_pattern ms 3) with E.
    reflexivity.
  - unfold call_form.
    replace (B ++ (py "diff(diff(" ++ E ++ py ", " ++ [a] ++ py "), " ++ [b]
                     ++ py ")") ++ A)
      with ((B ++ py "diff(diff" ++ [Ch.lparen]) ++ E
              ++ (py ", " ++ [a] ++ py "), " ++ [b] ++ py ")" ++ A))
      by (now rewrite <- !app_assoc).
    apply operand_between; try assumption; try lacks.
    + rewrite around_app, B_around. reflexivity.
    + rewrite !around_app, A_around, (lower_around a a_lower),
        (lower_around b b_lower). reflexivity.
    + intros y. rewrite app_assoc. apply touch_paren.
Qed.
End MixedPartialBetween.

Lemma integrand_without E c :
  integrand E = true ->
  In c [ Ch.d; Ch.squared; Ch.partial; Ch.integral; Ch.gt ] ->
  existsb (N.eqb c) E = false.
Proof. apply none_of_without. Qed.

Lemma has_stripped s c : Str.has s c = false -> Str.has (Str.strip s) c = false.
Proof.
  intros H. destruct (Str.has (Str.strip s) c) eqn:Hs; [|reflexivity].
  apply has_In, In_stripped, has_In in Hs. congruence.
Qed.

(** The corrections of lines 232 to 240 add a star and an [x] at most. *)
Lemma has_integrand_fixups s v c :
  c <> Ch.star -> c <> Ch.x ->
  Str.has s c = false -> Str.has (integrand_fixups s v) c = false.
Proof.
  intros H1 H2 Hs. apply N.eqb_neq in H1, H2.
  unfold integrand_fixups.
  set (s1 := if Str.isdigit s && Str.eqb v (py "x") then _ else _).
  assert (Hs1 : Str.has s1 c = false).
  { subst s1. destruct (Str.isdigit s && Str.eqb v (py "x")).
    - rewrite has_app, Hs. change (py "*x") with [Ch.star; Ch.x].
      rewrite !has_cons, H1, H2. reflexivity.
    - destruct s as [|c0 [|c1 s]]; try assumption.
      destruct (is_digit c0 && Str.eqb [c1] v); [|assumption].
      rewrite !has_cons in Hs. apply orb_false_iff in Hs as [Ha Hs].
      change (py "*") with [Ch.star].
      rewrite has_app, has_cons, Ha, has_app, !has_cons, H1.
      simpl. exact Hs. }
  destruct (Str.endswith_char s1 Ch.rparen && _); [|assumption].
  destruct (Str.has (Str.strip (Str.drop_last s1)) c) eqn:H; [|reflexivity].
  apply has_In, In_stripped, In_removelast, has_In in H. congruence.
Qed.

Section IntegralBetween.
Variables (B E A : str) (v : char).
Hypothesis v_lower : is_lower v = true.
Hypothesis B_around : around B = true.
Hypothesis A_around : around A = true.
Hypothesis E_integrand : integrand E = true.
Hypothesis B_carets : existsb (N.eqb Ch.caret) B = false.
Hypothesis E_carets : existsb (N.eqb Ch.caret) E = false.
Hypothesis A_carets : existsb (N.eqb Ch.caret) A = false.

Lemma integral_apart :
  adjacent (N.eqb Ch.d) (N.eqb Ch.slash)
    (B ++ notation (Integral v) E ++ A) = false.
Proof.
  pose proof (integrand_without E Ch.d E_integrand) as Ed.
  specialize (Ed ltac:(simpl; auto 10)).
  unfold notation. apart.
Qed.

Lemma integral_between fuel :
  run_loops rewrite_rules (S fuel) (B ++ notation (Integral v) E ++ A)
  = Some (B ++ call_form (Integral v) E ++ A)
  /\ no_notation (B ++ call_form (Integral v) E ++ A) = true.
Proof.
  pose proof (fun c H => integrand_without E c E_integrand H) as HE.
  pose proof (HE Ch.d ltac:(simpl; auto 10)) as Ed.
  pose proof (HE Ch.squared ltac:(simpl; auto 10)) as E2.
  pose proof (HE Ch.partial ltac:(simpl; auto 10)) as Ep.
  pose proof (HE Ch.integral ltac:(simpl; auto 10)) as Ei.
  pose proof (HE Ch.gt ltac:(simpl; auto 10)) as Eg.
  clear HE.
  apply (one_turn [ second_derivative_step; partial_derivative_step;
                    second_partial_step; mixed_partial_step;
                    derivative_step; definite_integral_step ]
           integral_step [ limit_step ]);
    [reflexivity| | |].
  - repeat apply Forall_cons; try apply Forall_nil;
      first [ (step_none;
               apply (search_none_apart _ _ [] (lit Ch.d) (lit Ch.slash)
                        ([lit Ch.d; group_one is_lower] ++ operand));
               [reflexivity..|]; exact integral_apart)
            | unfold notation; no_literal Ch.squared
            | unfold notation; no_literal Ch.partial
            | unfold notation; no_literal Ch.caret ].
  - unfold notation, call_form. rewrite <- !app_assoc.
    apply integral_rewritten; [lacks|exact Ed|exact v_lower].
  - unfold call_form.
    replace (B ++ (py "integrate(" ++ integrand_fixups (Str.strip E) [v]
                     ++ py ", " ++ [v] ++ py ")") ++ A)
      with ((B ++ py "integrate" ++ [Ch.lparen])
              ++ integrand_fixups (Str.strip E) [v]
              ++ (py ", " ++ [v] ++ py ")" ++ A))
      by (now rewrite <- !app_assoc).
    assert (HF : forall c, c <> Ch.star -> c <> Ch.x ->
                   existsb (N.eqb c) E = false ->
                   existsb (N.eqb c) (integrand_fixups (Str.strip E) [v])
                   = false).
    { intros c H1 H2 H. apply has_integrand_fixups; try assumption.
      now apply has_stripped. }
    apply operand_between; try assumption;
      try (apply HF; [discriminate|discriminate|assumption]).
    + rewrite around_app, B_around. reflexivity.
    + rewrite !around_app, A_around, (lower_around v v_lower). reflexivity.
    + apply adjacent_without_first.
      apply HF; [discriminate|discriminate|assumption].
    + intros y. rewrite app_assoc. apply touch_paren.
Qed.
End IntegralBetween.

(** ** The preprocessor around one construct *)

Lemma lower_not_caret v : is_lower v = true -> v <> Ch.caret.
Proof. intros H ->. discriminate. Qed.

Lemma preprocess_construct k b E a :
  variables_lower k = true ->
  preprocess_expression (b ++ notation k E ++ a)
  = text_before (opens k) b ++ notation k (operand_met k E)
      ++ text_after (closes k) a.
Proof.
  intros Hk.
  destruct k as [v|v|v|v|x y|v]; cbn [variables_lower] in Hk.
  5: apply andb_true_iff in Hk as [Hx Hy].
  all: unfold notation, opens, closes, operand_met;
    rewrite <- !app_assoc; literals;
    match goal with
    | |- preprocess_expression (?u ++ ?c :: ?w) = _ =>
        let H := fresh "H" in
        let j := fresh "j" in
        assert (c <> Ch.caret) as H by discriminate;
        destruct (text_before_eq c u H) as [j [_ [_ H']]];
        rewrite (H' w); clear H H' j
    end;
    inert_head.
  1-5: rewrite (preprocess_app E _ a) by reflexivity;
       rewrite (preprocess_first _ a) by discriminate; reflexivity.
  assert (Hd : Ch.d <> Ch.caret) by discriminate.
  destruct (text_before_eq Ch.d E Hd) as [j [_ [_ H]]].
  change 100%N with Ch.d. rewrite (H (v :: a)). clear H j.
  unfold text_after. inert_head. reflexivity.
Qed.

Lemma around_text_before c b :
  c <> Ch.caret -> around b = true -> around (text_before c b) = true.
Proof.
  intros Hc Hb. apply without_none_of. intros x Hx.
  change (Str.has (text_before c b) x = false).
  rewrite has_text_before; try assumption.
  - now apply around_without.
  - intros ->. simpl in Hx. intuition discriminate.
  - intros ->. simpl in Hx. intuition discriminate.
Qed.

Lemma around_text_after c a :
  c <> Ch.caret -> around [c] = true -> around a = true ->
  around (text_after c a) = true.
Proof.
  intros Hc Hg Ha. apply without_none_of. intros x Hx.
  change (Str.has (text_after c a) x = false).
  rewrite has_text_after; try assumption.
  - now apply around_without.
  - intros ->. simpl in Hx. intuition discriminate.
  - intros ->. simpl in Hx. intuition discriminate.
  - intros ->. pose proof (around_without [c] c Hg Hx) as H.
    simpl in H. now rewrite N.eqb_refl in H.
Qed.

Lemma integrand_text_before E :
  integrand E = true -> integrand (text_before Ch.d E) = true.
Proof.
  intros HE. apply without_none_of. intros x Hx.
  change (Str.has (text_before Ch.d E) x = false).
  rewrite has_text_before.
  - now apply (integrand_without E x HE).
  - discriminate.
  - intros ->. simpl in Hx. intuition discriminate.
  - intros ->. simpl in Hx. intuition discriminate.
Qed.

Lemma text_before_carets c u :
  c <> Ch.caret -> existsb (N.eqb Ch.caret) (text_before c u) = false.
Proof.
  intros Hc. destruct (text_before_eq c u Hc) as [j [Hj [-> _]]].
  rewrite existsb_app.
  destruct (preprocess_normal_form u) as [H _]. unfold Str.has in H.
  rewrite H. now destruct Hj as [->| ->].
Qed.

Lemma text_after_carets c w :
  c <> Ch.caret -> existsb (N.eqb Ch.caret) (text_after c w) = false.
Proof.
  intros Hc. destruct (preprocess_normal_form (c :: w)) as [H _].
  rewrite (preprocess_first c w Hc), has_cons in H.
  now apply orb_false_iff in H as [_ H].
Qed.

(** ** An integral at the start of the input *)

Lemma count_app c x y :
  Str.count c (x ++ y) = (Str.count c x + Str.count c y)%nat.
Proof. unfold Str.count. now rewrite filter_app, length_app. Qed.

Lemma count_none c s : Str.has s c = false -> Str.count c s = 0%nat.
Proof.
  unfold Str.count. induction s as [|e s IH]; [reflexivity|].
  rewrite has_cons. intros H. apply orb_false_iff in H as [He Hs].
  simpl. rewrite He. now apply IH.
Qed.

Lemma count_zero c s : Str.count c s = 0%nat -> Str.has s c = false.
Proof.
  unfold Str.count. induction s as [|e s IH]; [reflexivity|].
  rewrite has_cons. simpl. destruct (N.eqb c e); [discriminate|].
  exact IH.
Qed.

Lemma hd_split_cons sep c s :
  N.eqb c sep = false ->
  hd [] (Str.split sep (c :: s)) = c :: hd [] (Str.split sep s).
Proof.
  intros H. simpl. rewrite H.
  pose proof (split_nonempty sep s).
  now destruct (Str.split sep s).
Qed.

Lemma In_hd_split sep s c :
  In c (hd [] (Str.split sep s)) -> In c s /\ c <> sep.
Proof.
  induction s as [|e s IH]; [contradiction|]. simpl.
  destruct (N.eqb e sep) eqn:He; [contradiction|].
  pose proof (split_nonempty sep s).
  destruct (Str.split sep s) as [|part parts]; [congruence|]. simpl in *.
  intros [<-|H'].
  - split; [now left|]. now apply N.eqb_neq.
  - destruct (IH H') as [H1 H2]. auto.
Qed.

Lemma In_last_split sep s c :
  In c (last (Str.split sep s) []) -> In c s /\ c <> sep.
Proof.
  induction s as [|e s IH]; [contradiction|].
  pose proof (split_nonempty sep s) as Hn.
  change (Str.split sep (e :: s))
    with (if N.eqb e sep then [] :: Str.split sep s
          else match Str.split sep s with
               | part :: parts => (e :: part) :: parts
               | [] => [[e]]
               end).
  destruct (N.eqb e sep) eqn:He.
  - destruct (Str.split sep s) as [|part parts] eqn:Hs; [congruence|].
    change (last ([] :: part :: parts) []) with (last (part :: parts) []).
    intros H. destruct (IH H) as [H1 H2]. split; [now right|assumption].
  - destruct (Str.split sep s) as [|part parts] eqn:Hs; [congruence|].
    destruct parts as [|part' parts].
    + simpl. intros [<-|H].
      * split; [now left|]. now apply N.eqb_neq.
      * destruct (IH H) as [H1 H2]. split; [now right|assumption].
    + change (last ((e :: part) :: part' :: parts) [])
        with (last (part :: part' :: parts) []).
      intros H. destruct (IH H) as [H1 H2]. split; [now right|assumption].
Qed.

Lemma last_split_cons sep e s :
  (2 <= List.length (Str.split sep (e :: s)))%nat ->
  last (Str.split sep (e :: s)) [] = last (Str.split sep s) [].
Proof.
  pose proof (split_nonempty sep s) as Hn. simpl.
  destruct (N.eqb e sep).
  - intros _. now destruct (Str.split sep s).
  - destruct (Str.split sep s) as [|part [|part' parts]]; [congruence| |].
    + simpl. lia.
    + reflexivity.
Qed.

Lemma leading_answers b E a v r :
  is_lower v = true -> around b = true -> around a = true ->
  integrand E = true ->
  leading_integral (b ++ notation (Integral v) E ++ a) = Some r ->
  no_notation r = true.
Proof.
  intros Hv Hb Ha HE.
  pose proof (fun c H => integrand_without E c HE H) as HE'.
  pose proof (HE' Ch.squared ltac:(simpl; auto 10)) as E2.
  pose proof (HE' Ch.partial ltac:(simpl; auto 10)) as Ep.
  pose proof (HE' Ch.integral ltac:(simpl; auto 10)) as Ei.
  pose proof (HE' Ch.gt ltac:(simpl; auto 10)) as Eg.
  clear HE'.
  set (T := b ++ notation (Integral v) E ++ a).
  assert (T2 : Str.has T Ch.squared = false) by (unfold T, notation; lacks).
  assert (Tp : Str.has T Ch.partial = false) by (unfold T, notation; lacks).
  assert (Tg : Str.has T Ch.gt = false) by (unfold T, notation; lacks).
  assert (Ti : Str.count Ch.integral T = 1%nat).
  { unfold T, notation. change (py "∫") with [Ch.integral].
    rewrite !count_app.
    rewrite (count_none _ b), (count_none _ E), (count_none _ a),
      (count_none _ (py "d")), (count_none _ [v]); try reflexivity;
      try lacks. }
  unfold leading_integral. fold T.
  destruct (Str.startswith (Str.strip T) (py "∫")) eqn:Hs; [|discriminate].
  destruct (Str.contains T (py "d")); [|discriminate].
  destruct (Str.startswith T (py "d/d")); [discriminate|].
  cbn [andb negb]. cbv iota zeta.
  rewrite (search_none_apart derivative_in_integral_pattern T
             (lits (py "∫") ++ [ ws; lit Ch.lparen; ws ])
             (lit Ch.d) (lit Ch.slash)
             [ lit Ch.d; group_one is_lower; ws; lit Ch.lparen;
               group_plus not_paren; lit Ch.rparen; ws; lit Ch.rparen; ws;
               lit Ch.d; group_one is_lower ]
             eq_refl eq_refl eq_refl (integral_apart b E a v Hv Hb Ha HE)).
  apply startswith_app in Hs as [X HX]. change (py "∫") with [Ch.integral] in HX.
  simpl app in HX. rewrite HX.
  destruct (2 <=? List.length (Str.split Ch.d (Ch.integral :: X)))%nat eqn:Hl;
    [|discriminate].
  apply Nat.leb_le in Hl.
  rewrite (hd_split_cons Ch.d Ch.integral X eq_refl).
  rewrite (last_split_cons Ch.d Ch.integral X Hl).
  change (tl (Ch.integral :: hd [] (Str.split Ch.d X)))
    with (hd [] (Str.split Ch.d X)).
  intros H.
  match type of H with
  | Some ?t = Some r => assert (Hr : r = t) by congruence
  end.
  clear H. subst r.
  assert (HXc : forall c, In c [Ch.squared; Ch.partial; Ch.integral; Ch.gt] ->
                  Str.has X c = false).
  { intros c Hc. destruct (strip_infix T) as [l [r' Hd]].
    rewrite HX in Hd.
    assert (Hc' : forall c', Str.has T c' = false -> Str.has X c' = false).
    { intros c' H. rewrite Hd, has_app, has_app, has_cons in H.
      apply orb_false_iff in H as [_ H]. apply orb_false_iff in H as [H _].
      now apply orb_false_iff in H as [_ H]. }
    destruct Hc as [<-|[<-|[<-|[<-|[]]]]]; try (now apply Hc').
    apply count_zero. rewrite Hd in Ti.
    change (Ch.integral :: X) with ([Ch.integral] ++ X) in Ti.
    rewrite !count_app in Ti. change (Str.count Ch.integral [Ch.integral])
      with 1%nat in Ti. lia. }
  set (F1 := Str.strip (hd [] (Str.split Ch.d X))).
  set (F2 := Str.strip (last (Str.split Ch.d X) [])).
  assert (H1 : forall c, Str.has X c = false \/ c = Ch.d ->
                 existsb (N.eqb c) F1 = false).
  { intros c Hc. change (Str.has F1 c = false).
    destruct (Str.has F1 c) eqn:H; [|reflexivity].
    apply has_In, In_stripped, In_hd_split in H as [H H'].
    apply has_In in H. destruct Hc; congruence. }
  assert (H2 : forall c, Str.has X c = false \/ c = Ch.d ->
                 existsb (N.eqb c) F2 = false).
  { intros c Hc. change (Str.has F2 c = false).
    destruct (Str.has F2 c) eqn:H; [|reflexivity].
    apply has_In, In_stripped, In_last_split in H as [H H'].
    apply has_In in H. destruct Hc; congruence. }
  pose proof (H1 Ch.d (or_intror eq_refl)) as F1d.
  pose proof (H2 Ch.d (or_intror eq_refl)) as F2d.
  pose proof (H1 _ (or_introl (HXc Ch.squared ltac:(simpl; auto)))) as F1s.
  pose proof (H2 _ (or_introl (HXc Ch.squared ltac:(simpl; auto)))) as F2s.
  pose proof (H1 _ (or_introl (HXc Ch.partial ltac:(simpl; auto)))) as F1p.
  pose proof (H2 _ (or_introl (HXc Ch.partial ltac:(simpl; auto)))) as F2p.
  pose proof (H1 _ (or_introl (HXc Ch.integral ltac:(simpl; auto)))) as F1i.
  pose proof (H2 _ (or_introl (HXc Ch.integral ltac:(simpl; auto)))) as F2i.
  pose proof (H1 _ (or_introl (HXc Ch.gt ltac:(simpl; auto)))) as F1g.
  pose proof (H2 _ (or_introl (HXc Ch.gt ltac:(simpl; auto)))) as F2g.
  clear H1 H2.
  apply clean_text; try lacks.
  apply adjacent_without_first. lacks.
Qed.

(** ** Every construct of the family *)

Lemma not_leading T : Str.has T Ch.integral = false -> leading_integral T = None.
Proof.
  intros H. unfold leading_integral. change (py "∫") with [Ch.integral].
  destruct (Str.startswith (Str.strip T) [Ch.integral]) eqn:Hs; [|reflexivity].
  apply startswith_has, has_In, In_stripped, has_In in Hs. congruence.
Qed.

Lemma not_nested T :
  Str.has T Ch.integral = false
  \/ adjacent (N.eqb Ch.d) (N.eqb Ch.slash) T = false ->
  Str.has T Ch.gt = false ->
  first_of nested_forms T = None.
Proof.
  intros Hi Hg.
  unfold first_of, nested_forms, fold_right, derivative_of_integral,
    derivative_of_limit, integral_of_limit.
  replace (search special_case T) with (@None found).
  - rewrite (search_none_literal limit_derivative_pattern T Ch.gt)
      by (pick || exact Hg).
    rewrite (search_none_literal limit_integral_pattern T Ch.gt)
      by (pick || exact Hg).
    reflexivity.
  - symmetry. destruct Hi as [Hi|Ha].
    + apply (search_none_literal _ _ Ch.integral); [solve [pick]|exact Hi].
    + apply (search_none_apart _ _ [] (lit Ch.d) (lit Ch.slash)
               ([ lit Ch.d; group_one is_lower; ws; lit Ch.lparen; ws;
                  lit Ch.integral; ws; group_plus not_d; ws; lit Ch.d;
                  group_one is_lower; ws; lit Ch.rparen ]));
        [reflexivity..|exact Ha].
Qed.

Lemma construct_between k B E A fuel :
  variables_lower k = true -> around B = true -> around A = true ->
  operand_of k E = true ->
  existsb (N.eqb Ch.caret) B = false -> existsb (N.eqb Ch.caret) E = false ->
  existsb (N.eqb Ch.caret) A = false ->
  run_loops rewrite_rules (S fuel) (B ++ notation k E ++ A)
  = Some (B ++ call_form k E ++ A)
  /\ no_notation (B ++ call_form k E ++ A) = true.
Proof.
  intros Hk HB HA HE cB cE cA.
  destruct k as [v|v|v|v|x y|v]; cbn [variables_lower operand_of] in Hk, HE.
  - now apply first_derivative_between.
  - now apply second_derivative_between.
  - now apply partial_derivative_between.
  - now apply second_partial_between.
  - apply andb_true_iff in Hk as [Hx Hy]. now apply mixed_partial_between.
  - now apply integral_between.
Qed.

Lemma construct_without_arrow k B E A :
  variables_lower k = true -> around B = true -> around A = true ->
  operand_of k E = true ->
  Str.has (B ++ notation k E ++ A) Ch.gt = false.
Proof.
  intros Hk HB HA HE.
  destruct k as [v|v|v|v|x y|v]; cbn [variables_lower operand_of] in Hk, HE.
  5: apply andb_true_iff in Hk as [Hx Hy].
  1-5: unfold notation; lacks.
  pose proof (integrand_without E Ch.gt HE ltac:(simpl; auto 10)).
  unfold notation. lacks.
Qed.

Lemma derivative_without_integral k B E A :
  variables_lower k = true -> around B = true -> around A = true ->
  derivand E = true -> opens k <> Ch.integral ->
  Str.has (B ++ notation k E ++ A) Ch.integral = false.
Proof.
  intros Hk HB HA HE Ho.
  destruct k as [v|v|v|v|x y|v]; cbn [variables_lower] in Hk.
  5: apply andb_true_iff in Hk as [Hx Hy].
  1-5: unfold notation; lacks.
  now destruct Ho.
Qed.

Lemma operand_met_of k E :
  operand_of k E = true ->
  operand_of k (operand_met k E) = true
  /\ existsb (N.eqb Ch.caret) (operand_met k E) = false.
Proof.
  intros HE. destruct k as [v|v|v|v|x y|v]; cbn [operand_of operand_met] in *;
    try (split; [now apply derivand_preprocess
                |exact (proj1 (preprocess_normal_form E))]).
  split; [now apply integrand_text_before|].
  now apply text_before_carets.
Qed.

Lemma around_closes k :
  variables_lower k = true ->
  closes k <> Ch.caret /\ around [closes k] = true.
Proof.
  intros Hk. destruct k as [v|v|v|v|x y|v]; cbn [variables_lower closes] in *;
    try (split; [discriminate|reflexivity]).
  split; [now apply lower_not_caret|now apply lower_around].
Qed.

Lemma opens_not_caret k : opens k <> Ch.caret.
Proof. destruct k; discriminate. Qed.

(** C6 (as amended).  An input that holds one construct of the notation
    is returned without any glyph of the notation.  The construct is a
    derivative ([d/dv], [d²/dv²], [∂/∂v], [∂²/∂v²] or [∂²/∂a∂b]) applied to a
    parenthesised operand, or an integral [∫E dv]; the operand of a
    derivative is not empty and holds no parenthesis, none of [² ∂ ∫ >] and
    no [d] next to a slash, the integrand holds none of [d ² ∂ ∫ >]; and the
    text before and after the construct holds none of [/ ² ∂ ∫ >].  Unless
    the input is a literal example or starts with the integral sign, the
    text returned is the preprocessed input with the construct replaced by
    its call form. *)
Theorem one_construct_rewritten (k : construct) (b E a : str) (fuel : nat) :
  variables_lower k = true -> around b = true -> around a = true ->
  operand_of k E = true ->
  exists r,
    parse_combined_expression (S fuel) (b ++ notation k E ++ a) = Some r
    /\ no_notation r = true
    /\ (literal_examples (b ++ notation k E ++ a) = None ->
        leading_integral (b ++ notation k E ++ a) = None ->
        r = text_before (opens k) b ++ call_form k (operand_met k E)
              ++ text_after (closes k) a).
Proof.
  intros Hk Hb Ha HE. unfold parse_combined_expression.
  destruct (literal_examples (b ++ notation k E ++ a)) as [r|] eqn:Hl.
  { exists r. split; [reflexivity|]. split; [|discriminate].
    exact (literal_answers _ _ Hl). }
  destruct (leading_integral (b ++ notation k E ++ a)) as [r|] eqn:Hd.
  { exists r. split; [reflexivity|]. split; [|discriminate].
    destruct k as [v|v|v|v|x y|v];
      try (rewrite not_leading in Hd;
           [discriminate
           |apply derivative_without_integral;
            [assumption..|discriminate]]).
    exact (leading_answers b E a v r Hk Hb Ha HE Hd). }
  rewrite (preprocess_construct k b E a Hk).
  destruct (operand_met_of k E HE) as [HE' cE].
  destruct (around_closes k Hk) as [Hc Hc'].
  pose proof (around_text_before (opens k) b (opens_not_caret k) Hb) as HB.
  pose proof (around_text_after (closes k) a Hc Hc' Ha) as HA.
  pose proof (text_before_carets (opens k) b (opens_not_caret k)) as cB.
  pose proof (text_after_carets (closes k) a Hc) as cA.
  destruct (construct_between k _ _ _ fuel Hk HB HA HE' cB cE cA)
    as [Hrun Hn].
  rewrite not_nested.
  - rewrite Hrun. eexists. split; [reflexivity|]. split; [exact Hn|].
    reflexivity.
  - destruct k as [v|v|v|v|x y|v];
      try (left; apply derivative_without_integral;
           [assumption..|discriminate]).
    right. cbn [variables_lower operand_of operand_met] in *.
    now apply integral_apart.
  - now apply construct_without_arrow.
Qed.

Lemma one_construct_rewritten_witness :
  exists r,
    parse_combined_expression 1
      (py "2" ++ notation (FirstDerivative Ch.x) (py "1/x^2") ++ py " + y")
    = Some r
    /\ no_notation r = true
    /\ (literal_examples
          (py "2" ++ notation (FirstDerivative Ch.x) (py "1/x^2") ++ py " + y")
        = None ->
        leading_integral
          (py "2" ++ notation (FirstDerivative Ch.x) (py "1/x^2") ++ py " + y")
        = None ->
        r = text_before (opens (FirstDerivative Ch.x)) (py "2")
              ++ call_form (FirstDerivative Ch.x)
                   (operand_met (FirstDerivative Ch.x) (py "1/x^2"))
              ++ text_after (closes (FirstDerivative Ch.x)) (py " + y")).
Proof.
  exact (one_construct_rewritten (FirstDerivative Ch.x) (py "2") (py "1/x^2")
           (py " + y") 0 eq_refl eq_refl eq_refl eq_refl).
Defined.

(** What the statement gives on inputs of the family: the derivative of a
    quotient after a factor, an integral in a sum, an integral on its
    own. *)
Lemma one_construct_examples :
  parse_combined_expression 1 (py "2d/dx(1/x^2) + y")
  = Some (py "2*diff(1/x**2, x) + y")
  /\ parse_combined_expression 1 (py "1 + ∫x^2 dx")
     = Some (py "1 + integrate(x**2, x)")
  /\ parse_combined_expression 1 (py "∫x^2 dx") = Some (py "integrate(x^2, x)")
  /\ text_before Ch.d (py "2") ++ call_form (FirstDerivative Ch.x)
       (operand_met (FirstDerivative Ch.x) (py "1/x^2"))
       ++ text_after Ch.rparen (py " + y")
     = py "2*diff(1/x**2, x) + y".
Proof. repeat split; vm_compute; reflexivity. Qed.

(** An operand that starts with a parenthesis is no operand of the rule,
    and an integral sign inside an integral stays. *)
Lemma notation_left_in_place :
  parse_combined_expression 10 (py "d/dx((x+1)*2)")
  = Some (py "d/dx((x+1)*2)")
  /\ no_notation (py "d/dx((x+1)*2)") = false
  /\ parse_combined_expression 10 (py "∫∫x dx dy")
     = Some (py "integrate(∫x, y)")
  /\ no_notation (py "integrate(∫x, y)") = false.
Proof. repeat split; vm_compute; reflexivity. Qed.
